(** * Thread-safe queues and the work-stealing thread pool of [base]

    A shallow embedding of
      - [base/simple_thread_safe_queue.h]  ([ThreadSafeQueue1], [ThreadSafeQueue]),
      - [base/simple_locked_queue.h/.cc]   ([SimpleLockedQueue1], [SimpleLockedQueue]),
      - [base/locked_queue.h]              ([LockedQueue], fine-grained locks),
      - [base/thread_pool.h]               ([JoinThreads], [FunctionWrapper],
                                            [WorkStealingQueue], [ThreadPool]).

    Every member function is one atomic step of the calling thread: it runs in
    a small monad that threads the object state, counts the heap allocations
    still possible, and records what the thread did to mutexes and condition
    variables.  A step ends in one of four ways: it returns, it throws
    [std::bad_alloc], it parks on a condition variable, or it dereferences a
    null pointer.

    [LockedQueue], whose member functions hold two mutexes in turn, is also
    run statement by statement ([FineGrained]): threads interleave under an
    arbitrary schedule and wait for the mutexes another thread holds. *)

From stdpp Require Import gmap list.
From Stdlib Require Import ZArith NArith Lia.

(** ** Effects *)

Inductive mutex := mu_ | head_mu_ | tail_mu_.

(** The member objects of a [ThreadPool] that have mutexes of their own. *)
Inductive member := Global | Local (i : nat).

(** What a member function does besides reading and writing its object. *)
Inductive event :=
| EvAlloc                 (* operator new / make_shared / make_unique *)
| EvLock (m : mutex)      (* lock_guard / unique_lock constructor *)
| EvUnlock (m : mutex)    (* their destructor *)
| EvWait                  (* cv_.wait with a false predicate: the thread parks *)
| EvNotifyOne             (* cv_.notify_one *)
| EvIn (o : member) (e : event)   (* [e] done by a member function of [o] *)
| EvLoadDone (b : bool)   (* done_.load() *)
| EvStoreDone (b : bool)  (* done_ = b *)
| EvSpawn (i : nat)       (* std::thread(&ThreadPool::Worker, this, i) *)
| EvJoin (i : nat)        (* threads_[i].join() *)
| EvCall (sid : nat)      (* task(): the packaged task with shared state sid runs *)
| EvYield.                (* std::this_thread::yield() *)

Inductive outcome (A : Type) :=
| Ok (a : A)              (* normal return *)
| Throw                   (* std::bad_alloc propagates to the caller *)
| Blocks                  (* parked in cv_.wait, the mutex released *)
| Fault.                  (* null pointer dereference *)
Arguments Ok {A} a.
Arguments Throw {A}.
Arguments Blocks {A}.
Arguments Fault {A}.

(** The part of the world a step shares with everything else: how many
    allocations can still succeed, and the log of events so far (oldest
    first). *)
Record env := Env { budget : nat; trace : list event }.

Definition M (St A : Type) : Type := St → env → outcome A * St * env.

Section Monad.
Context {St : Type}.

Definition ret {A} (a : A) : M St A := λ s w, (Ok a, s, w).

Definition bind {A B} (m : M St A) (k : A → M St B) : M St B :=
  λ s w,
    match m s w with
    | (Ok a, s', w') => k a s' w'
    | (Throw, s', w') => (Throw, s', w')
    | (Blocks, s', w') => (Blocks, s', w')
    | (Fault, s', w') => (Fault, s', w')
    end.

Definition get : M St St := λ s w, (Ok s, s, w).
Definition put (s : St) : M St unit := λ _ w, (Ok tt, s, w).
Definition emit (e : event) : M St unit :=
  λ s w, (Ok tt, s, Env (budget w) (trace w ++ [e])).
Definition fault {A} : M St A := λ s w, (Fault, s, w).
Definition blocks {A} : M St A := λ s w, (Blocks, s, w).
Definition throw {A} : M St A := λ s w, (Throw, s, w).

(** [operator new] in all its forms: it throws when memory is exhausted. *)
Definition alloc : M St unit :=
  λ s w,
    match budget w with
    | O => (Throw, s, w)
    | S b => (Ok tt, s, Env b (trace w ++ [EvAlloc]))
    end.

(** Dereferencing a pointer: null is undefined behaviour. *)
Definition deref {A} (p : option A) : M St A :=
  match p with Some a => ret a | None => fault end.

(** A scope exit: [fin] runs when [m] returns and when it throws (stack
    unwinding); a parked or crashed thread runs no destructor. *)
Definition finally {A} (m : M St A) (fin : M St unit) : M St A :=
  λ s w,
    match m s w with
    | (Ok a, s', w') => bind fin (λ _, ret a) s' w'
    | (Throw, s', w') => bind fin (λ _, throw) s' w'
    | r => r
    end.

(** [std::lock_guard lg(m)] for the rest of the scope [body]. *)
Definition lock_guard {A} (m : mutex) (body : M St A) : M St A :=
  bind (emit (EvLock m)) (λ _, finally body (emit (EvUnlock m))).
End Monad.

(** [x ← m; k] and [m;; k] are stdpp's notations for [mbind]. *)
Global Instance M_ret {St} : MRet (M St) := λ A a, ret a.
Global Instance M_bind {St} : MBind (M St) := λ A B k m, bind m k.

(** A member function of a member object, run from the enclosing object. *)
Definition within {St Sub A} (o : member) (proj : St → Sub) (upd : Sub → St → St)
    (m : M Sub A) : M St A :=
  λ s w,
    let '(r, sub, w') := m (proj s) (Env (budget w) []) in
    (r, upd sub s, Env (budget w') (trace w ++ map (EvIn o) (trace w'))).

Section MonadOps.
Context {St : Type}.

Definition modify (f : St → St) : M St unit := λ s w, (Ok tt, f s, w).

(** [cv_.wait(lock, pred)] as one step: it returns when [pred] holds and
    parks the thread otherwise. *)
Definition cv_wait (pred : M St bool) : M St unit :=
  b ← pred; if b : bool then ret tt else emit EvWait;; blocks.
End MonadOps.

(** The result, the final object and the final environment of a step. *)
Definition result {St A} (r : outcome A * St * env) : outcome A := r.1.1.
Definition final {St A} (r : outcome A * St * env) : St := r.1.2.
Definition events {St A} (r : outcome A * St * env) : list event := trace r.2.

(** A step in a fresh environment with [b] allocations left. *)
Definition run {St A} (m : M St A) (s : St) (b : nat) : outcome A * St * env :=
  m s (Env b []).

(** [std::shared_ptr<T>]: null or a heap-allocated [T]. *)
Abbreviation shared_ptr T := (option T) (only parsing).

(** [std::queue] and [std::deque] are the sequences they denote, front
    first; their own block management is not modelled. *)
Definition empty {A} (q : list A) : bool :=
  match q with [] => true | _ :: _ => false end.
Definition front {A} (q : list A) : option A := head q.
Definition back {A} (q : list A) : option A := last q.
Definition pop_front {A} (q : list A) : list A := tail q.
Definition pop_back {A} (q : list A) : list A := removelast q.
Definition push_back {A} (x : A) (q : list A) : list A := q ++ [x].
Definition push_front {A} (x : A) (q : list A) : list A := x :: q.

(** ** base/simple_thread_safe_queue.h *)

(** [ThreadSafeQueue1]: the first design, [std::queue<T>]; its value-returning
    pops allocate while they hold the lock. *)
Module ThreadSafeQueue1.
Section Methods.
Context {T : Type}.

Record t := Make { queue_ : list T }.

Definition Empty : M t bool :=
  lock_guard mu_ (s ← get; ret (empty (queue_ s))).

Definition Push (value : T) : M t unit :=
  lock_guard mu_ (
    modify (λ s, Make (push_back value (queue_ s)));;
    emit EvNotifyOne).

Definition WaitAndPop_to (value : T) : M t T :=
  emit (EvLock mu_);;
  cv_wait (s ← get; ret (negb (empty (queue_ s))));;
  finally (
    s ← get;
    v ← deref (front (queue_ s));
    put (Make (pop_front (queue_ s)));;
    ret v)
  (emit (EvUnlock mu_)).

Definition WaitAndPop : M t (shared_ptr T) :=
  emit (EvLock mu_);;
  cv_wait (s ← get; ret (negb (empty (queue_ s))));;
  finally (
    s ← get;
    v ← deref (front (queue_ s));
    alloc;;                           (* std::make_shared<T>(...) *)
    put (Make (pop_front (queue_ s)));;
    ret (Some v))
  (emit (EvUnlock mu_)).

Definition TryPop_to (value : T) : M t (bool * T) :=
  lock_guard mu_ (
    s ← get;
    if empty (queue_ s) then ret (false, value)
    else
      v ← deref (front (queue_ s));
      put (Make (pop_front (queue_ s)));;
      ret (true, v)).

Definition TryPop : M t (shared_ptr T) :=
  lock_guard mu_ (
    s ← get;
    if empty (queue_ s) then ret None
    else
      v ← deref (front (queue_ s));
      alloc;;                         (* std::make_shared<T>(...) *)
      put (Make (pop_front (queue_ s)));;
      ret (Some v)).
End Methods.
Arguments t : clear implicits.
End ThreadSafeQueue1.

(** [ThreadSafeQueue]: [std::queue<std::shared_ptr<T>>]; the payload is
    allocated by [Push], before the lock. *)
Module ThreadSafeQueue.
Section Methods.
Context {T : Type}.

Record t := Make { queue_ : list (shared_ptr T) }.

Definition Empty : M t bool :=
  lock_guard mu_ (s ← get; ret (empty (queue_ s))).

Definition Push (value : T) : M t unit :=
  alloc;;                             (* std::make_shared<T>(std::move(value)) *)
  let data := Some value in
  lock_guard mu_ (
    modify (λ s, Make (push_back data (queue_ s)));;
    emit EvNotifyOne).

Definition WaitAndPop_to (value : T) : M t T :=
  emit (EvLock mu_);;
  cv_wait (s ← get; ret (negb (empty (queue_ s))));;
  finally (
    s ← get;
    p ← deref (front (queue_ s));
    v ← deref p;                      (* *queue_.front() *)
    put (Make (pop_front (queue_ s)));;
    ret v)
  (emit (EvUnlock mu_)).

Definition WaitAndPop : M t (shared_ptr T) :=
  emit (EvLock mu_);;
  cv_wait (s ← get; ret (negb (empty (queue_ s))));;
  finally (
    s ← get;
    res ← deref (front (queue_ s));
    put (Make (pop_front (queue_ s)));;
    ret res)
  (emit (EvUnlock mu_)).

Definition TryPop_to (value : T) : M t (bool * T) :=
  lock_guard mu_ (
    s ← get;
    if empty (queue_ s) then ret (false, value)
    else
      p ← deref (front (queue_ s));
      v ← deref p;                    (* *queue_.front() *)
      put (Make (pop_front (queue_ s)));;
      ret (true, v)).

Definition TryPop : M t (shared_ptr T) :=
  lock_guard mu_ (
    s ← get;
    if empty (queue_ s) then ret None
    else
      res ← deref (front (queue_ s));
      put (Make (pop_front (queue_ s)));;
      ret res).
End Methods.
Arguments t : clear implicits.
End ThreadSafeQueue.

(** ** base/simple_locked_queue.h, base/simple_locked_queue.cc *)

(** [SimpleLockedQueue1 : public ThreadSafeQueue<T>]: as [ThreadSafeQueue1]. *)
Module SimpleLockedQueue1.
Section Methods.
Context {T : Type}.

Record t := Make { queue_ : list T }.

Definition Empty : M t bool :=
  lock_guard mu_ (s ← get; ret (empty (queue_ s))).

Definition Push (value : T) : M t unit :=
  lock_guard mu_ (
    modify (λ s, Make (push_back value (queue_ s)));;
    emit EvNotifyOne).

Definition WaitAndPop_to (value : T) : M t T :=
  emit (EvLock mu_);;
  cv_wait (s ← get; ret (negb (empty (queue_ s))));;
  finally (
    s ← get;
    v ← deref (front (queue_ s));
    put (Make (pop_front (queue_ s)));;
    ret v)
  (emit (EvUnlock mu_)).

Definition WaitAndPop : M t (shared_ptr T) :=
  emit (EvLock mu_);;
  cv_wait (s ← get; ret (negb (empty (queue_ s))));;
  finally (
    s ← get;
    v ← deref (front (queue_ s));
    alloc;;                           (* std::make_shared<T>(...) *)
    put (Make (pop_front (queue_ s)));;
    ret (Some v))
  (emit (EvUnlock mu_)).

Definition TryPop_to (value : T) : M t (bool * T) :=
  lock_guard mu_ (
    s ← get;
    if empty (queue_ s) then ret (false, value)
    else
      v ← deref (front (queue_ s));
      put (Make (pop_front (queue_ s)));;
      ret (true, v)).

Definition TryPop : M t (shared_ptr T) :=
  lock_guard mu_ (
    s ← get;
    if empty (queue_ s) then ret None
    else
      v ← deref (front (queue_ s));
      alloc;;                         (* std::make_shared<T>(...) *)
      put (Make (pop_front (queue_ s)));;
      ret (Some v)).
End Methods.
Arguments t : clear implicits.
End SimpleLockedQueue1.

(** [SimpleLockedQueue : public ThreadSafeQueue<T>], defined in the .cc file. *)
Module SimpleLockedQueue.
Section Methods.
Context {T : Type}.

Record t := Make { queue_ : list (shared_ptr T) }.

Definition Empty : M t bool :=
  lock_guard mu_ (s ← get; ret (empty (queue_ s))).

Definition Push (value : T) : M t unit :=
  alloc;;                             (* std::make_shared<T>(std::move(value)) *)
  let data := Some value in
  lock_guard mu_ (
    modify (λ s, Make (push_back data (queue_ s)));;
    emit EvNotifyOne).

Definition WaitAndPop_to (value : T) : M t T :=
  emit (EvLock mu_);;
  cv_wait (s ← get; ret (negb (empty (queue_ s))));;
  finally (
    s ← get;
    p ← deref (front (queue_ s));
    v ← deref p;                      (* *queue_.front() *)
    put (Make (pop_front (queue_ s)));;
    ret v)
  (emit (EvUnlock mu_)).

Definition WaitAndPop : M t (shared_ptr T) :=
  emit (EvLock mu_);;
  cv_wait (s ← get; ret (negb (empty (queue_ s))));;
  finally (
    s ← get;
    res ← deref (front (queue_ s));
    put (Make (pop_front (queue_ s)));;
    ret res)
  (emit (EvUnlock mu_)).

Definition TryPop_to (value : T) : M t (bool * T) :=
  lock_guard mu_ (
    s ← get;
    if empty (queue_ s) then ret (false, value)
    else
      p ← deref (front (queue_ s));
      v ← deref p;                    (* *queue_.front() *)
      put (Make (pop_front (queue_ s)));;
      ret (true, v)).

Definition TryPop : M t (shared_ptr T) :=
  lock_guard mu_ (
    s ← get;
    if empty (queue_ s) then ret None
    else
      res ← deref (front (queue_ s));
      put (Make (pop_front (queue_ s)));;
      ret res).
End Methods.
Arguments t : clear implicits.
End SimpleLockedQueue.

(** ** base/locked_queue.h *)

Module LockedQueue.
Section Methods.
Context {T : Type}.

(** [struct Node]; [std::unique_ptr<Node>] and [Node*] are addresses in
    the node store, [None] for null. *)
Record Node := MkNode { data_ : shared_ptr T; next_ : option nat }.

Record t := Make {
  nodes : gmap nat Node;      (* the Node objects alive on the heap *)
  head_ : option nat;         (* std::unique_ptr<Node> head_ *)
  tail_ : option nat          (* Node* tail_ *)
}.

Definition set_nodes (h : gmap nat Node) (q : t) := Make h (head_ q) (tail_ q).
Definition set_head (p : option nat) (q : t) := Make (nodes q) p (tail_ q).
Definition set_tail (p : option nat) (q : t) := Make (nodes q) (head_ q) p.

(** [p->...]: null and dangling pointers are undefined behaviour. *)
Definition load (p : option nat) : M t Node :=
  a ← deref p; q ← get; deref (nodes q !! a).

Definition store (p : option nat) (n : Node) : M t unit :=
  a ← deref p; q ← get; deref (nodes q !! a);;
  put (set_nodes (<[a := n]> (nodes q)) q).

(** [new Node]: a node with null [data_] and [next_] at an unused address. *)
Definition new_Node : M t (option nat) :=
  alloc;;
  q ← get;
  let a := fresh (dom (nodes q)) in
  put (set_nodes (<[a := MkNode None None]> (nodes q)) q);;
  ret (Some a).

(** [~unique_ptr<Node>]: deletes the node, whose destructor deletes the
    node its [next_] owns, and so on. *)
Fixpoint delete_chain (fuel : nat) (h : gmap nat Node) (p : option nat)
    : gmap nat Node :=
  match fuel, p with
  | S fuel', Some a =>
      match h !! a with
      | Some n => delete a (delete_chain fuel' h (next_ n))
      | None => h
      end
  | _, _ => h
  end.

Definition destroy (p : option nat) : M t unit :=
  match p with
  | None => ret tt
  | Some a =>
      load p;;
      modify (λ q, set_nodes (delete_chain (size (nodes q)) (nodes q) p) q)
  end.

(** The object before its constructor has run. *)
Definition raw : t := Make ∅ None None.

(** [LockedQueue() : head_(new Node), tail_(head_.get())] *)
Definition LockedQueue : M t unit :=
  p ← new_Node;
  modify (set_head p);;
  q ← get; modify (set_tail (head_ q)).

Definition GetTail : M t (option nat) :=
  lock_guard tail_mu_ (q ← get; ret (tail_ q)).

Definition Empty : M t bool :=
  lock_guard head_mu_ (
    q ← get; tl ← GetTail;
    ret (bool_decide (head_ q = tl))).

Definition PopHead : M t (option nat) :=
  q ← get;
  let old_head := head_ q in
  modify (set_head None);;            (* old_head = std::move(head_) *)
  n ← load old_head;
  store old_head (MkNode (data_ n) None);;
  modify (set_head (next_ n));;       (* head_ = std::move(old_head->next_) *)
  ret old_head.

Definition WaitForData : M t unit :=
  emit (EvLock head_mu_);;
  cv_wait (q ← get; tl ← GetTail; ret (negb (bool_decide (head_ q = tl)))).

Definition WaitPopHead : M t (option nat) :=
  WaitForData;;
  finally PopHead (emit (EvUnlock head_mu_)).

Definition WaitPopHead_to (value : T) : M t (option nat * T) :=
  WaitForData;;
  finally (
    q ← get; n ← load (head_ q);
    v ← deref (data_ n);              (* *value = std::move( *head_->data_ ) *)
    p ← PopHead;
    ret (p, v))
  (emit (EvUnlock head_mu_)).

Definition TryPopHead : M t (option nat) :=
  lock_guard head_mu_ (
    q ← get; tl ← GetTail;
    if bool_decide (head_ q = tl) then ret None
    else PopHead).

Definition TryPopHead_to (value : T) : M t (option nat * T) :=
  lock_guard head_mu_ (
    q ← get; tl ← GetTail;
    if bool_decide (head_ q = tl) then ret (None, value)
    else
      n ← load (head_ q);
      v ← deref (data_ n);            (* *value = std::move( *head_->data_ ) *)
      p ← PopHead;
      ret (p, v)).

Definition TryPop : M t (shared_ptr T) :=
  old_head ← TryPopHead;
  match old_head with
  | Some _ => n ← load old_head; destroy old_head;; ret (data_ n)
  | None => ret None
  end.

Definition TryPop_to (value : T) : M t (bool * T) :=
  r ← TryPopHead_to value;
  destroy r.1;;
  ret (bool_decide (r.1 ≠ None), r.2).

Definition WaitAndPop : M t (shared_ptr T) :=
  old_head ← WaitPopHead;
  n ← load old_head;
  destroy old_head;;
  ret (data_ n).

Definition WaitAndPop_to (value : T) : M t T :=
  r ← WaitPopHead_to value;
  destroy r.1;;
  ret r.2.

Definition Push (value : T) : M t unit :=
  alloc;;                             (* std::make_shared<T>(std::move(value)) *)
  let data := Some value in
  p ← new_Node;
  lock_guard tail_mu_ (
    q ← get;
    n ← load (tail_ q);
    store (tail_ q) (MkNode data (next_ n));;   (* tail_->data_ = data *)
    let new_tail := p in
    store (tail_ q) (MkNode data p);;           (* tail_->next_ = std::move(p) *)
    modify (set_tail new_tail));;
  emit EvNotifyOne.
End Methods.
Arguments t : clear implicits.
Arguments Node : clear implicits.
End LockedQueue.

(** ** base/thread_pool.h *)

(** [FunctionWrapper]: a move-only box around one callable.  The callables
    the pool boxes are [std::packaged_task<result_t()>] objects: a function
    and the identity of the shared state its future reads. *)
Module FunctionWrapper.
Section Methods.
Context {R : Type}.

Record packaged_task := Task { state_ : nat; f_ : unit → R }.

(** [std::unique_ptr<ImplBase> impl_], null when default-constructed. *)
Record t := Make { impl_ : option packaged_task }.

(** [FunctionWrapper() = default] *)
Definition FunctionWrapper : t := Make None.

(** [FunctionWrapper(F&& f) : impl_(std::make_unique<ImplType>(std::move(f)))] *)
Definition FunctionWrapper_from {St} (f : packaged_task) : M St t :=
  alloc;; ret (Make (Some f)).
End Methods.
Arguments t : clear implicits.
Arguments packaged_task : clear implicits.
End FunctionWrapper.

Module WorkStealingQueue.
Section Methods.
Context {R : Type}.
Abbreviation data_type := (FunctionWrapper.t R).

Record t := Make { q_ : list data_type }.

(** [WorkStealingQueue() {}] *)
Definition WorkStealingQueue : t := Make [].

Definition Push (data : data_type) : M t unit :=
  lock_guard mu_ (modify (λ s, Make (push_front data (q_ s)))).

Definition TryPop (value : data_type) : M t (bool * data_type) :=
  lock_guard mu_ (
    s ← get;
    if empty (q_ s) then ret (false, value)
    else
      v ← deref (front (q_ s));       (* *value = std::move(q_.front()) *)
      put (Make (pop_front (q_ s)));;
      ret (true, v)).

Definition TrySteal (value : data_type) : M t (bool * data_type) :=
  lock_guard mu_ (
    s ← get;
    if empty (q_ s) then ret (false, value)
    else
      v ← deref (back (q_ s));        (* *value = std::move(q_.back()) *)
      put (Make (pop_back (q_ s)));;
      ret (true, v)).

Definition Empty : M t bool :=
  lock_guard mu_ (s ← get; ret (empty (q_ s))).
End Methods.
Arguments t : clear implicits.
End WorkStealingQueue.

(** A member function of a member object, run from the enclosing object:
    [zoom] for a plain sub-object, [within] for one whose events are
    reported under its name. *)
Definition zoom {St Sub A} (proj : St → Sub) (upd : Sub → St → St)
    (m : M Sub A) : M St A :=
  λ s w, let '(r, sub, w') := m (proj s) w in (r, upd sub s, w').

Definition catch_rethrow {St A} (m : M St A) (handler : M St unit) : M St A :=
  λ s w,
    match m s w with
    | (Throw, s', w') => bind handler (λ _, throw) s' w'
    | r => r
    end.

(** [for (i = ...; ...; i++) body(i)] over the values [ix] of [i]. *)
Fixpoint for_each {St} (ix : list nat) (body : nat → M St unit) : M St unit :=
  match ix with
  | [] => ret tt
  | i :: rest => body i;; for_each rest body
  end.

(** [std::thread]: the worker index it was started with, whether the call to
    [Worker] has returned, and whether it can still be joined. *)
Record thread := Thread { index : nat; finished : bool; joinable : bool }.

Module JoinThreads.
(** [threads_[i].join()]: returns once the thread has finished. *)
Definition join (i : nat) : M (list thread) unit :=
  ts ← get; th ← deref (ts !! i);
  if finished th
  then emit (EvJoin i);; put (<[i := Thread (index th) true false]> ts)
  else blocks.

(** [~JoinThreads()] *)
Definition destructor : M (list thread) unit :=
  ts ← get;
  for_each (seq 0 (length ts)) (λ i,
    ts ← get; th ← deref (ts !! i);
    if joinable th then join i else ret tt).
End JoinThreads.

Module ThreadPool.
Section Methods.
Context {R : Type}.
Abbreviation task_t := (FunctionWrapper.t R).

Record t := Make {
  done_ : bool;                                        (* std::atomic_bool *)
  global_task_queue_ : LockedQueue.t task_t;
  local_task_queues_ : list (WorkStealingQueue.t R);
  threads_ : list thread;
  (* the shared states of the futures handed out, [None] until ready *)
  shared_states : gmap nat (option R)
}.

(** The [static thread_local] members, one copy per calling thread. *)
Record thread_local := TLS {
  local_task_queue_ : option nat;   (* WorkStealingQueue*: an index into local_task_queues_ *)
  my_index_ : N                     (* unsigned *)
}.

(** A thread that is not a worker sees them zero-initialised. *)
Definition external : thread_local := TLS None 0.

Definition set_done (b : bool) (p : t) :=
  Make b (global_task_queue_ p) (local_task_queues_ p) (threads_ p) (shared_states p).
Definition set_global (g : LockedQueue.t task_t) (p : t) :=
  Make (done_ p) g (local_task_queues_ p) (threads_ p) (shared_states p).
Definition set_locals (l : list (WorkStealingQueue.t R)) (p : t) :=
  Make (done_ p) (global_task_queue_ p) l (threads_ p) (shared_states p).
Definition set_threads (ts : list thread) (p : t) :=
  Make (done_ p) (global_task_queue_ p) (local_task_queues_ p) ts (shared_states p).
Definition set_shared_states (f : gmap nat (option R)) (p : t) :=
  Make (done_ p) (global_task_queue_ p) (local_task_queues_ p) (threads_ p) f.

Definition within_global {A} (m : M (LockedQueue.t task_t) A) : M t A :=
  within Global global_task_queue_ set_global m.

(** [local_task_queues_[i]->...]; an index out of range is a wild pointer. *)
Definition within_local {A} (i : nat) (m : M (WorkStealingQueue.t R) A) : M t A :=
  p ← get;
  q ← deref (local_task_queues_ p !! i);
  within (Local i) (λ _, q) (λ q' p, set_locals (<[i := q']> (local_task_queues_ p)) p) m.

(** The object before its constructor has run. *)
Definition raw : t := Make false LockedQueue.raw [] [] ∅.

(** [ThreadPool() : done_(false), joiner_(threads_)]; the members are
    initialised in declaration order, [global_task_queue_] by its default
    constructor. *)
Definition ThreadPool (hardware_concurrency : N) : M t unit :=
  modify (set_done false);;
  within_global LockedQueue.LockedQueue;;
  let thread_count := hardware_concurrency in
  catch_rethrow (
    for_each (seq 0 (N.to_nat thread_count)) (λ i,
      alloc;;                         (* std::make_unique<WorkStealingQueue>() *)
      modify (λ p, set_locals
        (push_back WorkStealingQueue.WorkStealingQueue (local_task_queues_ p)) p));;
    for_each (seq 0 (N.to_nat thread_count)) (λ i,
      alloc;;                         (* std::thread(&ThreadPool::Worker, this, i) *)
      emit (EvSpawn i);;
      modify (λ p, set_threads (push_back (Thread i false true) (threads_ p)) p)))
  (emit (EvStoreDone true);; modify (set_done true)).

(** [~ThreadPool() { done_ = true; }], then the destructor of [joiner_],
    the member declared last. *)
Definition destructor : M t unit :=
  emit (EvStoreDone true);; modify (set_done true);;
  zoom threads_ set_threads JoinThreads.destructor.

(** [Submit(F f)]; the [std::future] is named by its shared state. *)
Definition Submit (me : thread_local) (f : unit → R) : M t nat :=
  alloc;;                             (* std::packaged_task<result_t()> task(std::move(f)) *)
  p ← get;
  let sid := fresh (dom (shared_states p)) in
  modify (set_shared_states (<[sid := None]> (shared_states p)));;
  let task := FunctionWrapper.Task sid f in
  let res := sid in                   (* task.get_future() *)
  match local_task_queue_ me with
  | Some i =>
      w ← FunctionWrapper.FunctionWrapper_from task;
      within_local i (WorkStealingQueue.Push w)
  | None =>
      w ← FunctionWrapper.FunctionWrapper_from task;
      within_global (LockedQueue.Push w)
  end;;
  ret res.

(** [task()]: [impl_->Call()] runs the packaged task, which makes its
    shared state ready. *)
Definition call (task : task_t) : M t unit :=
  pt ← deref (FunctionWrapper.impl_ task);
  emit (EvCall (FunctionWrapper.state_ pt));;
  modify (λ p, set_shared_states
    (<[FunctionWrapper.state_ pt := Some (FunctionWrapper.f_ pt tt)]> (shared_states p)) p).

Definition PopTaskFromLocalQueue (me : thread_local) (task : task_t)
    : M t (bool * task_t) :=
  match local_task_queue_ me with
  | Some i => within_local i (WorkStealingQueue.TryPop task)
  | None => ret (false, task)
  end.

Definition PopTaskFromGlobalQueue (task : task_t) : M t (bool * task_t) :=
  within_global (LockedQueue.TryPop_to task).

(** [(my_index_ + 1 + i) % local_task_queues_.size()]: the sum is
    [unsigned], the remainder is taken in [size_t]. *)
Definition steal_index (my_index i size : N) : N :=
  (((my_index + 1 + i) mod 2 ^ 32) mod size)%N.

Fixpoint steal_loop (me : thread_local) (ix : list nat) (task : task_t)
    : M t (bool * task_t) :=
  match ix with
  | [] => ret (false, task)
  | i :: rest =>
      p ← get;
      let index := steal_index (my_index_ me) (N.of_nat i)
                     (N.of_nat (length (local_task_queues_ p))) in
      '(found, task) ← within_local (N.to_nat index) (WorkStealingQueue.TrySteal task);
      if found : bool then ret (true, task) else steal_loop me rest task
  end.

Definition PopTaskFromOtherThreadQueue (me : thread_local) (task : task_t)
    : M t (bool * task_t) :=
  p ← get;
  steal_loop me (seq 0 (length (local_task_queues_ p))) task.

Definition RunPendingTask (me : thread_local) : M t unit :=
  let task := FunctionWrapper.FunctionWrapper in
  '(found, task) ← PopTaskFromLocalQueue me task;
  '(found, task) ← (if found : bool then ret (true, task)
                    else PopTaskFromGlobalQueue task);
  '(found, task) ← (if found : bool then ret (true, task)
                    else PopTaskFromOtherThreadQueue me task);
  if found : bool then call task else emit EvYield.

(** [Worker(unsigned index)]: the two assignments, ... *)
Definition Worker_enter (index : N) : M t thread_local :=
  p ← get;
  deref (local_task_queues_ p !! N.to_nat index);;
  ret (TLS (Some (N.to_nat index)) index).

(** ... one turn of [while (!done_) { RunPendingTask(); }], which answers
    whether the loop goes on, ... *)
Definition Worker_iteration (me : thread_local) : M t bool :=
  p ← get;
  emit (EvLoadDone (done_ p));;
  if done_ p then ret false else RunPendingTask me;; ret true.

(** ... and the loop, cut off after [fuel] turns; it answers whether
    [Worker] has returned. *)
Fixpoint Worker_loop (fuel : nat) (me : thread_local) : M t bool :=
  match fuel with
  | O => ret false
  | S fuel' =>
      again ← Worker_iteration me;
      if again : bool then Worker_loop fuel' me else ret true
  end.

Definition Worker (fuel : nat) (index : N) : M t bool :=
  me ← Worker_enter index;
  Worker_loop fuel me.
End Methods.
Arguments t : clear implicits.
End ThreadPool.

(** ** base/thread_safe_queue.h *)

(** The abstract class [ThreadSafeQueue<T>].  The overloads that write
    through a [T*] take the old content of that object and return the new one
    (suffix [_to]).  [SimpleLockedQueue1], [SimpleLockedQueue] and
    [LockedQueue] derive from it; the two templates of
    simple_thread_safe_queue.h have the same six members. *)
Module Abstract.
Class ThreadSafeQueue (Q T : Type) := {
  Empty : M Q bool;
  Push : T → M Q unit;
  WaitAndPop_to : T → M Q T;
  WaitAndPop : M Q (shared_ptr T);
  TryPop_to : T → M Q (bool * T);
  TryPop : M Q (shared_ptr T)
}.

(** The default constructor, run on the raw object. *)
Class Constructible (Q : Type) := { raw : Q; construct : M Q unit }.
End Abstract.

Global Instance ThreadSafeQueue1_queue {T} :
    Abstract.ThreadSafeQueue (ThreadSafeQueue1.t T) T := {|
  Abstract.Empty := ThreadSafeQueue1.Empty;
  Abstract.Push := ThreadSafeQueue1.Push;
  Abstract.WaitAndPop_to := ThreadSafeQueue1.WaitAndPop_to;
  Abstract.WaitAndPop := ThreadSafeQueue1.WaitAndPop;
  Abstract.TryPop_to := ThreadSafeQueue1.TryPop_to;
  Abstract.TryPop := ThreadSafeQueue1.TryPop |}.
Global Instance ThreadSafeQueue1_new {T} :
    Abstract.Constructible (ThreadSafeQueue1.t T) :=
  {| Abstract.raw := ThreadSafeQueue1.Make []; Abstract.construct := ret tt |}.

Global Instance ThreadSafeQueue_queue {T} :
    Abstract.ThreadSafeQueue (ThreadSafeQueue.t T) T := {|
  Abstract.Empty := ThreadSafeQueue.Empty;
  Abstract.Push := ThreadSafeQueue.Push;
  Abstract.WaitAndPop_to := ThreadSafeQueue.WaitAndPop_to;
  Abstract.WaitAndPop := ThreadSafeQueue.WaitAndPop;
  Abstract.TryPop_to := ThreadSafeQueue.TryPop_to;
  Abstract.TryPop := ThreadSafeQueue.TryPop |}.
Global Instance ThreadSafeQueue_new {T} :
    Abstract.Constructible (ThreadSafeQueue.t T) :=
  {| Abstract.raw := ThreadSafeQueue.Make []; Abstract.construct := ret tt |}.

Global Instance SimpleLockedQueue1_queue {T} :
    Abstract.ThreadSafeQueue (SimpleLockedQueue1.t T) T := {|
  Abstract.Empty := SimpleLockedQueue1.Empty;
  Abstract.Push := SimpleLockedQueue1.Push;
  Abstract.WaitAndPop_to := SimpleLockedQueue1.WaitAndPop_to;
  Abstract.WaitAndPop := SimpleLockedQueue1.WaitAndPop;
  Abstract.TryPop_to := SimpleLockedQueue1.TryPop_to;
  Abstract.TryPop := SimpleLockedQueue1.TryPop |}.
Global Instance SimpleLockedQueue1_new {T} :
    Abstract.Constructible (SimpleLockedQueue1.t T) :=
  {| Abstract.raw := SimpleLockedQueue1.Make []; Abstract.construct := ret tt |}.

Global Instance SimpleLockedQueue_queue {T} :
    Abstract.ThreadSafeQueue (SimpleLockedQueue.t T) T := {|
  Abstract.Empty := SimpleLockedQueue.Empty;
  Abstract.Push := SimpleLockedQueue.Push;
  Abstract.WaitAndPop_to := SimpleLockedQueue.WaitAndPop_to;
  Abstract.WaitAndPop := SimpleLockedQueue.WaitAndPop;
  Abstract.TryPop_to := SimpleLockedQueue.TryPop_to;
  Abstract.TryPop := SimpleLockedQueue.TryPop |}.
Global Instance SimpleLockedQueue_new {T} :
    Abstract.Constructible (SimpleLockedQueue.t T) :=
  {| Abstract.raw := SimpleLockedQueue.Make []; Abstract.construct := ret tt |}.

Global Instance LockedQueue_queue {T} :
    Abstract.ThreadSafeQueue (LockedQueue.t T) T := {|
  Abstract.Empty := LockedQueue.Empty;
  Abstract.Push := LockedQueue.Push;
  Abstract.WaitAndPop_to := LockedQueue.WaitAndPop_to;
  Abstract.WaitAndPop := LockedQueue.WaitAndPop;
  Abstract.TryPop_to := LockedQueue.TryPop_to;
  Abstract.TryPop := LockedQueue.TryPop |}.
Global Instance LockedQueue_new {T} : Abstract.Constructible (LockedQueue.t T) :=
  {| Abstract.raw := LockedQueue.raw; Abstract.construct := LockedQueue.LockedQueue |}.

(** ** Histories of a queue

    The calls threads make on one queue, in the single global order in which
    they take effect.  Each call is one step; a call that throws or parks
    leaves the queue to the calls after it. *)
Module History.
Section History.
Context {T : Type}.

Inductive call :=
| Push (v : T)
| WaitAndPop_to (value : T)
| WaitAndPop
| TryPop_to (value : T)
| TryPop
| Empty.

(** What a call hands back to its caller. *)
Inductive reply :=
| Done                          (* void *)
| Value (v : T)                 (* the object behind the T* afterwards *)
| Pointer (p : shared_ptr T)
| Flag (b : bool) (value : T)   (* the bool and the object behind the T* *)
| Bool (b : bool).

Definition perform {Q} `{!Abstract.ThreadSafeQueue Q T} (c : call) : M Q reply :=
  match c with
  | Push v => Abstract.Push v;; ret Done
  | WaitAndPop_to value => v ← Abstract.WaitAndPop_to value; ret (Value v)
  | WaitAndPop => p ← Abstract.WaitAndPop; ret (Pointer p)
  | TryPop_to value => r ← Abstract.TryPop_to value; ret (Flag r.1 r.2)
  | TryPop => p ← Abstract.TryPop; ret (Pointer p)
  | Empty => b ← Abstract.Empty; ret (Bool b)
  end.

Fixpoint play {Q} `{!Abstract.ThreadSafeQueue Q T} (cs : list call) (q : Q) (w : env)
    : list (outcome reply) * Q * env :=
  match cs with
  | [] => ([], q, w)
  | c :: cs' =>
      let '(r, q', w') := perform c q w in
      let '(rs, q'', w'') := play cs' q' w' in
      (r :: rs, q'', w'')
  end.

(** The history [cs] on a freshly constructed queue, with [b] allocations
    available; no reply at all when the constructor throws. *)
Definition replies Q `{!Abstract.ThreadSafeQueue Q T} `{!Abstract.Constructible Q}
    (cs : list call) (b : nat) : list (outcome reply) :=
  match Abstract.construct Abstract.raw (Env b []) with
  | (Ok _, q, w) => (play cs q w).1.1
  | _ => []
  end.

Definition reached Q `{!Abstract.ThreadSafeQueue Q T} `{!Abstract.Constructible Q}
    (cs : list call) (b : nat) : option Q :=
  match Abstract.construct Abstract.raw (Env b []) with
  | (Ok _, q, w) => Some (play cs q w).1.2
  | _ => None
  end.

Definition is_pop (c : call) : bool :=
  match c with
  | WaitAndPop_to _ | WaitAndPop | TryPop_to _ | TryPop => true
  | Push _ | Empty => false
  end.

Definition is_push (c : call) : bool :=
  match c with Push _ => true | _ => false end.

(** How many pops a history holds. *)
Fixpoint pops (cs : list call) : nat :=
  match cs with
  | [] => 0
  | c :: cs' => (if is_pop c then 1 else 0) + pops cs'
  end.

(** The value a call put into the queue ... *)
Definition pushed (c : call) : option T :=
  match c with Push v => Some v | _ => None end.

(** ... and the value a reply took out of it. *)
Definition delivered (r : outcome reply) : option T :=
  match r with
  | Ok (Value v) | Ok (Pointer (Some v)) | Ok (Flag true v) => Some v
  | _ => None
  end.


(** The queue of the specification: a sequence; [push] adds at the back,
    every pop takes from the front, a blocking pop waits while it is
    empty and a non-blocking one reports no value. *)
Definition fifo (c : call) (vs : list T) : outcome reply * list T :=
  match c, vs with
  | Push v, _ => (Ok Done, vs ++ [v])
  | WaitAndPop_to _, v :: vs' => (Ok (Value v), vs')
  | WaitAndPop_to _, [] => (Blocks, [])
  | WaitAndPop, v :: vs' => (Ok (Pointer (Some v)), vs')
  | WaitAndPop, [] => (Blocks, [])
  | TryPop_to _, v :: vs' => (Ok (Flag true v), vs')
  | TryPop_to value, [] => (Ok (Flag false value), [])
  | TryPop, v :: vs' => (Ok (Pointer (Some v)), vs')
  | TryPop, [] => (Ok (Pointer None), [])
  | Empty, _ => (Ok (Bool (empty vs)), vs)
  end.

Fixpoint fifo_play (cs : list call) (vs : list T) : list (outcome reply) * list T :=
  match cs with
  | [] => ([], vs)
  | c :: cs' =>
      let '(r, vs') := fifo c vs in
      let '(rs, vs'') := fifo_play cs' vs' in
      (r :: rs, vs'')
  end.

(** The content of the queue as the history itself tells it: a push that
    returned added its value, a pop that delivered took the oldest. *)
Definition logical_step (vs : list T) (c : call) (r : outcome reply) : list T :=
  match c, r with
  | Push v, Ok _ => vs ++ [v]
  | _, _ => match delivered r with Some _ => tail vs | None => vs end
  end.

Fixpoint logical (vs : list T) (cs : list call) (rs : list (outcome reply)) : list T :=
  match cs, rs with
  | c :: cs', r :: rs' => logical (logical_step vs c r) cs' rs'
  | _, _ => vs
  end.
End History.
Arguments call : clear implicits.
Arguments reply : clear implicits.
End History.

(** ** A queue against the sequence *)

Module Refinement.
Import History.
Section Refinement.
Context {T : Type}.
Implicit Types (vs : list T).

(** One call of the implementation answers as the sequence does, on every
    state that stands for a sequence; a push is given [cost] allocations,
    the other calls need no memory for that. *)
Definition simulates {Q} `{!Abstract.ThreadSafeQueue Q T}
    (rep : Q → list T → Prop) (cost : nat) : Prop :=
  ∀ c q w vs, rep q vs → (is_push c = true → cost ≤ budget w) →
    ∃ q' w', perform c q w = ((fifo c vs).1, q', w') ∧
             rep q' (fifo c vs).2 ∧ budget w ≤ budget w' + cost.

(** One call keeps the state in step with the content the history tells,
    and does not crash. *)
Definition tracks {Q} `{!Abstract.ThreadSafeQueue Q T} (rep : Q → list T → Prop) : Prop :=
  ∀ c q w vs, rep q vs →
    ∃ r q' w', perform c q w = (r, q', w') ∧ r ≠ Fault ∧
               rep q' (logical_step vs c r).

(** A single-lock queue stands for the sequence of the values its
    pointers point to. *)
Definition holds_TSQ (q : ThreadSafeQueue.t T) vs : Prop :=
  ThreadSafeQueue.queue_ q = Some <$> vs.
Definition holds_SLQ (q : SimpleLockedQueue.t T) vs : Prop :=
  SimpleLockedQueue.queue_ q = Some <$> vs.
End Refinement.
End Refinement.

(** ** The node chain of a [LockedQueue] *)

Module Chain.
Import LockedQueue.
Section Chain.
Context {T : Type}.
Implicit Types (h : gmap nat (Node T)) (q : LockedQueue.t T) (vs : list T).

(** From the node at [a] the [next_] pointers run through the nodes at
    [bs]; the nodes before the last carry the values [vs], in order, and the
    last one is the dummy: no data, no successor. *)
Fixpoint linked h (a : nat) vs (bs : list nat) : Prop :=
  match vs, bs with
  | [], [] => h !! a = Some (MkNode None None)
  | v :: vs', b :: bs' =>
      h !! a = Some (MkNode (Some v) (Some b)) ∧ linked h b vs' bs'
  | _, _ => False
  end.

(** The queue holds exactly [vs]: [head_] owns a chain of distinct nodes
    that carries [vs] and ends in the dummy [tail_] points to, and no other
    node is alive. *)
Definition represents q vs : Prop :=
  ∃ a bs,
    head_ q = Some a ∧ tail_ q = last (a :: bs) ∧
    NoDup (a :: bs) ∧ linked (nodes q) a vs bs ∧
    dom (nodes q) = list_to_set (a :: bs).

(** What a pop leaves of a queue whose first node [a] carries [v] and
    links to [b]. *)
Definition popped q (a b : nat) (v : T) : LockedQueue.t T :=
  Make (delete a (<[a := MkNode (Some v) None]> (nodes q))) (Some b) (tail_ q).
End Chain.
End Chain.

(** The events of the calls on a [LockedQueue]. *)
Definition pop_events : list event :=
  [EvLock head_mu_; EvLock tail_mu_; EvUnlock tail_mu_; EvUnlock head_mu_].
Definition wait_events : list event :=
  [EvLock head_mu_; EvLock tail_mu_; EvUnlock tail_mu_; EvWait].
Definition push_events : list event :=
  [EvAlloc; EvAlloc; EvLock tail_mu_; EvUnlock tail_mu_; EvNotifyOne].

(** The environment [w] after [es] more events, with [b] allocations left. *)
Definition logged (w : env) (b : nat) (es : list event) : env :=
  Env b (trace w ++ es).

(** ** Properties of steps *)

(** [n] calls in a row by one thread. *)
Fixpoint times {St A} (n : nat) (m : M St A) : M St (list A) :=
  match n with
  | O => ret []
  | S n' => x ← m; xs ← times n' m; ret (x :: xs)
  end.

(** Events by kind, also inside member objects. *)
Fixpoint parks (e : event) : bool :=
  match e with EvWait => true | EvIn _ e' => parks e' | _ => false end.


(** On a queue its own [Empty] calls empty, [try_pop] answers [no_value]
    however often it is called: it returns every time, without parking,
    and leaves the queue and the memory as they were. *)
Definition idle_on_empty {Q A} (Empty : M Q bool) (try_pop : M Q A) (no_value : A)
    : Prop :=
  ∀ q w n, result (Empty q w) = Ok true →
    ∃ es, times n try_pop q w = (Ok (replicate n no_value), q, logged w (budget w) es) ∧
          forallb (λ e, negb (parks e)) es = true.

(** A pop through a [T*] that answers [false] has left the object behind
    the pointer as it was. *)
Definition untouched_on_false {Q T} (try_pop_to : T → M Q (bool * T)) : Prop :=
  ∀ q w value v', result (try_pop_to value q w) = Ok (false, v') → v' = value.


(** ** The pool: its invariant and what a call shows *)

Module Pool.
Import ThreadPool.
Section Pool.
Context {R : Type}.
Implicit Types (p : ThreadPool.t R) (task : FunctionWrapper.t R).

(** A wrapper that holds a callable. *)
Definition loaded task : Prop := is_Some (FunctionWrapper.impl_ task).

(** The global queue is a well-formed chain, and every wrapper waiting in a
    queue holds a callable. *)
Definition inv p : Prop :=
  (∃ ts, Chain.represents (global_task_queue_ p) ts ∧ Forall loaded ts) ∧
  Forall (λ q, Forall loaded (WorkStealingQueue.q_ q)) (local_task_queues_ p).

(** The thread-local members as [Worker(k)] sets them. *)
Definition worker (k : nat) : thread_local := TLS (Some k) (N.of_nat k).

Definition source_empty p (o : member) : Prop :=
  match o with
  | Global => Chain.represents (global_task_queue_ p) []
  | Local i => local_task_queues_ p !! i = Some (WorkStealingQueue.Make [])
  end.

(** The queues a step went to for a task, in the order of the visits: each
    visit starts by locking the queue ([mu_] of a deque, [head_mu_] of the
    global queue). *)
Definition attempt (e : event) : option member :=
  match e with
  | EvIn o (EvLock mu_) | EvIn o (EvLock head_mu_) => Some o
  | _ => None
  end.
Definition attempts (es : list event) : list member := omap attempt es.

Definition calls (es : list event) : list nat :=
  omap (λ e, match e with EvCall sid => Some sid | _ => None end) es.
Definition yields (es : list event) : nat :=
  length (omap (λ e, match e with EvYield => Some tt | _ => None end) es).
(** The values of [done_] a step has read. *)
Definition polls (es : list event) : list bool :=
  omap (λ e, match e with EvLoadDone b => Some b | _ => None end) es.

(** The threads a run of [~JoinThreads] joins, counted from index [k]; the
    threads after it. *)
Fixpoint joins (k : nat) (ts : list thread) : list nat :=
  match ts with
  | [] => []
  | th :: ts' => (if joinable th then [k] else []) ++ joins (S k) ts'
  end.
Definition joined (th : thread) : thread :=
  if joinable th then Thread (index th) true false else th.

(** The deques [PopTaskFromOtherThreadQueue] visits for worker [k] of [n]:
    all [n] of them, from [k + 1] round to [k] itself. *)
Definition steal_order (k n : nat) : list nat :=
  map (λ i, (k + 1 + i) mod n) (seq 0 n).

(** The siblings of worker [k] only, from [k + 1] round. *)
Definition siblings (k n : nat) : list nat :=
  map (λ i, (k + 1 + i) mod n) (seq 0 (n - 1)).

Definition visit_order (k n : nat) : list member :=
  Local k :: Global :: map Local (steal_order k n).

(** The wrapper a visit to [o] takes: the front of a deque for its owner,
    the back for a thief, the oldest of the global queue. *)
Definition takes p (o : member) (thief : bool) task : Prop :=
  match o with
  | Global => ∃ ts, Chain.represents (global_task_queue_ p) (task :: ts)
  | Local i =>
      ∃ l, local_task_queues_ p !! i =
             Some (WorkStealingQueue.Make (if thief then l ++ [task] else task :: l))
  end.

(** The events of one visit to a queue. *)
Definition visit (o : member) (m : mutex) : list event :=
  [EvIn o (EvLock m); EvIn o (EvUnlock m)].
Definition global_visit : list event := map (EvIn Global) pop_events.

(** The deque the [i]-th turn of the stealing loop goes to. *)
Definition target (me : thread_local) (n i : nat) : nat :=
  N.to_nat (steal_index (my_index_ me) (N.of_nat i) (N.of_nat n)).

Definition steal_visits (me : thread_local) (n : nat) (ix : list nat) : list event :=
  flat_map (λ i, visit (Local (target me n i)) mu_) ix.

(** The shared state [Submit] creates, and the wrapper it boxes [f] in. *)
Definition new_state p : nat := fresh (dom (shared_states p)).
Definition boxed p (f : unit → R) : FunctionWrapper.t R :=
  FunctionWrapper.Make (Some (FunctionWrapper.Task (new_state p) f)).

(** What a new pool holds on a host with [n] hardware threads. *)
Definition new_deques (n : nat) : list (WorkStealingQueue.t R) :=
  replicate n WorkStealingQueue.WorkStealingQueue.
Definition new_threads (ix : list nat) : list thread :=
  map (λ i, Thread i false true) ix.
Definition spawn_events (ix : list nat) : list event :=
  flat_map (λ i, [EvAlloc; EvSpawn i]) ix.
Definition fresh_pool (g : LockedQueue.t (FunctionWrapper.t R)) (n : nat) : ThreadPool.t R :=
  Make false g (new_deques n) (new_threads (seq 0 n)) ∅.

(** What a step leaves alone. *)
Definition same_frame p p' : Prop :=
  done_ p' = done_ p ∧ threads_ p' = threads_ p ∧
  length (local_task_queues_ p') = length (local_task_queues_ p).

(** The pool after the packaged task [pt] has run. *)
Definition ran (pt : FunctionWrapper.packaged_task R) p : ThreadPool.t R :=
  set_shared_states
    (<[FunctionWrapper.state_ pt := Some (FunctionWrapper.f_ pt tt)]> (shared_states p)) p.
End Pool.
End Pool.

(** ** Histories of a pool

    What the threads do to one pool between its construction and its
    destruction, one call after the other; a call that throws leaves the
    pool to the calls after it. *)
Module PoolHistory.
Import ThreadPool.
Section PoolHistory.
Context {R : Type}.

Inductive action :=
| Submits (me : thread_local) (f : unit → R)   (* a thread calls Submit *)
| Runs (me : thread_local)                     (* a thread calls RunPendingTask *)
| Turns (k : nat)                              (* worker k makes a turn of its loop *)
| ShutsDown.                                   (* the body of ~ThreadPool *)

Definition act (a : action) : M (ThreadPool.t R) unit :=
  match a with
  | Submits me f => Submit me f;; ret tt
  | Runs me => RunPendingTask me
  | Turns k => Worker_iteration (Pool.worker k);; ret tt
  | ShutsDown => emit (EvStoreDone true);; modify (set_done true)
  end.

Fixpoint play (l : list action) (p : ThreadPool.t R) (b : nat) : ThreadPool.t R * nat :=
  match l with
  | [] => (p, b)
  | a :: l' => let r := run (act a) p b in play l' (final r) (budget r.2)
  end.

(** Callers that exist: a worker of the pool, with the thread-local
    members [Worker] gave it, or a thread from outside (for [Submit]). *)
Definition caller_ok (n : nat) (a : action) : Prop :=
  match a with
  | Submits me _ => ∀ i, local_task_queue_ me = Some i → i < n
  | Runs me => ∃ k, me = Pool.worker k ∧ k < n
  | Turns k => k < n
  | ShutsDown => True
  end.
End PoolHistory.
Arguments action : clear implicits.
End PoolHistory.

(** One turn of the loop of [~JoinThreads]. *)
Definition join_body (i : nat) : M (list thread) unit :=
  ts ← get; th ← deref (ts !! i);
  if joinable th then JoinThreads.join i else ret tt.

(** A pool to try things on: two workers, nothing queued. *)
Definition demo_pool : ThreadPool.t nat :=
  final (run (ThreadPool.ThreadPool 2) ThreadPool.raw 5).

(** ** [LockedQueue], statement by statement

    Any number of threads call [Push], [TryPop], [WaitAndPop] and [Empty]
    on one queue; a scheduler picks who runs the next statement.  A thread
    that needs a mutex another thread holds cannot move.  [cv_.wait] may wake
    at any time, as the standard allows.  The pops are the ones that return
    a [shared_ptr]. *)
Module FineGrained.
Import LockedQueue.
Section Model.
Context {T : Type}.

(** The three member functions that start by locking [head_mu_]. *)
Inductive kind := KTryPop | KWaitAndPop | KEmpty.

Inductive call := CPush (v : T) | CPop (k : kind).

(** What a call returns: nothing, a [shared_ptr<T>], a [bool]. *)
Inductive reply := RDone | RPtr (p : option T) | RBool (b : bool).

(** Where a thread stands: the statement it runs next, with its locals. *)
Inductive pc :=
| Idle
| Push1 (data : T) (p : nat)         (* std::lock_guard tail_lg(tail_mu_) *)
| Push2 (data : T) (p : nat)         (* tail_->data_ = data *)
| Push3 (data : T) (p : nat)         (* new_tail = p.get(); tail_->next_ = std::move(p) *)
| Push4 (data : T) (p : nat)         (* tail_ = new_tail *)
| Push5 (data : T)                   (* ~lock_guard: unlock tail_mu_ *)
| Push6 (data : T)                   (* cv_.notify_one() *)
| Pop1 (k : kind)                    (* lock head_mu_ *)
| Pop2 (k : kind)                    (* GetTail: lock tail_mu_ *)
| Pop3 (k : kind)                    (* GetTail: read tail_ *)
| Pop4 (k : kind) (tl : option nat)  (* GetTail: unlock tail_mu_ *)
| Pop5 (k : kind) (tl : option nat)  (* head_.get() == tl ? *)
| Pop6 (k : kind)                    (* old_head = std::move(head_) *)
| Pop7 (k : kind) (old_head : option nat)  (* head_ = std::move(old_head->next_) *)
| Pop8 (k : kind) (old_head : nat)   (* unlock head_mu_ *)
| Pop9 (k : kind) (old_head : nat)   (* return old_head->data_; ~unique_ptr *)
| Unlock (k : kind) (r : reply)      (* unlock head_mu_; return r *)
| Parked.                            (* inside cv_.wait, head_mu_ released *)

Record thread := Thread {
  at_ : pc;
  remaining : list call;             (* the calls it still has to make *)
  hist : list (call * reply)         (* the calls it has completed *)
}.

Record sys := Sys {
  queue : LockedQueue.t T;
  head_owner : option nat;           (* who holds head_mu_ *)
  tail_owner : option nat;           (* who holds tail_mu_ *)
  threads : list thread;
  (* In the order in which they took effect: the values linked in,
     with the thread that pushed; the payloads unlinked, with the thread
     that popped. *)
  pushed : list (nat * T);
  popped : list (nat * option T)
}.

Inductive next := Steps (s : sys) | Waits | Crashes.

Definition goto (t : nat) (th : thread) (c : pc) (s : sys) : sys :=
  Sys (queue s) (head_owner s) (tail_owner s)
      (<[t := Thread c (remaining th) (hist th)]> (threads s)) (pushed s) (popped s).

Definition returns (t : nat) (th : thread) (c : call) (r : reply) (s : sys) : sys :=
  Sys (queue s) (head_owner s) (tail_owner s)
      (<[t := Thread Idle (remaining th) (hist th ++ [(c, r)])]> (threads s))
      (pushed s) (popped s).

Definition with_queue (q : LockedQueue.t T) (s : sys) : sys :=
  Sys q (head_owner s) (tail_owner s) (threads s) (pushed s) (popped s).
Definition with_head_owner (o : option nat) (s : sys) : sys :=
  Sys (queue s) o (tail_owner s) (threads s) (pushed s) (popped s).
Definition with_tail_owner (o : option nat) (s : sys) : sys :=
  Sys (queue s) (head_owner s) o (threads s) (pushed s) (popped s).
Definition with_pushed (l : list (nat * T)) (s : sys) : sys :=
  Sys (queue s) (head_owner s) (tail_owner s) (threads s) l (popped s).
Definition with_popped (l : list (nat * option T)) (s : sys) : sys :=
  Sys (queue s) (head_owner s) (tail_owner s) (threads s) (pushed s) l.

(** The next statement of thread [t]. *)
Definition step (t : nat) (s : sys) : next :=
  let q := queue s in
  match threads s !! t with
  | None => Waits
  | Some th =>
    match at_ th with
    | Idle =>
        match remaining th with
        | [] => Waits
        | CPush v :: rest =>
            (* data = std::make_shared<T>(...); std::unique_ptr<Node> p(new Node) *)
            let p := fresh (dom (nodes q)) in
            Steps (goto t (Thread Idle rest (hist th)) (Push1 v p)
                     (with_queue (set_nodes (<[p := MkNode None None]> (nodes q)) q) s))
        | CPop k :: rest =>
            Steps (goto t (Thread Idle rest (hist th)) (Pop1 k) s)
        end
    | Push1 d p =>
        match tail_owner s with
        | None => Steps (goto t th (Push2 d p) (with_tail_owner (Some t) s))
        | Some _ => Waits
        end
    | Push2 d p =>
        match tail_ q with
        | Some a =>
            match nodes q !! a with
            | Some n =>
                Steps (goto t th (Push3 d p)
                  (with_queue (set_nodes (<[a := MkNode (Some d) (next_ n)]> (nodes q)) q) s))
            | None => Crashes
            end
        | None => Crashes
        end
    | Push3 d p =>
        match tail_ q with
        | Some a =>
            match nodes q !! a with
            | Some n =>
                Steps (goto t th (Push4 d p)
                  (with_queue (set_nodes (<[a := MkNode (data_ n) (Some p)]> (nodes q)) q) s))
            | None => Crashes
            end
        | None => Crashes
        end
    | Push4 d p =>
        Steps (goto t th (Push5 d)
                 (with_pushed (pushed s ++ [(t, d)]) (with_queue (set_tail (Some p) q) s)))
    | Push5 d => Steps (goto t th (Push6 d) (with_tail_owner None s))
    | Push6 d => Steps (returns t th (CPush d) RDone s)
    | Pop1 k =>
        match head_owner s with
        | None => Steps (goto t th (Pop2 k) (with_head_owner (Some t) s))
        | Some _ => Waits
        end
    | Pop2 k =>
        match tail_owner s with
        | None => Steps (goto t th (Pop3 k) (with_tail_owner (Some t) s))
        | Some _ => Waits
        end
    | Pop3 k => Steps (goto t th (Pop4 k (tail_ q)) s)
    | Pop4 k tl => Steps (goto t th (Pop5 k tl) (with_tail_owner None s))
    | Pop5 k tl =>
        let e := bool_decide (head_ q = tl) in
        match k with
        | KEmpty => Steps (goto t th (Unlock k (RBool e)) s)
        | KTryPop =>
            if e then Steps (goto t th (Unlock k (RPtr None)) s)
            else Steps (goto t th (Pop6 k) s)
        | KWaitAndPop =>
            if e then Steps (goto t th Parked (with_head_owner None s))
            else Steps (goto t th (Pop6 k) s)
        end
    | Pop6 k =>
        Steps (goto t th (Pop7 k (head_ q)) (with_queue (set_head None q) s))
    | Pop7 k old_head =>
        match old_head with
        | Some a =>
            match nodes q !! a with
            | Some n =>
                Steps (goto t th (Pop8 k a)
                  (with_popped (popped s ++ [(t, data_ n)])
                     (with_queue
                        (set_head (next_ n)
                           (set_nodes (<[a := MkNode (data_ n) None]> (nodes q)) q)) s)))
            | None => Crashes
            end
        | None => Crashes
        end
    | Pop8 k a => Steps (goto t th (Pop9 k a) (with_head_owner None s))
    | Pop9 k a =>
        match nodes q !! a with
        | Some n =>
            Steps (returns t th (CPop k) (RPtr (data_ n))
              (with_queue
                 (set_nodes (delete_chain (size (nodes q)) (nodes q) (Some a)) q) s))
        | None => Crashes
        end
    | Unlock k r => Steps (returns t th (CPop k) r (with_head_owner None s))
    | Parked => Steps (goto t th (Pop1 KWaitAndPop) s)
    end
  end.

(** The threads take turns as [schedule] says; a thread that cannot move
    lets its turn pass.  [None]: a thread dereferenced a null or dangling
    pointer. *)
Fixpoint run (schedule : list nat) (s : sys) : option sys :=
  match schedule with
  | [] => Some s
  | t :: rest =>
      match step t s with
      | Steps s' => run rest s'
      | Waits => run rest s
      | Crashes => None
      end
  end.

(** A new queue and threads that have made no call yet. *)
Definition start (programs : list (list call)) : sys :=
  let a := fresh (dom (∅ : gmap nat (Node T))) in
  Sys (Make {[ a := MkNode None None ]} (Some a) (Some a)) None None
      (map (λ remaining, Thread Idle remaining []) programs) [] [].
End Model.
Arguments call : clear implicits.
Arguments reply : clear implicits.
Arguments pc : clear implicits.
Arguments thread : clear implicits.
Arguments sys : clear implicits.
Arguments next : clear implicits.
End FineGrained.

(** ** The invariant of the statement-level model *)

Module FineGrainedInv.
Import LockedQueue FineGrained.
Section Inv.
Context {T : Type}.
Implicit Types (h : gmap nat (Node T)) (s : sys T) (c : pc T) (th : thread T).

(** The chain [head_] owns while a pusher may be at work on its last node:
    as [Chain.linked], but the last node is [tn]. *)
Fixpoint chain h (a : nat) (vs : list T) (bs : list nat) (tn : Node T) : Prop :=
  match vs, bs with
  | [], [] => h !! a = Some tn
  | v :: vs', b :: bs' =>
      h !! a = Some (MkNode (Some v) (Some b)) ∧ chain h b vs' bs' tn
  | _, _ => False
  end.

(** The statements a thread runs holding [head_mu_], and [tail_mu_]. *)
Definition holds_head c : bool :=
  match c with
  | Pop2 _ | Pop3 _ | Pop4 _ _ | Pop5 _ _ | Pop6 _ | Pop7 _ _ | Pop8 _ _
  | Unlock _ _ => true
  | _ => false
  end.

Definition holds_tail c : bool :=
  match c with
  | Push2 _ _ | Push3 _ _ | Push4 _ _ | Push5 _ | Pop3 _ | Pop4 _ _ => true
  | _ => false
  end.

(** The node only this thread has a pointer to: the node [Push] has
    allocated and not yet made the tail, the node [PopHead] has unlinked. *)
Definition private c : option nat :=
  match c with
  | Push1 _ p | Push2 _ p | Push3 _ p | Push4 _ p => Some p
  | Pop8 _ a | Pop9 _ a => Some a
  | _ => None
  end.

(** What the holder of [tail_mu_] has made of the last node so far. *)
Definition tail_node c : Node T :=
  match c with
  | Push3 d _ => MkNode (Some d) None
  | Push4 d p => MkNode (Some d) (Some p)
  | _ => MkNode None None
  end.

(** The call a thread is in. *)
Definition current c : list (call T) :=
  match c with
  | Idle => []
  | Push1 d _ | Push2 d _ | Push3 d _ | Push4 d _ | Push5 d | Push6 d => [CPush d]
  | Pop1 k | Pop2 k | Pop3 k | Pop4 k _ | Pop5 k _ | Pop6 k | Pop7 k _
  | Pop8 k _ | Pop9 k _ | Unlock k _ => [CPop k]
  | Parked => [CPop KWaitAndPop]
  end.

(** The entries of thread [t]. *)
Definition tagged {A} (t : nat) (l : list (nat * A)) : list A :=
  omap (λ x, if decide (x.1 = t) then Some x.2 else None) l.

(** The values a thread has pushed and the values it has received, by the
    calls that have returned. *)
Definition pushes (l : list (call T * reply T)) : list T :=
  omap (λ x, match x.1 with CPush v => Some v | _ => None end) l.

Definition pops (l : list (call T * reply T)) : list T :=
  omap (λ x, match x.2 with RPtr (Some v) => Some v | _ => None end) l.

(** The value linked in, the payload unlinked, by a call that has not
    returned yet. *)
Definition in_flight_push c : list T :=
  match c with Push5 d | Push6 d => [d] | _ => [] end.

Definition in_flight_pop h c : list (option T) :=
  match c with
  | Pop8 _ a | Pop9 _ a => [h !! a ≫= data_]
  | _ => []
  end.

(** What a thread knows at each statement: the new node is still the empty
    node it allocated; the pointer [GetTail] read is on the chain; past the
    comparison the queue is not empty; the unlinked node carries a payload
    and owns no successor. *)
Definition local s (hd : nat) (vs : list T) (bs : list nat) c : Prop :=
  match c with
  | Push1 _ p | Push2 _ p | Push3 _ p | Push4 _ p =>
      nodes (queue s) !! p = Some (MkNode None None)
  | Pop4 _ tl => tl = tail_ (queue s)
  | Pop5 _ tl => ∃ a, tl = Some a ∧ a ∈ hd :: bs
  | Pop6 k | Pop7 k _ => vs ≠ [] ∧ k ≠ KEmpty
  | Pop8 k a | Pop9 k a =>
      (∃ v, nodes (queue s) !! a = Some (MkNode (Some v) None)) ∧ k ≠ KEmpty
  | Unlock k r =>
      match k, r with
      | KEmpty, RBool _ | KTryPop, RPtr None => True
      | _, _ => False
      end
  | _ => True
  end.

(** A reply of the type the call returns; [WaitAndPop] never returns a null
    pointer. *)
Definition well_replied (x : call T * reply T) : Prop :=
  match x with
  | (CPush _, RDone) | (CPop KEmpty, RBool _) | (CPop KTryPop, RPtr _)
  | (CPop KWaitAndPop, RPtr (Some _)) => True
  | _ => False
  end.

Variable programs : list (list (call T)).

(** Thread [t], of a system whose chain runs from [hd] through [bs], carries
    [vs] and ends in [tn]. *)
Record thread_ok s hd vs bs (tn : Node T) (t : nat) th : Prop := {
  ok_head : holds_head (at_ th) = true ↔ head_owner s = Some t;
  ok_tail : holds_tail (at_ th) = true ↔ tail_owner s = Some t;
  ok_head_ : holds_head (at_ th) = true →
    match at_ th with
    | Pop7 _ a => head_ (queue s) = None ∧ a = Some hd
    | _ => head_ (queue s) = Some hd
    end;
  ok_tn : holds_tail (at_ th) = true → tn = tail_node (at_ th);
  ok_private : ∀ x, private (at_ th) = Some x → x ∉ hd :: bs;
  ok_local : local s hd vs bs (at_ th);
  ok_pushed : tagged t (pushed s) = pushes (hist th) ++ in_flight_push (at_ th);
  ok_popped : tagged t (popped s) =
    (Some <$> pops (hist th)) ++ in_flight_pop (nodes (queue s)) (at_ th);
  ok_program : programs !! t = Some ((hist th).*1 ++ current (at_ th) ++ remaining th);
  ok_replies : Forall well_replied (hist th)
}.

(** No two threads have the same private node. *)
Definition distinct (ths : list (thread T)) : Prop :=
  ∀ t t' th th' x, ths !! t = Some th → ths !! t' = Some th' →
    private (at_ th) = Some x → private (at_ th') = Some x → t = t'.

(** The system: [head_] is only null inside [PopHead], under [head_mu_];
    [tail_] is the last node of the chain, which is the dummy unless the
    holder of [tail_mu_] is writing it; the values queued are the values
    linked in less the payloads unlinked. *)
Record inv s hd vs bs tn : Prop := {
  inv_head : head_owner s = None → head_ (queue s) = Some hd;
  inv_tail : tail_ (queue s) = last (hd :: bs);
  inv_tn : tail_owner s = None → tn = MkNode None None;
  inv_nodup : NoDup (hd :: bs);
  inv_chain : chain (nodes (queue s)) hd vs bs tn;
  inv_ghost : Some <$> (pushed s).*2 = (popped s).*2 ++ (Some <$> vs);
  inv_tags : ∀ x, x ∈ pushed s → x.1 < length (threads s);
  inv_tags_popped : ∀ x, x ∈ popped s → x.1 < length (threads s);
  inv_length : length (threads s) = length programs;
  inv_threads : ∀ t th, threads s !! t = Some th → thread_ok s hd vs bs tn t th;
  inv_distinct : distinct (threads s)
}.

Definition Inv s : Prop := ∃ hd vs bs tn, inv s hd vs bs tn.


(** The program of the test [OneProduceOneConsumer]: one thread pushes
    [vs], the other calls [WaitAndPop] [n] times. *)
Definition one_producer_one_consumer (vs : list T) (n : nat)
    : list (list (call T)) :=
  [CPush <$> vs; replicate n (CPop KWaitAndPop)].
End Inv.
End FineGrainedInv.

(** * Lock discipline, cases of a call, ledgers, accesses, tests *)

(** ** The mutexes a call holds *)

Global Instance mutex_eq_dec : EqDecision mutex.
Proof. solve_decision. Defined.

(** The mutexes a thread holds after the events [es] when it held [hs]
    before, the last one locked first.  [None] when the events break the
    rules: they lock a mutex the thread holds already, lock [head_mu_]
    while [tail_mu_] is held, unlock another mutex than the last one locked
    (the locks are scoped), or wait on the condition variable with more than
    the one mutex the wait releases. *)
Fixpoint held (hs : list mutex) (es : list event) : option (list mutex) :=
  match es with
  | [] => Some hs
  | EvLock m :: es' =>
      if bool_decide (m ∈ hs) then None
      else if bool_decide (m = head_mu_ ∧ tail_mu_ ∈ hs) then None
      else held (m :: hs) es'
  | EvUnlock m :: es' =>
      match hs with
      | m' :: hs' => if bool_decide (m = m') then held hs' es' else None
      | [] => None
      end
  | EvWait :: es' =>
      match hs with
      | [_] => held [] es'
      | _ => None
      end
  | _ :: es' => held hs es'
  end.

(** What the queues of the first designs hold: [queue_] itself, a
    [std::queue<T>] of values. *)
Module Legacy.
Definition holds_TSQ1 {T} (q : ThreadSafeQueue1.t T) (vs : list T) : Prop :=
  ThreadSafeQueue1.queue_ q = vs.
Definition holds_SLQ1 {T} (q : SimpleLockedQueue1.t T) (vs : list T) : Prop :=
  SimpleLockedQueue1.queue_ q = vs.
End Legacy.

(** [for (x : l) body(x)]: the calls [body x], one after the other. *)
Fixpoint each {St A} (l : list A) (body : A → M St unit) : M St unit :=
  match l with
  | [] => ret tt
  | x :: l' => body x;; each l' body
  end.

(** ** What [RunPendingTask] does, case by case *)
Module PoolCases.
Import ThreadPool Pool.
Section PoolCases.
Context {R : Type}.
Implicit Types (p : ThreadPool.t R) (task t : FunctionWrapper.t R) (w : env).
Implicit Types (pt : FunctionWrapper.packaged_task R).

(** What a call of [RunPendingTask] by worker [k] does, by the queue it
    finds a task in. *)
Inductive run_case p (k : nat) (w : env) : Prop :=
| run_case_idle :
    let n := length (local_task_queues_ p) in
    (∀ o, o ∈ Local k :: Global :: map (λ i, Local (target (worker k) n i)) (seq 0 n) →
       source_empty p o) →
    RunPendingTask (worker k) p w =
      (Ok tt, p,
       logged w (budget w)
         (visit (Local k) mu_ ++ global_visit ++
          steal_visits (worker k) n (seq 0 n) ++ [EvYield])) →
    run_case p k w
| run_case_local t l pt :
    local_task_queues_ p !! k = Some (WorkStealingQueue.Make (t :: l)) →
    FunctionWrapper.impl_ t = Some pt →
    RunPendingTask (worker k) p w =
      (Ok tt,
       ran pt (set_locals (<[k := WorkStealingQueue.Make l]> (local_task_queues_ p)) p),
       logged w (budget w) (visit (Local k) mu_ ++ [EvCall (FunctionWrapper.state_ pt)])) →
    run_case p k w
| run_case_global t ts pt g :
    source_empty p (Local k) →
    Chain.represents (global_task_queue_ p) (t :: ts) →
    FunctionWrapper.impl_ t = Some pt →
    Chain.represents g ts →
    RunPendingTask (worker k) p w =
      (Ok tt, ran pt (set_global g p),
       logged w (budget w)
         (visit (Local k) mu_ ++ global_visit ++ [EvCall (FunctionWrapper.state_ pt)])) →
    run_case p k w
| run_case_steal pre i post t l pt :
    let n := length (local_task_queues_ p) in
    source_empty p (Local k) →
    source_empty p Global →
    seq 0 n = pre ++ i :: post →
    (∀ j, j ∈ pre → source_empty p (Local (target (worker k) n j))) →
    local_task_queues_ p !! target (worker k) n i =
      Some (WorkStealingQueue.Make (l ++ [t])) →
    FunctionWrapper.impl_ t = Some pt →
    RunPendingTask (worker k) p w =
      (Ok tt,
       ran pt (set_locals (<[target (worker k) n i := WorkStealingQueue.Make l]>
                              (local_task_queues_ p)) p),
       logged w (budget w)
         (visit (Local k) mu_ ++ global_visit ++
          steal_visits (worker k) n (pre ++ [i]) ++
          [EvCall (FunctionWrapper.state_ pt)])) →
    run_case p k w.

End PoolCases.
End PoolCases.

(** ** What a history of a pool shows *)
Module Ledger.
Import ThreadPool.
Section Ledger.
Context {R : Type}.
Implicit Types (p : ThreadPool.t R) (l : list (PoolHistory.action R)).
Implicit Types (pt : FunctionWrapper.packaged_task R) (t : FunctionWrapper.t R).








(** The callers there are: for [RunPendingTask] a worker of the pool or a
    thread from outside, with the thread-local members zero-initialised;
    for the rest those of [PoolHistory.caller_ok]. *)
Definition caller_any (n : nat) (a : PoolHistory.action R) : Prop :=
  match a with
  | PoolHistory.Runs me => me = external ∨ ∃ k, me = Pool.worker k ∧ k < n
  | _ => PoolHistory.caller_ok n a
  end.
End Ledger.
End Ledger.

(** ** The mutexes a thread holds inside the pool *)

Global Instance member_eq_dec : EqDecision member.
Proof. solve_decision. Defined.

(** The mutexes of the queues of a pool a thread holds after the events
    [es], each with its queue, the last one locked first, when it held [hs]
    before.  [None] when the events break the rules: they lock a mutex
    while one of another queue is held, lock a mutex twice, lock [head_mu_]
    of a queue under its [tail_mu_], unlock another mutex than the last one
    locked, wait on a condition variable, or call a task or yield with a
    mutex held. *)
Fixpoint pool_held (hs : list (member * mutex)) (es : list event)
    : option (list (member * mutex)) :=
  match es with
  | [] => Some hs
  | EvIn o (EvLock m) :: es' =>
      if bool_decide (Forall (λ x, x.1 = o) hs ∧ (o, m) ∉ hs ∧
                      ¬ (m = head_mu_ ∧ (o, tail_mu_) ∈ hs))
      then pool_held ((o, m) :: hs) es'
      else None
  | EvIn o (EvUnlock m) :: es' =>
      match hs with
      | x :: hs' => if bool_decide (x = (o, m)) then pool_held hs' es' else None
      | [] => None
      end
  | EvIn _ EvWait :: _ | EvWait :: _ | EvLock _ :: _ | EvUnlock _ :: _ => None
  | EvCall _ :: es' | EvYield :: es' =>
      if bool_decide (hs = []) then pool_held hs es' else None
  | _ :: es' => pool_held hs es'
  end.

(** ** What the statements of [LockedQueue] read and write *)

Module FineGrainedAccess.
Import LockedQueue FineGrained.
Section Access.
Context {T : Type}.




(** Thread [t] can run its next statement. *)
Definition runnable (s : sys T) (t : nat) : Prop := ∃ s', step t s = Steps s'.

(** Thread [t] has returned from its last call. *)
Definition finished (s : sys T) (t : nat) : Prop :=
  ∃ th, threads s !! t = Some th ∧ at_ th = Idle ∧ remaining th = [].
End Access.
End FineGrainedAccess.

(** ** Threads on a single-lock queue

    Threads that share one queue, each with the calls it has still to make.
    A member function of a single-lock queue touches [queue_] only under
    [mu_], so the calls take effect one at a time, in the order in which the
    scheduler lets them in.  A [WaitAndPop] that finds the queue empty parks
    in [cv_.wait]; its thread tries again when it is scheduled next.  A call
    that throws ends the program: nothing catches [std::bad_alloc] in a
    thread function. *)
Module Interleaved.
Import History.
Section Interleaved.
Context {T Q : Type} `{!Abstract.ThreadSafeQueue Q T}.

Record thread := Thread {
  remaining : list (call T);         (* the calls it still has to make *)
  got : list (reply T)               (* what its calls have returned *)
}.

Record sys := Sys { queue : Q; memory : nat; threads : list thread }.

Inductive next :=
| Steps (s : sys)                    (* the call returned *)
| Parks (s : sys)                    (* the call parked *)
| Waits                              (* nothing to do *)
| Dies.                              (* std::terminate, or a crash *)

(** The next call of thread [t]. *)
Definition step (t : nat) (s : sys) : next :=
  match threads s !! t with
  | None => Waits
  | Some th =>
      match remaining th with
      | [] => Waits
      | c :: rest =>
          let '(out, q', w') := perform c (queue s) (Env (memory s) []) in
          match out with
          | Ok r =>
              Steps (Sys q' (budget w')
                       (<[t := Thread rest (got th ++ [r])]> (threads s)))
          | Blocks => Parks (Sys q' (budget w') (threads s))
          | Throw | Fault => Dies
          end
      end
  end.

Fixpoint run (schedule : list nat) (s : sys) : option sys :=
  match schedule with
  | [] => Some s
  | t :: rest =>
      match step t s with
      | Steps s' | Parks s' => run rest s'
      | Waits => run rest s
      | Dies => None
      end
  end.

(** A new queue, made with [b] allocations available, and threads that
    have made no call yet. *)
Definition start `{!Abstract.Constructible Q} (programs : list (list (call T))) (b : nat)
    : option sys :=
  match Abstract.construct Abstract.raw (Env b []) with
  | (Ok _, q, w) => Some (Sys q (budget w) (map (λ cs, Thread cs []) programs))
  | _ => None
  end.

(** The threads of the tests [OneProduceOneConsumer]: one pushes [vs], the
    other calls [WaitAndPop] [n] times. *)
Definition one_producer_one_consumer (vs : list T) (n : nat) : list (list (call T)) :=
  [Push <$> vs; replicate n WaitAndPop].

(** Every thread has returned from its last call. *)
Definition all_done (s : sys) : Prop :=
  Forall (λ th, remaining th = []) (threads s).
End Interleaved.
Arguments thread : clear implicits.
Arguments sys : clear implicits.
Arguments next : clear implicits.
End Interleaved.

(** * Proofs *)

Ltac munfold :=
  unfold lock_guard, cv_wait, deref;
  unfold mbind, M_bind, mret, M_ret;
  unfold finally, bind, ret, get, put, modify, emit, fault, blocks, throw.

(** ** The node chain *)

Module ChainFacts.
Import LockedQueue Chain.
Section Chain.
Context {T : Type}.
Implicit Types (h : gmap nat (Node T)) (q : LockedQueue.t T) (vs : list T).
Lemma linked_length h a vs bs : linked h a vs bs → length vs = length bs.
Proof.
  revert a bs; induction vs as [|v vs IH]; intros a [|b bs]; simpl; try done.
  intros [_ H]. f_equal. eauto.
Qed.

(** Writing a node that is not on the chain leaves the chain alone. *)
Lemma linked_insert_ne h a vs bs x n :
  x ∉ a :: bs → linked h a vs bs → linked (<[x := n]> h) a vs bs.
Proof.
  revert a bs; induction vs as [|v vs IH]; intros a [|b bs]; simpl; try done.
  - intros Hx Ha. rewrite lookup_insert_ne; [done | set_solver].
  - intros Hx [Ha Hl]. split.
    + rewrite lookup_insert_ne; [done | set_solver].
    + apply IH; [set_solver | done].
Qed.

Lemma linked_delete_ne h a vs bs x :
  x ∉ a :: bs → linked h a vs bs → linked (delete x h) a vs bs.
Proof.
  revert a bs; induction vs as [|v vs IH]; intros a [|b bs]; simpl; try done.
  - intros Hx Ha. rewrite lookup_delete_ne; [done | set_solver].
  - intros Hx [Ha Hl]. split.
    + rewrite lookup_delete_ne; [done | set_solver].
    + apply IH; [set_solver | done].
Qed.

(** Linking a fresh dummy [p] behind the old one, which receives [v]. *)
Lemma linked_snoc h a vs bs v p :
  NoDup (a :: bs) → p ∉ a :: bs → linked h a vs bs →
  ∃ tl, last (a :: bs) = Some tl ∧
    linked (<[tl := MkNode (Some v) (Some p)]> (<[p := MkNode None None]> h))
           a (vs ++ [v]) (bs ++ [p]).
Proof.
  revert a bs; induction vs as [|v' vs IH]; intros a [|b bs]; simpl; try done.
  - intros _ Hp Ha. exists a. split; [done|].
    rewrite lookup_insert_eq. split; [done|].
    rewrite lookup_insert_ne; [|set_solver]. by rewrite lookup_insert_eq.
  - intros Hnd Hp [Ha Hl].
    apply NoDup_cons in Hnd as [Hab Hnd].
    destruct (IH b bs) as (tl & Htl & IH'); [done | set_solver | done |].
    exists tl. split.
    + by destruct bs.
    + assert (tl ∈ b :: bs) by (apply last_Some_elem_of; done).
      split; [|done].
      rewrite !lookup_insert_ne; [done | set_solver | set_solver].
Qed.

Lemma last_snoc_cons {A} (a : A) bs p : last (a :: bs ++ [p]) = Some p.
Proof. rewrite app_comm_cons. apply last_snoc. Qed.

(** The head of a represented queue and the node it points to. *)
Lemma represents_head q vs :
  represents q vs → ∃ a n, head_ q = Some a ∧ nodes q !! a = Some n.
Proof.
  intros (a & bs & Hh & _ & _ & Hl & _). exists a.
  destruct vs, bs; simpl in Hl; try done; [|destruct Hl]; eauto.
Qed.

Lemma represents_empty_iff q vs :
  represents q vs → (head_ q = tail_ q ↔ vs = []).
Proof.
  intros (a & bs & Hh & Ht & Hnd & Hl & _). rewrite Hh, Ht.
  destruct vs as [|v vs], bs as [|b bs]; simpl in Hl; try done.
  split; [|done]. intros Heq. exfalso.
  apply NoDup_cons in Hnd as [Hab _]. apply Hab.
  apply last_Some_elem_of. rewrite Heq. by destruct bs.
Qed.
End Chain.
End ChainFacts.

(** ** The member functions of [LockedQueue] on a represented queue *)

Module LockedQueueFacts.
Import LockedQueue Chain ChainFacts.
Section Facts.
Context {T : Type}.
Implicit Types (q : LockedQueue.t T) (vs : list T) (w : env).

Lemma LockedQueue_ok w b :
  budget w = S b →
  ∃ q0, LockedQueue (T:=T) raw w = (Ok tt, q0, logged w b [EvAlloc]) ∧
        represents q0 [].
Proof.
  intros Hb. unfold LockedQueue, new_Node, alloc. munfold. rewrite Hb. simpl.
  eexists. split; [reflexivity|].
  exists (fresh (dom (∅ : gmap nat (Node T)))), []. simpl.
  repeat split; try done. apply NoDup_singleton.
Qed.

Lemma LockedQueue_throw w :
  budget w = 0 → LockedQueue (T:=T) raw w = (Throw, raw, w).
Proof. intros Hb. unfold LockedQueue, new_Node, alloc. munfold. by rewrite Hb. Qed.

Lemma GetTail_eq q w :
  GetTail q w = (Ok (tail_ q), q, logged w (budget w) [EvLock tail_mu_; EvUnlock tail_mu_]).
Proof. unfold GetTail, logged. munfold. simpl. by rewrite <- app_assoc. Qed.

Lemma Empty_eq q w :
  Empty q w = (Ok (bool_decide (head_ q = tail_ q)), q,
               logged w (budget w) [EvLock head_mu_; EvLock tail_mu_; EvUnlock tail_mu_; EvUnlock head_mu_]).
Proof. unfold Empty, GetTail, logged. munfold. simpl. by rewrite <- !app_assoc. Qed.

Lemma delete_chain_single h a (d : option T) :
  h !! a = Some (MkNode d None) →
  delete_chain (size h) h (Some a) = delete a h.
Proof.
  intros Ha. destruct (size h) as [|n] eqn:Hsz.
  - apply map_size_empty_inv in Hsz. subst h. by rewrite lookup_empty in Ha.
  - simpl. rewrite Ha. simpl. by destruct n.
Qed.

Lemma represents_pop q v vs :
  represents q (v :: vs) →
  ∃ a b, head_ q = Some a ∧ nodes q !! a = Some (MkNode (Some v) (Some b)) ∧
         head_ q ≠ tail_ q ∧ represents (popped q a b v) vs.
Proof.
  intros Hr. pose proof (represents_empty_iff _ _ Hr) as Hne.
  destruct Hr as (a & bs & Hh & Ht & Hnd & Hl & Hdom).
  destruct bs as [|b bs]; simpl in Hl; [done|]. destruct Hl as [Ha Hl].
  exists a, b. repeat split; try done.
  { intros Heq. by apply Hne in Heq. }
  exists b, bs. simpl. apply NoDup_cons in Hnd as [Hab Hnd].
  repeat split; try done.
  - apply linked_delete_ne; [done|]. by apply linked_insert_ne.
  - rewrite dom_delete_L, dom_insert_L, Hdom. set_solver.
Qed.

Lemma PopHead_eq q w a n :
  head_ q = Some a → nodes q !! a = Some n →
  PopHead q w =
    (Ok (Some a),
     Make (<[a := MkNode (data_ n) None]> (nodes q)) (next_ n) (tail_ q), w).
Proof.
  intros Hh Ha. unfold PopHead, load, store, set_head, set_nodes. munfold.
  repeat (progress (simpl; rewrite ?Hh, ?Ha)). unfold ret. done.
Qed.

Lemma destroy_popped h a (d : option T) p tl w :
  destroy (Some a) (Make (<[a := MkNode d None]> h) p tl) w =
    (Ok tt, Make (delete a (<[a := MkNode d None]> h)) p tl, w).
Proof.
  unfold destroy, load, set_nodes. munfold. simpl.
  rewrite lookup_insert_eq. simpl.
  erewrite delete_chain_single; [done|]. apply lookup_insert_eq.
Qed.

Local Arguments destroy : simpl never.
Local Arguments PopHead : simpl never.

Ltac pop_tac Hh Ha Hne :=
  unfold TryPop, TryPop_to, WaitAndPop, WaitAndPop_to, TryPopHead,
    TryPopHead_to, WaitPopHead, WaitPopHead_to, WaitForData, GetTail, load;
  munfold; simpl;
  rewrite ?(bool_decide_eq_false_2 _ Hne); simpl;
  repeat (progress (simpl; rewrite ?Hh, ?Ha));
  rewrite ?(PopHead_eq _ _ _ _ Hh Ha); simpl;
  rewrite ?lookup_insert_eq; simpl;
  rewrite ?destroy_popped; simpl;
  unfold logged, pop_events; rewrite <- ?app_assoc; simpl.

Lemma TryPop_nonempty q w v vs :
  represents q (v :: vs) →
  ∃ q', TryPop q w = (Ok (Some v), q', logged w (budget w) pop_events) ∧
        represents q' vs.
Proof.
  intros Hr. destruct (represents_pop _ _ _ Hr) as (a & b & Hh & Ha & Hne & Hr').
  exists (popped q a b v). split; [|done].
  pop_tac Hh Ha Hne. done.
Qed.

Lemma TryPop_to_nonempty q w v vs value :
  represents q (v :: vs) →
  ∃ q', TryPop_to value q w = (Ok (true, v), q', logged w (budget w) pop_events) ∧
        represents q' vs.
Proof.
  intros Hr. destruct (represents_pop _ _ _ Hr) as (a & b & Hh & Ha & Hne & Hr').
  exists (popped q a b v). split; [|done].
  pop_tac Hh Ha Hne. done.
Qed.

Lemma WaitAndPop_nonempty q w v vs :
  represents q (v :: vs) →
  ∃ q', WaitAndPop q w = (Ok (Some v), q', logged w (budget w) pop_events) ∧
        represents q' vs.
Proof.
  intros Hr. destruct (represents_pop _ _ _ Hr) as (a & b & Hh & Ha & Hne & Hr').
  exists (popped q a b v). split; [|done].
  pop_tac Hh Ha Hne. done.
Qed.

Lemma WaitAndPop_to_nonempty q w v vs value :
  represents q (v :: vs) →
  ∃ q', WaitAndPop_to value q w = (Ok v, q', logged w (budget w) pop_events) ∧
        represents q' vs.
Proof.
  intros Hr. destruct (represents_pop _ _ _ Hr) as (a & b & Hh & Ha & Hne & Hr').
  exists (popped q a b v). split; [|done].
  pop_tac Hh Ha Hne. done.
Qed.

Ltac empty_tac Heq :=
  unfold TryPop, TryPop_to, WaitAndPop, WaitAndPop_to, TryPopHead,
    TryPopHead_to, WaitPopHead, WaitPopHead_to, WaitForData, GetTail, destroy;
  munfold; simpl;
  rewrite ?(bool_decide_eq_true_2 _ Heq); simpl;
  unfold logged, pop_events, wait_events; rewrite <- ?app_assoc; simpl.

Lemma TryPop_empty q w :
  head_ q = tail_ q →
  TryPop q w = (Ok None, q, logged w (budget w) pop_events).
Proof. intros Heq. empty_tac Heq. done. Qed.

Lemma TryPop_to_empty q w value :
  head_ q = tail_ q →
  TryPop_to value q w = (Ok (false, value), q, logged w (budget w) pop_events).
Proof. intros Heq. empty_tac Heq. done. Qed.

Lemma WaitAndPop_empty q w :
  head_ q = tail_ q →
  WaitAndPop q w = (Blocks, q, logged w (budget w) wait_events).
Proof. intros Heq. empty_tac Heq. done. Qed.

Lemma WaitAndPop_to_empty q w value :
  head_ q = tail_ q →
  WaitAndPop_to value q w = (Blocks, q, logged w (budget w) wait_events).
Proof. intros Heq. empty_tac Heq. done. Qed.

Lemma Push_ok q w vs v b :
  represents q vs → budget w = S (S b) →
  ∃ q', Push v q w = (Ok tt, q', logged w b push_events) ∧
        represents q' (vs ++ [v]).
Proof.
  intros (a & bs & Hh & Ht & Hnd & Hl & Hdom) Hb.
  set (p := fresh (dom (nodes q))).
  assert (Hp : p ∉ a :: bs).
  { intros Hin. apply (is_fresh (dom (nodes q))). fold p. rewrite Hdom. set_solver. }
  destruct (linked_snoc _ _ _ _ v p Hnd Hp Hl) as (tl & Htl & Hl').
  assert (Htlin : tl ∈ a :: bs) by (by apply last_Some_elem_of).
  assert (Htlp : tl ≠ p) by (intros ->; done).
  assert (∃ n, nodes q !! tl = Some n) as [n Hn].
  { apply elem_of_dom. rewrite Hdom. set_solver. }
  eexists. split.
  - unfold Push, new_Node, alloc, load, store, set_nodes, set_tail. munfold.
    rewrite Hb. simpl. fold p. rewrite Ht, Htl. simpl.
    rewrite lookup_insert_ne by done. rewrite Hn. simpl.
    rewrite lookup_insert_ne by done. rewrite Hn. simpl.
    rewrite lookup_insert_eq. simpl.
    unfold logged, push_events. rewrite <- !app_assoc. simpl. reflexivity.
  - exists a, (bs ++ [p]). simpl. rewrite insert_insert_eq.
    repeat split; try done.
    + by rewrite last_snoc_cons.
    + change (NoDup ((a :: bs) ++ [p])). apply NoDup_app. repeat split; try done.
      * intros x Hx Hx'. apply list_elem_of_singleton in Hx'. by subst.
      * apply NoDup_singleton.
    + rewrite !dom_insert_L, Hdom, list_to_set_app_L. simpl. set_solver.
Qed.

Lemma Push_throw q w v :
  budget w < 2 →
  ∃ es, Push v q w = (Throw, q, logged w 0 es) ∧ (es = [] ∨ es = [EvAlloc]).
Proof.
  intros Hb. unfold Push, new_Node, alloc. munfold.
  destruct w as [[|[|b]] tr]; simpl in *; [| |lia].
  - exists []. unfold logged. simpl. rewrite app_nil_r. auto.
  - exists [EvAlloc]. auto.
Qed.
End Facts.
End LockedQueueFacts.

(** ** Histories against the sequence *)

Module HistoryFacts.
Import History Refinement.
Section Facts.
Context {T : Type}.
Implicit Types (vs : list T) (cs : list (call T)) (w : env).

Lemma play_fifo {Q} `{!Abstract.ThreadSafeQueue Q T} (rep : Q → list T → Prop) cost :
  simulates rep cost →
  ∀ cs q w vs, rep q vs → cost * length cs ≤ budget w →
    ∃ q' w', play cs q w = ((fifo_play cs vs).1, q', w') ∧
             rep q' (fifo_play cs vs).2.
Proof.
  intros Hsim. induction cs as [|c cs IH]; intros q w vs Hrep Hb; simpl in *.
  - eauto.
  - destruct (Hsim c q w vs Hrep) as (q1 & w1 & Hp & Hrep1 & Hb1); [lia|].
    rewrite Hp. destruct (fifo c vs) as [r vs1] eqn:Hf. simpl in *.
    destruct (IH q1 w1 vs1 Hrep1) as (q2 & w2 & Hpl & Hrep2); [nia|].
    rewrite Hpl. destruct (fifo_play cs vs1) as [rs vs2]. simpl in *. eauto.
Qed.




(** *** The single-lock queues *)

Ltac simple_queue_tac :=
  intros c [q] [b tr] vs Hrep Hb; simpl in Hrep, Hb; subst q;
  destruct c; destruct vs as [|v0 vs];
  try (destruct b as [|b]; [specialize (Hb eq_refl); lia|]);
  cbn; unfold alloc; munfold; cbn;
  (eexists _, _; split; [reflexivity|]; split;
    [unfold push_back; cbn; rewrite ?fmap_app; try done|cbn; try lia]).

Lemma ThreadSafeQueue_simulates : simulates (holds_TSQ (T:=T)) 1.
Proof.
  unfold simulates, holds_TSQ. simple_queue_tac.
Qed.

Lemma SimpleLockedQueue_simulates : simulates (holds_SLQ (T:=T)) 1.
Proof.
  unfold simulates, holds_SLQ. simple_queue_tac.
Qed.

(** *** The fine-grained queue *)

Lemma LockedQueue_simulates : simulates (Chain.represents (T:=T)) 2.
Proof.
  intros c q w vs Hrep Hb.
  pose proof (ChainFacts.represents_empty_iff _ _ Hrep) as Hemp.
  destruct c; cbn -[LockedQueue.Push LockedQueue.TryPop LockedQueue.TryPop_to
    LockedQueue.WaitAndPop LockedQueue.WaitAndPop_to LockedQueue.Empty];
    unfold mbind, M_bind, bind.
  - specialize (Hb eq_refl). destruct (budget w) as [|[|b]] eqn:Hbw; [lia|lia|].
    destruct (LockedQueueFacts.Push_ok q w vs v b Hrep Hbw) as (q' & -> & Hrep').
    eexists _, _. split; [reflexivity|]. split; [done|]. cbn. lia.
  - destruct vs as [|v0 vs].
    + rewrite LockedQueueFacts.WaitAndPop_to_empty by (by apply Hemp).
      eexists _, _. split; [reflexivity|]. split; [done|]. cbn. lia.
    + destruct (LockedQueueFacts.WaitAndPop_to_nonempty q w v0 vs value Hrep)
        as (q' & -> & Hrep').
      eexists _, _. split; [reflexivity|]. split; [done|]. cbn. lia.
  - destruct vs as [|v0 vs].
    + rewrite LockedQueueFacts.WaitAndPop_empty by (by apply Hemp).
      eexists _, _. split; [reflexivity|]. split; [done|]. cbn. lia.
    + destruct (LockedQueueFacts.WaitAndPop_nonempty q w v0 vs Hrep)
        as (q' & -> & Hrep').
      eexists _, _. split; [reflexivity|]. split; [done|]. cbn. lia.
  - destruct vs as [|v0 vs].
    + rewrite LockedQueueFacts.TryPop_to_empty by (by apply Hemp).
      eexists _, _. split; [reflexivity|]. split; [done|]. cbn. lia.
    + destruct (LockedQueueFacts.TryPop_to_nonempty q w v0 vs value Hrep)
        as (q' & -> & Hrep').
      eexists _, _. split; [reflexivity|]. split; [done|]. cbn. lia.
  - destruct vs as [|v0 vs].
    + rewrite LockedQueueFacts.TryPop_empty by (by apply Hemp).
      eexists _, _. split; [reflexivity|]. split; [done|]. cbn. lia.
    + destruct (LockedQueueFacts.TryPop_nonempty q w v0 vs Hrep)
        as (q' & -> & Hrep').
      eexists _, _. split; [reflexivity|]. split; [done|]. cbn. lia.
  - rewrite LockedQueueFacts.Empty_eq.
    assert (bool_decide (LockedQueue.head_ q = LockedQueue.tail_ q) = empty vs) as ->.
    { destruct vs; cbn.
      - apply bool_decide_eq_true_2. by apply Hemp.
      - apply bool_decide_eq_false_2. intros Heq. by apply Hemp in Heq. }
    eexists _, _. split; [reflexivity|]. split; [done|]. cbn. lia.
Qed.

(** *** Whole histories *)

Lemma replies_fifo {Q} `{!Abstract.ThreadSafeQueue Q T} `{!Abstract.Constructible Q}
    (rep : Q → list T → Prop) cost ctor_cost cs b :
  simulates rep cost →
  (∀ b', ctor_cost ≤ b' → ∃ q w, Abstract.construct Abstract.raw (Env b' []) = (Ok tt, q, w) ∧
       rep q [] ∧ b' ≤ budget w + ctor_cost) →
  ctor_cost + cost * length cs ≤ b →
  replies Q cs b = (fifo_play cs []).1.
Proof.
  intros Hsim Hctor Hb. unfold replies.
  destruct (Hctor b) as (q & w & -> & Hrep & Hbw); [lia|].
  destruct (play_fifo rep cost Hsim cs q w [] Hrep) as (q' & w' & -> & _); [nia|].
  done.
Qed.

Lemma LockedQueue_replies cs b :
  2 * length cs < b → replies (LockedQueue.t T) cs b = (fifo_play cs []).1.
Proof.
  intros Hb. apply (replies_fifo Chain.represents 2 1); [apply LockedQueue_simulates| |lia].
  intros b' Hb'. destruct b' as [|b']; [lia|].
  destruct (LockedQueueFacts.LockedQueue_ok (T:=T) (Env (S b') []) b' eq_refl) as (q & Hq & Hrep).
  exists q, (logged (Env (S b') []) b' [EvAlloc]). split; [done|]. split; [done|]. cbn. lia.
Qed.

Lemma ThreadSafeQueue_replies cs b :
  2 * length cs < b → replies (ThreadSafeQueue.t T) cs b = (fifo_play cs []).1.
Proof.
  intros Hb. apply (replies_fifo holds_TSQ 1 0); [apply ThreadSafeQueue_simulates| |lia].
  intros b' _. eexists _, _. split; [reflexivity|]. split; [done|]. cbn. lia.
Qed.

Lemma SimpleLockedQueue_replies cs b :
  2 * length cs < b → replies (SimpleLockedQueue.t T) cs b = (fifo_play cs []).1.
Proof.
  intros Hb. apply (replies_fifo holds_SLQ 1 0); [apply SimpleLockedQueue_simulates| |lia].
  intros b' _. eexists _, _. split; [reflexivity|]. split; [done|]. cbn. lia.
Qed.

(** *** Any history, whatever memory is left *)

Lemma simulates_logical (c : call T) vs :
  (fifo c vs).1 ≠ Fault ∧ logical_step vs c (fifo c vs).1 = (fifo c vs).2.
Proof. destruct c, vs; cbn; done. Qed.

Lemma LockedQueue_tracks : tracks (Chain.represents (T:=T)).
Proof.
  intros c q w vs Hrep.
  destruct (decide (is_push c = true → 2 ≤ budget w)) as [Hb|Hb].
  - destruct (LockedQueue_simulates c q w vs Hrep Hb) as (q' & w' & Hp & Hrep' & _).
    exists (fifo c vs).1, q', w'. split; [done|].
    destruct (simulates_logical c vs) as [? ->]. done.
  - destruct c; try (exfalso; apply Hb; done).
    destruct (LockedQueueFacts.Push_throw q w v) as (es & Hp & _).
    { destruct (decide (budget w < 2)); [done|]. exfalso. apply Hb. lia. }
    exists Throw, q, (logged w 0 es). cbn. unfold mbind, M_bind, bind.
    cbn in Hp. rewrite Hp. done.
Qed.

Ltac simple_tracks_tac :=
  intros c [q] [b tr] vs Hrep; simpl in Hrep; subst q;
  destruct c; destruct vs as [|v0 vs]; try destruct b as [|b];
  cbn; unfold alloc; munfold; cbn;
  (eexists _, _, _; split; [reflexivity|]; split; [done|];
   unfold push_back; cbn; rewrite ?fmap_app; done).

Lemma ThreadSafeQueue_tracks : tracks (holds_TSQ (T:=T)).
Proof. unfold tracks, holds_TSQ. simple_tracks_tac. Qed.

Lemma SimpleLockedQueue_tracks : tracks (holds_SLQ (T:=T)).
Proof. unfold tracks, holds_SLQ. simple_tracks_tac. Qed.

Lemma play_logical {Q} `{!Abstract.ThreadSafeQueue Q T} (rep : Q → list T → Prop) :
  tracks rep →
  ∀ cs q w vs, rep q vs →
    ∃ rs q' w', play cs q w = (rs, q', w') ∧ (Fault ∉ rs) ∧
                length rs = length cs ∧ rep q' (logical vs cs rs).
Proof.
  intros Htr. induction cs as [|c cs IH]; intros q w vs Hrep; cbn.
  - exists [], q, w. split; [done|]. split; [apply not_elem_of_nil|]. done.
  - destruct (Htr c q w vs Hrep) as (r & q1 & w1 & -> & Hr & Hrep1).
    destruct (IH q1 w1 _ Hrep1) as (rs & q2 & w2 & -> & Hrs & Hlen & Hrep2).
    exists (r :: rs), q2, w2. split; [done|]. split.
    + apply not_elem_of_cons. done.
    + split; [cbn; by rewrite Hlen | done].
Qed.
End Facts.
End HistoryFacts.

(** ** [LockedQueue], statement by statement: the invariant holds *)

Module FineGrainedFacts.
Import LockedQueue FineGrained FineGrainedInv.
Section Frame.
Context {T : Type}.
Variable programs : list (list (call T)).
Implicit Types (h : gmap nat (Node T)) (s : sys T) (c : pc T) (th : thread T).

(** *** Chains *)

Lemma chain_length h a vs bs tn : chain h a vs bs tn → length vs = length bs.
Proof.
  revert a bs; induction vs as [|v vs IH]; intros a [|b bs]; simpl; try done.
  intros [_ H]. f_equal. eauto.
Qed.

Lemma chain_lookup h a vs bs tn x :
  chain h a vs bs tn → x ∈ a :: bs → is_Some (h !! x).
Proof.
  revert a bs; induction vs as [|v vs IH]; intros a [|b bs]; simpl; try done.
  - intros Ha Hx. apply list_elem_of_singleton in Hx as ->. eauto.
  - intros [Ha Hl] Hx. apply elem_of_cons in Hx as [-> | Hx]; eauto.
Qed.

Lemma chain_insert_ne h a vs bs tn x n :
  x ∉ a :: bs → chain h a vs bs tn → chain (<[x := n]> h) a vs bs tn.
Proof.
  revert a bs; induction vs as [|v vs IH]; intros a [|b bs]; simpl; try done.
  - intros Hx Ha. rewrite lookup_insert_ne; [done | set_solver].
  - intros Hx [Ha Hl]. split.
    + rewrite lookup_insert_ne; [done | set_solver].
    + apply IH; [set_solver | done].
Qed.

Lemma chain_delete_ne h a vs bs tn x :
  x ∉ a :: bs → chain h a vs bs tn → chain (delete x h) a vs bs tn.
Proof.
  revert a bs; induction vs as [|v vs IH]; intros a [|b bs]; simpl; try done.
  - intros Hx Ha. rewrite lookup_delete_ne; [done | set_solver].
  - intros Hx [Ha Hl]. split.
    + rewrite lookup_delete_ne; [done | set_solver].
    + apply IH; [set_solver | done].
Qed.

Lemma chain_last h a vs bs tn x :
  chain h a vs bs tn → last (a :: bs) = Some x → h !! x = Some tn.
Proof.
  revert a bs; induction vs as [|v vs IH]; intros a [|b bs]; simpl; try done.
  - intros Ha [= <-]. done.
  - intros [Ha Hl] Hx. eapply IH; [done |]. done.
Qed.

(** The pusher writes the last node only. *)
Lemma chain_set_last h a vs bs tn tn' x :
  NoDup (a :: bs) → last (a :: bs) = Some x →
  chain h a vs bs tn → chain (<[x := tn']> h) a vs bs tn'.
Proof.
  revert a bs; induction vs as [|v vs IH]; intros a [|b bs]; simpl; try done.
  - intros _ [= <-] _. apply lookup_insert_eq.
  - intros Hnd Hx [Ha Hl]. apply NoDup_cons in Hnd as [Hab Hnd]. split.
    + rewrite lookup_insert_ne; [done |].
      intros <-. apply Hab. change (last (b :: bs) = Some x) in Hx.
      apply last_Some in Hx as [l ->]. set_solver.
    + apply IH; done.
Qed.

Lemma chain_snoc h a vs bs d p tn :
  chain h a vs bs (MkNode (Some d) (Some p)) → h !! p = Some tn →
  chain h a (vs ++ [d]) (bs ++ [p]) tn.
Proof.
  revert a bs; induction vs as [|v vs IH]; intros a [|b bs]; simpl; try done.
  intros [Ha Hl] Hp. split; [done |]. by apply IH.
Qed.

(** *** Ghost lists *)

Lemma tagged_snoc_eq {A} t (l : list (nat * A)) x :
  tagged t (l ++ [(t, x)]) = tagged t l ++ [x].
Proof. unfold tagged. rewrite omap_app. simpl. by rewrite decide_True. Qed.

Lemma tagged_snoc_ne {A} t t' (l : list (nat * A)) x :
  t ≠ t' → tagged t' (l ++ [(t, x)]) = tagged t' l.
Proof.
  intros. unfold tagged. rewrite omap_app. simpl. rewrite decide_False by done.
  apply app_nil_r.
Qed.

Lemma pushes_snoc l (c : call T) r :
  pushes (l ++ [(c, r)]) = pushes l ++ match c with CPush v => [v] | _ => [] end.
Proof. unfold pushes. rewrite omap_app. by destruct c. Qed.

Lemma pops_snoc l (c : call T) r :
  pops (l ++ [(c, r)]) = pops l ++ match r with RPtr (Some v) => [v] | _ => [] end.
Proof. unfold pops. rewrite omap_app. by destruct r as [|[]|]. Qed.

(** *** What the steps of one thread leave of another's view *)

Lemma thread_ok_frame s s' hd vs bs tn hd' vs' bs' tn' t th :
  thread_ok programs s hd vs bs tn t th →
  (head_owner s' = Some t ↔ head_owner s = Some t) →
  (tail_owner s' = Some t ↔ tail_owner s = Some t) →
  (head_owner s = Some t →
     head_ (queue s') = head_ (queue s) ∧ hd' = hd ∧
     (∀ a, a ∈ bs → a ∈ bs') ∧ (vs ≠ [] → vs' ≠ [])) →
  (tail_owner s = Some t → tail_ (queue s') = tail_ (queue s) ∧ tn' = tn) →
  (∀ x, private (at_ th) = Some x →
     nodes (queue s') !! x = nodes (queue s) !! x ∧ x ∉ hd' :: bs') →
  tagged t (pushed s') = tagged t (pushed s) →
  tagged t (popped s') = tagged t (popped s) →
  thread_ok programs s' hd' vs' bs' tn' t th.
Proof.
  intros [] Hh Ht Hhd Htl Hp Hpu Hpo. split.
  - by rewrite Hh.
  - by rewrite Ht.
  - intros Hc. specialize (ok_head_0 Hc). apply ok_head0 in Hc.
    destruct (Hhd Hc) as (-> & -> & _). done.
  - intros Hc. specialize (ok_tn0 Hc). apply ok_tail0 in Hc.
    destruct (Htl Hc) as (_ & ->). done.
  - intros x Hx. by apply Hp.
  - destruct (at_ th) eqn:Hc; simpl in *; try done.
    + destruct (Hp p eq_refl) as [-> _]. done.
    + destruct (Hp p eq_refl) as [-> _]. done.
    + destruct (Hp p eq_refl) as [-> _]. done.
    + destruct (Hp p eq_refl) as [-> _]. done.
    + destruct Htl as [-> _]; [by apply ok_tail0 | done].
    + destruct Hhd as (_ & -> & Hsub & _); [by apply ok_head0 |].
      destruct ok_local0 as (a & -> & Ha). exists a. split; [done |].
      apply elem_of_cons in Ha as [-> | Ha]; [left | right; auto].
    + destruct Hhd as (_ & _ & _ & Hvs); [by apply ok_head0 |]. naive_solver.
    + destruct Hhd as (_ & _ & _ & Hvs); [by apply ok_head0 |]. naive_solver.
    + destruct (Hp old_head eq_refl) as [-> _]. done.
    + destruct (Hp old_head eq_refl) as [-> _]. done.
  - by rewrite Hpu.
  - rewrite Hpo, ok_popped0. f_equal.
    destruct (at_ th); simpl in *; try done.
    + destruct (Hp old_head eq_refl) as [-> _]. done.
    + destruct (Hp old_head eq_refl) as [-> _]. done.
  - done.
  - done.
Qed.

Lemma distinct_insert ths t th c td hs :
  ths !! t = Some th → distinct ths →
  (∀ x, private c = Some x →
     private (at_ th) = Some x ∨
     ∀ t' th', ths !! t' = Some th' → private (at_ th') ≠ Some x) →
  distinct (<[t := Thread c td hs]> ths).
Proof.
  intros Ht Hd Hc t1 t2 th1 th2 x H1 H2 Hp1 Hp2.
  destruct (decide (t1 = t2)) as [|Hne]; [done | exfalso].
  destruct (decide (t1 = t)) as [-> | H1t].
  - rewrite list_lookup_insert_eq in H1 by (by eapply lookup_lt_Some).
    rewrite list_lookup_insert_ne in H2 by done.
    injection H1 as <-. simpl in Hp1. destruct (Hc x Hp1) as [Hx | Hx].
    + apply Hne. eapply Hd; eauto.
    + by eapply Hx.
  - rewrite list_lookup_insert_ne in H1 by done.
    destruct (decide (t2 = t)) as [-> | H2t].
    + rewrite list_lookup_insert_eq in H2 by (by eapply lookup_lt_Some).
      injection H2 as <-. simpl in Hp2. destruct (Hc x Hp2) as [Hx | Hx].
      * apply Hne. eapply Hd; eauto.
      * by eapply Hx.
    + rewrite list_lookup_insert_ne in H2 by done.
      apply Hne. eapply Hd; eauto.
Qed.

End Frame.

(** *** Every statement keeps the invariant *)

Ltac others I :=
  let t' := fresh "t'" in let th' := fresh "th'" in
  let Hne := fresh "Hne" in let Hth' := fresh "Hth'" in
  intros t' th' Hne Hth'; eapply thread_ok_frame; [by apply I | simpl; try done ..];
  try (match goal with
       | |- _ ↔ _ => split; intros ?; congruence
       | |- _ = Some _ → _ => intros ?; congruence
       end);
  try (let x := fresh "x" in let Hx := fresh "Hx" in
       intros x Hx; split; [done | by eauto]).

Section Steps.
Context {T : Type}.
Variable programs : list (list (call T)).
Implicit Types (h : gmap nat (Node T)) (s : sys T) (c : pc T) (th : thread T).

Lemma inv_update s s' t th th' hd vs bs tn :
  threads s !! t = Some th →
  threads s' = <[t := th']> (threads s) →
  distinct (threads s) →
  length (threads s) = length programs →
  (head_owner s' = None → head_ (queue s') = Some hd) →
  tail_ (queue s') = last (hd :: bs) →
  (tail_owner s' = None → tn = MkNode None None) →
  NoDup (hd :: bs) →
  chain (nodes (queue s')) hd vs bs tn →
  Some <$> (pushed s').*2 = (popped s').*2 ++ (Some <$> vs) →
  (∀ x, x ∈ pushed s' → x.1 < length (threads s)) →
  (∀ x, x ∈ popped s' → x.1 < length (threads s)) →
  thread_ok programs s' hd vs bs tn t th' →
  (∀ t' th'', t' ≠ t → threads s !! t' = Some th'' →
     thread_ok programs s' hd vs bs tn t' th'') →
  (∀ x, private (at_ th') = Some x →
     private (at_ th) = Some x ∨
     ∀ t' th'', threads s !! t' = Some th'' → private (at_ th'') ≠ Some x) →
  inv programs s' hd vs bs tn.
Proof.
  intros Hth Hths Hd Hlen H1 H2 H3 H4 H5 H6 H7 H7' H8 H9 H10. split; try done.
  - rewrite Hths, length_insert. done.
  - rewrite Hths, length_insert. done.
  - rewrite Hths, length_insert. done.
  - rewrite Hths. intros t' th''. destruct (decide (t' = t)) as [-> | Hne].
    + rewrite list_lookup_insert_eq by (by eapply lookup_lt_Some).
      by intros [= <-].
    + rewrite list_lookup_insert_ne by done. by apply H9.
  - rewrite Hths. destruct th'. by eapply distinct_insert.
Qed.

Lemma private_alive s hd vs bs tn t th x :
  thread_ok programs s hd vs bs tn t th → private (at_ th) = Some x →
  is_Some (nodes (queue s) !! x).
Proof.
  intros O Hx. pose proof (ok_local _ _ _ _ _ _ _ _ O) as L.
  destruct (at_ th); simpl in *; try done; simplify_eq; try (by eauto).
  - destruct L as [[v ->] _]. eauto.
  - destruct L as [[v ->] _]. eauto.
Qed.

Lemma last_cons_elem (a x : nat) bs : last (a :: bs) = Some x → x ∈ a :: bs.
Proof. intros H. apply last_Some in H as [l ->]. set_solver. Qed.

Lemma last_cons_is_Some (a : nat) bs : is_Some (last (a :: bs)).
Proof.
  revert a. induction bs as [|b bs IH]; intros a; [by eexists |].
  change (last (a :: b :: bs)) with (last (b :: bs)). apply IH.
Qed.

(** The private node of another thread is not on the chain. *)
Lemma private_off_chain s hd vs bs tn t th x :
  inv programs s hd vs bs tn → threads s !! t = Some th →
  private (at_ th) = Some x → x ∉ hd :: bs.
Proof. intros I Hth Hx. eapply ok_private; [by apply I | done]. Qed.

Lemma step_inv t s :
  Inv programs s →
  match step t s with Steps s' => Inv programs s' | Waits => True | Crashes => False end.
Proof.
  intros (hd & vs & bs & tn & I). unfold step.
  destruct (threads s !! t) as [th|] eqn:Hth; [|done].
  pose proof (inv_threads _ _ _ _ _ _ I t th Hth) as O.
  assert (Hoff : ∀ t' th' x, threads s !! t' = Some th' →
            private (at_ th') = Some x → x ∉ hd :: bs).
  { intros. by eapply private_off_chain. }
  destruct th as [c td hs]. simpl in *. destruct c.
  - (* Idle *)
    destruct td as [|[v|k] rest]; [done | |].
    + set (p := fresh (dom (nodes (queue s)))).
      assert (Hp : nodes (queue s) !! p = None).
      { apply not_elem_of_dom. apply is_fresh. }
      exists hd, vs, bs, tn. eapply inv_update; simpl; try done; try apply I.
      * apply chain_insert_ne; [|apply I].
        intros Hin. eapply chain_lookup in Hin as [? ?]; [|apply I]. congruence.
      * destruct O. split; simpl in *; try done.
        -- intros x [= <-] Hin. eapply chain_lookup in Hin as [? ?]; [|apply I]. congruence.
        -- apply lookup_insert_eq.
      * others I.
        intros x Hx. split; [|by eauto].
        rewrite lookup_insert_ne; [done |]. intros <-.
        eapply private_alive in Hx as [? ?]; [|by apply I]. congruence.
      * intros x [= <-]. right. intros t' th'' Hth'' Hx.
        eapply private_alive in Hx as [? ?]; [|by apply I]. congruence.
    + exists hd, vs, bs, tn. eapply inv_update; simpl; try done; try apply I.
      * destruct O. split; simpl in *; try done.
      * others I.
  - (* Push1: lock tail_mu_ *)
    destruct (tail_owner s) eqn:Hto; [done |].
    exists hd, vs, bs, tn. eapply inv_update; simpl; try done; try apply I.
    + destruct O. split; simpl in *; try done.
      intros _. by apply I.
    + others I.
    + intros x Hx. by left.
  - (* Push2: tail_->data_ = data *)
    destruct (last_cons_is_Some hd bs) as [a Ha].
    pose proof (inv_tail _ _ _ _ _ _ I) as Htl. rewrite Ha in Htl. rewrite Htl.
    pose proof (chain_last _ _ _ _ _ _ (inv_chain _ _ _ _ _ _ I) Ha) as Hn.
    rewrite Hn. destruct O. simpl in *.
    assert (Hown : tail_owner s = Some t) by (by apply ok_tail0).
    rewrite (ok_tn0 eq_refl) in *. simpl.
    exists hd, vs, bs, (MkNode (Some data) None).
    eapply inv_update; simpl; try done; try apply I.
    + by rewrite Hown.
    + eapply chain_set_last; [apply I | done | apply I].
    + split; simpl in *; try done.
      rewrite lookup_insert_ne; [done |]. intros <-.
      apply (ok_private0 a eq_refl). by apply last_cons_elem.
    + others I.
      * intros x Hx. split; [|by eauto].
        rewrite lookup_insert_ne; [done |]. intros <-.
        eapply Hoff; [done | done |]. by apply last_cons_elem.
    + intros x Hx. by left.
  - (* Push3: tail_->next_ = std::move(p) *)
    destruct (last_cons_is_Some hd bs) as [a Ha].
    pose proof (inv_tail _ _ _ _ _ _ I) as Htl. rewrite Ha in Htl. rewrite Htl.
    pose proof (chain_last _ _ _ _ _ _ (inv_chain _ _ _ _ _ _ I) Ha) as Hn.
    rewrite Hn. destruct O. simpl in *.
    assert (Hown : tail_owner s = Some t) by (by apply ok_tail0).
    rewrite (ok_tn0 eq_refl) in *. simpl.
    exists hd, vs, bs, (MkNode (Some data) (Some p)).
    eapply inv_update; simpl; try done; try apply I.
    + by rewrite Hown.
    + eapply chain_set_last; [apply I | done | apply I].
    + split; simpl in *; try done.
      rewrite lookup_insert_ne; [done |]. intros <-.
      apply (ok_private0 a eq_refl). by apply last_cons_elem.
    + others I.
      * intros x Hx. split; [|by eauto].
        rewrite lookup_insert_ne; [done |]. intros <-.
        eapply Hoff; [done | done |]. by apply last_cons_elem.
    + intros x Hx. by left.
  - (* Push4: tail_ = new_tail *)
    destruct O. simpl in *.
    assert (Hown : tail_owner s = Some t) by (by apply ok_tail0).
    rewrite (ok_tn0 eq_refl) in *. simpl.
    assert (Hp : p ∉ hd :: bs) by (by apply ok_private0).
    exists hd, (vs ++ [data]), (bs ++ [p]), (MkNode None None).
    eapply inv_update; simpl; try done; try apply I.
    + by rewrite ChainFacts.last_snoc_cons.
    + rewrite app_comm_cons. apply NoDup_app. split_and!.
      * apply I.
      * intros x Hx Hx'. apply list_elem_of_singleton in Hx' as ->. done.
      * apply NoDup_singleton.
    + apply chain_snoc; [apply I | done].
    + rewrite !fmap_app. simpl. rewrite (inv_ghost _ _ _ _ _ _ I).
      by rewrite app_assoc.
    + intros x Hx. apply elem_of_app in Hx as [Hx | Hx].
      * by apply I.
      * apply list_elem_of_singleton in Hx as ->. simpl. by eapply lookup_lt_Some.
    + split; simpl in *; try done.
      rewrite tagged_snoc_eq, ok_pushed0. by rewrite app_nil_r.
    + others I.
      * intros Ho. split_and!; try done.
        -- intros a Ha. apply elem_of_app. by left.
        -- intros _. by destruct vs.
      * intros x Hx. split; [done |]. rewrite app_comm_cons.
        intros Hin. apply elem_of_app in Hin as [Hin | Hin].
        -- by eapply Hoff.
        -- apply list_elem_of_singleton in Hin as ->. apply Hne.
           eapply (inv_distinct _ _ _ _ _ _ I); eauto.
      * by apply tagged_snoc_ne.
  - (* Push5: unlock tail_mu_ *)
    destruct O. simpl in *.
    assert (Hown : tail_owner s = Some t) by (by apply ok_tail0).
    exists hd, vs, bs, tn.
    eapply inv_update; simpl; try done; try apply I.
    + intros _. by apply ok_tn0.
    + others I.
  - (* Push6: cv_.notify_one(); return *)
    destruct O. simpl in *.
    exists hd, vs, bs, tn.
    eapply inv_update; simpl; try done; try apply I.
    + split; simpl in *; try done.
      * by rewrite pushes_snoc, app_nil_r.
      * by rewrite pops_snoc, !app_nil_r in *.
      * rewrite fmap_app, <- app_assoc. done.
      * apply Forall_app. split; [done | by constructor].
    + others I.
  - (* Pop1: lock head_mu_ *)
    destruct (head_owner s) eqn:Hho; [done |].
    exists hd, vs, bs, tn. eapply inv_update; simpl; try done; try apply I.
    + destruct O. split; simpl in *; try done.
      intros _. by apply I.
    + others I.
  - (* Pop2: GetTail locks tail_mu_ *)
    destruct (tail_owner s) eqn:Hto; [done |].
    exists hd, vs, bs, tn. eapply inv_update; simpl; try done; try apply I.
    + destruct O. split; simpl in *; try done.
      intros _. by apply I.
    + others I.
  - (* Pop3: GetTail reads tail_ *)
    exists hd, vs, bs, tn. eapply inv_update; simpl; try done; try apply I.
    + destruct O. split; simpl in *; try done.
    + others I.
  - (* Pop4: GetTail unlocks tail_mu_ *)
    destruct O. simpl in *.
    assert (Hown : tail_owner s = Some t) by (by apply ok_tail0).
    exists hd, vs, bs, tn. eapply inv_update; simpl; try done; try apply I.
    + intros _. by apply ok_tn0.
    + split; simpl in *; try done.
      * destruct (last_cons_is_Some hd bs) as [a Ha]. exists a.
        rewrite ok_local0, (inv_tail _ _ _ _ _ _ I). split; [done |].
        by apply last_cons_elem.
    + others I.
  - (* Pop5: head_.get() == GetTail() ? *)
    destruct O. simpl in *.
    assert (Hown : head_owner s = Some t) by (by apply ok_head0).
    assert (Hne : bool_decide (head_ (queue s) = tl) = false → vs ≠ []).
    { intros Hb. apply bool_decide_eq_false in Hb.
      destruct ok_local0 as (a & -> & Ha). rewrite (ok_head_0 eq_refl) in Hb.
      apply elem_of_cons in Ha as [-> | Ha]; [done |].
      pose proof (chain_length _ _ _ _ _ (inv_chain _ _ _ _ _ _ I)) as Hl.
      intros ->. destruct bs; [by apply elem_of_nil in Ha | done]. }
    destruct k.
    + destruct (bool_decide (head_ (queue s) = tl)) eqn:Hb.
      * exists hd, vs, bs, tn. eapply inv_update; simpl; try done; try apply I.
        others I.
      * exists hd, vs, bs, tn. eapply inv_update; simpl; try done; try apply I.
        -- split; simpl in *; try done. split; [by apply Hne | done].
        -- others I.
    + destruct (bool_decide (head_ (queue s) = tl)) eqn:Hb.
      * exists hd, vs, bs, tn. eapply inv_update; simpl; try done; try apply I.
        -- intros _. by apply ok_head_0.
        -- others I.
      * exists hd, vs, bs, tn. eapply inv_update; simpl; try done; try apply I.
        -- split; simpl in *; try done. split; [by apply Hne | done].
        -- others I.
    + exists hd, vs, bs, tn. eapply inv_update; simpl; try done; try apply I.
      others I.
  - (* Pop6: old_head = std::move(head_) *)
    destruct O. simpl in *.
    assert (Hown : head_owner s = Some t) by (by apply ok_head0).
    rewrite (ok_head_0 eq_refl).
    exists hd, vs, bs, tn. eapply inv_update; simpl; try done; try apply I.
    + by rewrite Hown.
    + others I.
  - (* Pop7: head_ = std::move(old_head->next_) *)
    destruct O. simpl in *.
    assert (Hown : head_owner s = Some t) by (by apply ok_head0).
    destruct (ok_head_0 eq_refl) as [Hnull ->].
    pose proof (inv_chain _ _ _ _ _ _ I) as Hc.
    pose proof (inv_nodup _ _ _ _ _ _ I) as Hnd.
    destruct ok_local0 as [Hvs Hk].
    destruct vs as [|v vs]; [done |]. destruct bs as [|b bs]; [done |].
    destruct Hc as [Hhd Hc]. rewrite Hhd. simpl.
    apply NoDup_cons in Hnd as [Hhb Hnd].
    exists b, vs, bs, tn. eapply inv_update; simpl; try done; try apply I.
    + by apply chain_insert_ne.
    + rewrite fmap_app, <- app_assoc. apply I.
    + intros x Hx. apply elem_of_app in Hx as [Hx | Hx].
      * by apply I.
      * apply list_elem_of_singleton in Hx as ->. simpl. by eapply lookup_lt_Some.
    + split; simpl in *; try done.
      * intros x [= <-]. done.
      * rewrite lookup_insert_eq. eauto.
      * rewrite tagged_snoc_eq, ok_popped0, lookup_insert_eq. simpl.
        by rewrite app_nil_r.
    + others I.
      * intros x Hx. assert (x ∉ hd :: b :: bs) by eauto. split.
        -- rewrite lookup_insert_ne; [done |]. set_solver.
        -- set_solver.
      * by apply tagged_snoc_ne.
    + intros x [= <-]. right. intros t' th'' Hth'' Hx.
      assert (hd ∉ hd :: b :: bs) by eauto. set_solver.
  - (* Pop8: unlock head_mu_ *)
    destruct O. simpl in *.
    assert (Hown : head_owner s = Some t) by (by apply ok_head0).
    exists hd, vs, bs, tn. eapply inv_update; simpl; try done; try apply I.
    + intros _. by apply ok_head_0.
    + others I.
    + intros x Hx. by left.
  - (* Pop9: return old_head->data_; ~unique_ptr *)
    destruct O. simpl in *.
    destruct ok_local0 as [[v Hv] Hk]. rewrite Hv in *. simpl in *.
    rewrite (LockedQueueFacts.delete_chain_single _ _ _ Hv).
    assert (Hp : old_head ∉ hd :: bs) by (by apply ok_private0).
    exists hd, vs, bs, tn. eapply inv_update; simpl; try done; try apply I.
    + apply chain_delete_ne; [done | apply I].
    + split; simpl in *; try done.
      * by rewrite pushes_snoc, !app_nil_r in *.
      * by rewrite pops_snoc, fmap_app, app_nil_r.
      * rewrite fmap_app, <- app_assoc. done.
      * apply Forall_app. split; [done |]. constructor; [|done]. by destruct k.
    + others I.
      intros x Hx. split; [|by eauto].
      rewrite lookup_delete_ne; [done |]. intros <-.
      match goal with H : _ ≠ t |- _ => apply H end.
      eapply (inv_distinct _ _ _ _ _ _ I); eauto.
  - (* Unlock: unlock head_mu_; return *)
    destruct O. simpl in *.
    assert (Hown : head_owner s = Some t) by (by apply ok_head0).
    exists hd, vs, bs, tn. eapply inv_update; simpl; try done; try apply I.
    + intros _. by apply ok_head_0.
    + split; simpl in *; try done.
      * by rewrite pushes_snoc, !app_nil_r in *.
      * rewrite pops_snoc, !app_nil_r in *.
        by destruct k, r as [|[]|]; rewrite ?app_nil_r.
      * rewrite fmap_app, <- app_assoc. done.
      * apply Forall_app. split; [done |]. constructor; [|done].
        by destruct k, r as [|[]|].
    + others I.
  - (* Parked: cv_.wait returns *)
    exists hd, vs, bs, tn. eapply inv_update; simpl; try done; try apply I.
    + destruct O. split; simpl in *; try done.
    + others I.
Qed.
End Steps.

Section Runs.
Context {T : Type}.
Implicit Types (h : gmap nat (Node T)) (s : sys T) (c : pc T) (th : thread T).
Implicit Types (programs : list (list (call T))).

Lemma start_inv programs : Inv programs (start programs).
Proof.
  exists (fresh (dom (∅ : gmap nat (Node T)))), [], [], (MkNode None None).
  split; simpl.
  - done.
  - done.
  - done.
  - apply NoDup_singleton.
  - apply lookup_singleton_eq.
  - done.
  - intros x Hx. by apply elem_of_nil in Hx.
  - intros x Hx. by apply elem_of_nil in Hx.
  - apply length_map.
  - intros t th Hth. rewrite list_lookup_fmap in Hth.
    destruct (programs !! t) as [remaining|] eqn:Hp; [|done]. injection Hth as <-.
    split; simpl; try done.
  - intros t t' th th' x Hth _ Hx. rewrite list_lookup_fmap in Hth.
    destruct (programs !! t); [|done]. injection Hth as <-. done.
Qed.

Lemma run_inv programs schedule s :
  Inv programs s → ∃ s', run schedule s = Some s' ∧ Inv programs s'.
Proof.
  revert s. induction schedule as [|t rest IH]; intros s I; [by exists s |].
  simpl. pose proof (step_inv programs t s I) as Hs.
  destruct (step t s); [by apply IH | by apply IH | done].
Qed.



(** *** What the invariant says of the values *)

(** The payloads leave in the order in which the values were linked in. *)
Lemma Inv_fifo programs s :
  Inv programs s → (popped s).*2 `prefix_of` Some <$> (pushed s).*2.
Proof.
  intros (hd & vs & bs & tn & I). exists (Some <$> vs). apply I.
Qed.

(** [tail_] always points to a live node.  While no thread holds
    [head_mu_] the queue is as between two calls: [head_] points to a live
    node, and it is [tail_] exactly when every value linked in has been
    unlinked. *)
Lemma Inv_tail_live programs s :
  Inv programs s →
  ∃ a n, tail_ (queue s) = Some a ∧ nodes (queue s) !! a = Some n.
Proof.
  intros (hd & vs & bs & tn & I).
  destruct (last_cons_is_Some hd bs) as [a Ha]. exists a, tn.
  rewrite (inv_tail _ _ _ _ _ _ I). split; [done |].
  eapply chain_last; [apply I | done].
Qed.

Lemma Inv_quiescent programs s :
  Inv programs s → head_owner s = None →
  (∃ a n, head_ (queue s) = Some a ∧ nodes (queue s) !! a = Some n) ∧
  (head_ (queue s) = tail_ (queue s) ↔ (popped s).*2 = Some <$> (pushed s).*2).
Proof.
  intros (hd & vs & bs & tn & I) Hh.
  pose proof (inv_head _ _ _ _ _ _ I Hh) as Hhd.
  pose proof (inv_tail _ _ _ _ _ _ I) as Htl.
  pose proof (inv_nodup _ _ _ _ _ _ I) as Hnd.
  pose proof (chain_length _ _ _ _ _ (inv_chain _ _ _ _ _ _ I)) as Hl.
  pose proof (inv_ghost _ _ _ _ _ _ I) as Hg.
  rewrite Hhd, Htl, Hg. split.
  { destruct (chain_lookup _ _ _ _ _ hd (inv_chain _ _ _ _ _ _ I)) as [n Hn];
      [by left | by exists hd, n]. }
  split.
  - intros Heq. destruct bs as [|b bs].
    + destruct vs; [by rewrite app_nil_r | done].
    + exfalso. apply NoDup_cons in Hnd as [Hin _]. apply Hin.
      symmetry in Heq. change (last (b :: bs) = Some hd) in Heq.
      apply last_Some in Heq as [l ->]. set_solver.
  - intros Heq. rewrite <- (app_nil_r ((popped s).*2)) in Heq at 1.
    apply app_inv_head in Heq. destruct vs; [|done]. by destruct bs.
Qed.

(** *** One producer, one consumer *)












(** X15. Any number of threads, any programs, any schedule: no thread
    dereferences a null or dangling pointer; the payloads are unlinked in the
    order in which the values were linked in; [tail_] points to a live node
    and, while [head_mu_] is free, so does [head_], which then equals [tail_]
    exactly when nothing is queued; every thread got replies of the right
    type, the payloads it received are among those unlinked, in that order,
    and the values it pushed are among those linked in, in that order. *)
Theorem any_schedule_ok programs schedule :
  ∃ s, run schedule (start programs) = Some s ∧
    (popped s).*2 `prefix_of` (Some <$> (pushed s).*2) ∧
    (∃ a n, tail_ (queue s) = Some a ∧ nodes (queue s) !! a = Some n) ∧
    (head_owner s = None →
       (∃ a n, head_ (queue s) = Some a ∧ nodes (queue s) !! a = Some n) ∧
       (head_ (queue s) = tail_ (queue s) ↔
          (popped s).*2 = Some <$> (pushed s).*2)) ∧
    ∀ t th, threads s !! t = Some th →
      Forall well_replied (hist th) ∧
      (Some <$> pops (hist th)) `prefix_of` tagged t (popped s) ∧
      pushes (hist th) `prefix_of` tagged t (pushed s) ∧
      programs !! t = Some ((hist th).*1 ++ current (at_ th) ++ remaining th).
Proof.
  destruct (run_inv _ schedule _ (start_inv programs)) as (s & Hrun & I).
  exists s.
  split_and!;
    [done | by eapply Inv_fifo | by eapply Inv_tail_live | by eapply Inv_quiescent |].
  destruct I as (hd & vs & bs & tn & I). intros t th Hth.
  destruct (inv_threads _ _ _ _ _ _ I t th Hth)
    as [_ _ _ _ _ _ Hpu Hpo Hp Hw].
  split_and!; [done | | | done].
  - rewrite Hpo. by apply prefix_app_r.
  - rewrite Hpu. by apply prefix_app_r.
Qed.
End Runs.

(** The test itself, twenty values, the two threads taking turns: both run
    to completion and the consumer has received all twenty. *)
Lemma one_producer_one_consumer_completes :
  ∃ (s : sys nat) producer consumer,
    run (concat (replicate 400 [0; 1]))
        (start (one_producer_one_consumer (seq 0 20) 20)) = Some s ∧
    threads s = [producer; consumer] ∧
    at_ producer = Idle ∧ remaining producer = [] ∧
    at_ consumer = Idle ∧ remaining consumer = [] ∧
    (hist consumer).*2 = (λ v, RPtr (Some v)) <$> seq 0 20.
Proof.
  eexists _, _, _. split; [vm_compute; reflexivity |]. done.
Qed.

End FineGrainedFacts.

(** ** The queues: claims *)

Import History Refinement HistoryFacts.

Section QueueClaims.
Context {T : Type}.
Implicit Types (vs : list T) (cs : list (call T)) (w : env).


Lemma linked_tail (h : gmap nat (LockedQueue.Node T)) a vs bs :
  Chain.linked h a vs bs →
  ∃ t, last (a :: bs) = Some t ∧ h !! t = Some (LockedQueue.MkNode None None).
Proof.
  revert a bs. induction vs as [|v vs IH]; intros a [|b bs]; cbn; try done.
  - eauto.
  - intros [_ Hl]. destruct (IH b bs Hl) as (t & Ht & Hn). exists t.
    split; [|done]. by destruct bs.
Qed.

Lemma reached_logical {Q} `{!Abstract.ThreadSafeQueue Q T} `{!Abstract.Constructible Q}
    (rep : Q → list T → Prop) :
  tracks rep →
  (∀ b q w, Abstract.construct Abstract.raw (Env b []) = (Ok tt, q, w) → rep q []) →
  ∀ cs b q, reached Q cs b = Some q →
    rep q (logical [] cs (replies Q cs b)) ∧ (Fault ∉ replies Q cs b) ∧
    length (replies Q cs b) = length cs.
Proof.
  intros Htr Hctor cs b q. unfold reached, replies.
  destruct (Abstract.construct Abstract.raw (Env b [])) as [[[[]| | |] q0] w0] eqn:Hc;
    try done.
  intros [= <-].
  destruct (play_logical rep Htr cs q0 w0 [] (Hctor _ _ _ Hc))
    as (rs & q' & w' & -> & Hf & Hlen & Hrep).
  done.
Qed.

Lemma LockedQueue_constructed b (q : LockedQueue.t T) w :
  Abstract.construct Abstract.raw (Env b []) = (Ok tt, q, w) →
  Chain.represents q [].
Proof.
  cbn. destruct b as [|b].
  - by rewrite LockedQueueFacts.LockedQueue_throw.
  - destruct (LockedQueueFacts.LockedQueue_ok (T:=T) (Env (S b) []) b eq_refl)
      as (q0 & -> & Hrep). by intros [= <- _].
Qed.

Lemma LockedQueue_reached cs b :
  0 < b → ∃ q, reached (LockedQueue.t T) cs b = Some q.
Proof.
  intros Hb. destruct b as [|b]; [lia|]. unfold reached. cbn.
  destruct (LockedQueueFacts.LockedQueue_ok (T:=T) (Env (S b) []) b eq_refl)
    as (q0 & -> & Hrep). eauto.
Qed.

(** C3. The invariant of [LockedQueue]: after the constructor and after
    any history of [Push], [TryPop], [WaitAndPop] (both forms of each) and
    [Empty], whatever memory was available, [head_] is not null and points to
    a live node, [tail_] points to the dummy node (no data, no successor),
    [head_ == tail_] exactly when the queue is logically empty, no call has
    dereferenced a null or dangling pointer, and [Empty()] on the fresh queue
    answers true. *)
Theorem LockedQueue_invariant cs b :
  0 < b →
  ∃ q, reached (LockedQueue.t T) cs b = Some q ∧
    (∃ a n, LockedQueue.head_ q = Some a ∧ LockedQueue.nodes q !! a = Some n) ∧
    (∃ t, LockedQueue.tail_ q = Some t ∧
          LockedQueue.nodes q !! t = Some (LockedQueue.MkNode None None)) ∧
    (LockedQueue.head_ q = LockedQueue.tail_ q ↔
       logical [] cs (replies (LockedQueue.t T) cs b) = []) ∧
    (Fault ∉ replies (LockedQueue.t T) cs b) ∧
    replies (LockedQueue.t T) [Empty] b = [Ok (Bool true)].
Proof.
  intros Hb. destruct (LockedQueue_reached cs b Hb) as [q Hq]. exists q.
  split; [done|].
  destruct (reached_logical Chain.represents LockedQueue_tracks
              LockedQueue_constructed cs b q Hq) as (Hrep & Hf & _).
  split; [by eapply ChainFacts.represents_head|].
  split.
  { destruct Hrep as (a & bs & _ & Ht & _ & Hl & _).
    destruct (linked_tail _ _ _ _ Hl) as (t & Hlast & Hn).
    exists t. by rewrite Ht. }
  split; [by apply ChainFacts.represents_empty_iff|].
  split; [done|].
  destruct b as [|b']; [lia|]. unfold replies. cbn.
  destruct (LockedQueueFacts.LockedQueue_ok (T:=T) (Env (S b') []) b' eq_refl)
    as (q0 & -> & Hrep0).
  cbn. unfold mbind, M_bind, bind. rewrite LockedQueueFacts.Empty_eq. cbn.
  rewrite bool_decide_eq_true_2; [done|].
  by apply (ChainFacts.represents_empty_iff q0 []).
Qed.

(** *** Non-blocking pops on an empty queue *)

Lemma times_idle {Q A} (m : M Q A) (x : A) (q : Q) es0 :
  (∀ w, m q w = (Ok x, q, logged w (budget w) es0)) →
  forallb (λ e, negb (parks e)) es0 = true →
  ∀ n w, ∃ es, times n m q w = (Ok (replicate n x), q, logged w (budget w) es) ∧
               forallb (λ e, negb (parks e)) es = true.
Proof.
  intros Hm Hes. induction n as [|n IH]; intros w.
  - exists []. cbn. unfold logged. rewrite app_nil_r. by destruct w.
  - destruct (IH (logged w (budget w) es0)) as (es & Ht & Hp).
    exists (es0 ++ es). split.
    + cbn. unfold mbind, M_bind, bind. rewrite Hm, Ht. cbn.
      unfold logged. cbn. by rewrite app_assoc.
    + rewrite forallb_app. by rewrite Hes, Hp.
Qed.

Lemma LockedQueue_empty_head (q : LockedQueue.t T) w :
  result (LockedQueue.Empty q w) = Ok true → LockedQueue.head_ q = LockedQueue.tail_ q.
Proof.
  rewrite LockedQueueFacts.Empty_eq. cbn. intros [= He].
  by apply bool_decide_eq_true_1 in He.
Qed.
End QueueClaims.

Ltac list_idle_tac :=
  intros [[|x l]] w n He; [|by cbn in He];
  eapply times_idle; [intros w'; cbn; munfold; cbn; unfold logged;
                      rewrite <- ?app_assoc; reflexivity | reflexivity].

(** C9. Every queue variant: on an empty queue a non-blocking pop (either
    form of [TryPop], and [TrySteal]) returns "no value" (a null pointer, or
    false with the caller's object as it was), without parking, and leaves
    queue and memory unchanged; so do any number of such calls in a row.  The
    outcome is a normal return, not an exception. *)
Theorem try_pop_on_empty {T R : Type} (value : T) (task : FunctionWrapper.t R) :
  idle_on_empty ThreadSafeQueue.Empty (ThreadSafeQueue.TryPop (T:=T)) None ∧
  idle_on_empty ThreadSafeQueue.Empty (ThreadSafeQueue.TryPop_to value) (false, value) ∧
  idle_on_empty SimpleLockedQueue.Empty (SimpleLockedQueue.TryPop (T:=T)) None ∧
  idle_on_empty SimpleLockedQueue.Empty (SimpleLockedQueue.TryPop_to value) (false, value) ∧
  idle_on_empty LockedQueue.Empty (LockedQueue.TryPop (T:=T)) None ∧
  idle_on_empty LockedQueue.Empty (LockedQueue.TryPop_to value) (false, value) ∧
  idle_on_empty WorkStealingQueue.Empty (WorkStealingQueue.TryPop task) (false, task) ∧
  idle_on_empty WorkStealingQueue.Empty (WorkStealingQueue.TrySteal task) (false, task) ∧
  idle_on_empty ThreadSafeQueue1.Empty (ThreadSafeQueue1.TryPop (T:=T)) None ∧
  idle_on_empty ThreadSafeQueue1.Empty (ThreadSafeQueue1.TryPop_to value) (false, value) ∧
  idle_on_empty SimpleLockedQueue1.Empty (SimpleLockedQueue1.TryPop (T:=T)) None ∧
  idle_on_empty SimpleLockedQueue1.Empty (SimpleLockedQueue1.TryPop_to value) (false, value).
Proof.
  repeat split; try list_idle_tac.
  - intros q w n He. apply LockedQueue_empty_head in He.
    eapply times_idle; [intros w'; by apply LockedQueueFacts.TryPop_empty | reflexivity].
  - intros q w n He. apply LockedQueue_empty_head in He.
    eapply times_idle; [intros w'; by apply LockedQueueFacts.TryPop_to_empty | reflexivity].
Qed.

Lemma try_pop_on_empty_witness :
  result (ThreadSafeQueue.Empty (T:=nat) (ThreadSafeQueue.Make []) (Env 0 [])) = Ok true ∧
  ∃ es, times 3 (ThreadSafeQueue.TryPop (T:=nat)) (ThreadSafeQueue.Make []) (Env 0 []) =
          (Ok [None; None; None], ThreadSafeQueue.Make [], logged (Env 0 []) 0 es) ∧
        forallb (λ e, negb (parks e)) es = true.
Proof.
  split; [reflexivity|].
  destruct (try_pop_on_empty (T:=nat) (R:=nat) 0 FunctionWrapper.FunctionWrapper) as [H _].
  apply (H (ThreadSafeQueue.Make []) (Env 0 []) 3). reflexivity.
Defined.


Ltac list_untouched_tac :=
  intros [[|x l]] w value v'; cbn; munfold; cbn; [by intros [= <-]|];
  by repeat (case_match; simplify_eq/=; try done).

(** C10. A pop through an out-parameter that returns false has not written
    to the out-parameter. *)
Theorem out_param_untouched {T R : Type} :
  untouched_on_false (ThreadSafeQueue.TryPop_to (T:=T)) ∧
  untouched_on_false (SimpleLockedQueue.TryPop_to (T:=T)) ∧
  untouched_on_false (LockedQueue.TryPop_to (T:=T)) ∧
  untouched_on_false (WorkStealingQueue.TryPop (R:=R)) ∧
  untouched_on_false (WorkStealingQueue.TrySteal (R:=R)) ∧
  untouched_on_false (ThreadSafeQueue1.TryPop_to (T:=T)) ∧
  untouched_on_false (SimpleLockedQueue1.TryPop_to (T:=T)).
Proof.
  split_and!; try list_untouched_tac.
  - intros q w value v'.
    unfold LockedQueue.TryPop_to, LockedQueue.TryPopHead_to, LockedQueue.GetTail,
      LockedQueue.PopHead, LockedQueue.destroy, LockedQueue.load, LockedQueue.store.
    munfold. cbn.
    case_bool_decide; cbn; [by intros [= <-]|].
    repeat (case_match; simplify_eq/=; try done).
Qed.

Lemma out_param_untouched_witness :
  result (LockedQueue.TryPop_to 5 (LockedQueue.Make {[ 0 := LockedQueue.MkNode None None ]} (Some 0) (Some 0)) (Env 0 []))
    = Ok (false, 5) ∧ 5 = 5.
Proof.
  split; [vm_compute; reflexivity|].
  destruct (out_param_untouched (T:=nat) (R:=nat)) as (_ & _ & H & _).
  apply (H (LockedQueue.Make {[ 0 := LockedQueue.MkNode None None ]} (Some 0) (Some 0)) (Env 0 []) 5 5).
  vm_compute. reflexivity.
Defined.

(** *** Allocation and the pops *)

Section Payload.
Context {T : Type}.


Lemma ThreadSafeQueue_constructed b (q : ThreadSafeQueue.t T) w :
  Abstract.construct Abstract.raw (Env b []) = (Ok tt, q, w) → holds_TSQ q [].
Proof. cbn. by intros [= <- _]. Qed.

Lemma SimpleLockedQueue_constructed b (q : SimpleLockedQueue.t T) w :
  Abstract.construct Abstract.raw (Env b []) = (Ok tt, q, w) → holds_SLQ q [].
Proof. cbn. by intros [= <- _]. Qed.





(** The first design, for contrast: with no memory left its value-returning
    pops throw while the value stays in the queue. *)
Lemma ThreadSafeQueue1_pop_throws (v : T) (l : list T) :
  run ThreadSafeQueue1.WaitAndPop (ThreadSafeQueue1.Make (v :: l)) 0 =
    (Throw, ThreadSafeQueue1.Make (v :: l), Env 0 [EvLock mu_; EvUnlock mu_]) ∧
  run ThreadSafeQueue1.TryPop (ThreadSafeQueue1.Make (v :: l)) 0 =
    (Throw, ThreadSafeQueue1.Make (v :: l), Env 0 [EvLock mu_; EvUnlock mu_]) ∧
  run SimpleLockedQueue1.WaitAndPop (SimpleLockedQueue1.Make (v :: l)) 0 =
    (Throw, SimpleLockedQueue1.Make (v :: l), Env 0 [EvLock mu_; EvUnlock mu_]) ∧
  run SimpleLockedQueue1.TryPop (SimpleLockedQueue1.Make (v :: l)) 0 =
    (Throw, SimpleLockedQueue1.Make (v :: l), Env 0 [EvLock mu_; EvUnlock mu_]).
Proof. done. Qed.
End Payload.


Lemma LockedQueue_invariant_witness :
  0 < 1 ∧
  ∃ q, reached (LockedQueue.t nat) [Push 1; TryPop; Push 2; Empty] 1 = Some q ∧
       LockedQueue.head_ q = LockedQueue.tail_ q.
Proof.
  split; [lia|].
  destruct (LockedQueue_invariant (T:=nat) [Push 1; TryPop; Push 2; Empty] 1)
    as (q & Hq & _ & _ & Hemp & _); [lia|].
  exists q. split; [exact Hq|]. apply Hemp. vm_compute. reflexivity.
Defined.


(** ** The work-stealing deque: claims *)

Ltac mcompute :=
  munfold; cbn; unfold logged; rewrite <- ?app_assoc; cbn.

Section Deque.
Context {R : Type}.
Implicit Types (A B C value : FunctionWrapper.t R).

(** The owner end is the front of [q_], the thieves' end is the back. *)
Lemma WorkStealingQueue_Push_eq data (l : list (FunctionWrapper.t R)) w :
  WorkStealingQueue.Push data (WorkStealingQueue.Make l) w =
    (Ok tt, WorkStealingQueue.Make (data :: l),
     logged w (budget w) [EvLock mu_; EvUnlock mu_]).
Proof. unfold WorkStealingQueue.Push. by mcompute. Qed.

Lemma WorkStealingQueue_TryPop_eq value data (l : list (FunctionWrapper.t R)) w :
  WorkStealingQueue.TryPop value (WorkStealingQueue.Make (data :: l)) w =
    (Ok (true, data), WorkStealingQueue.Make l,
     logged w (budget w) [EvLock mu_; EvUnlock mu_]).
Proof. unfold WorkStealingQueue.TryPop. by mcompute. Qed.

Lemma WorkStealingQueue_TrySteal_eq value data (l : list (FunctionWrapper.t R)) w :
  WorkStealingQueue.TrySteal value (WorkStealingQueue.Make (l ++ [data])) w =
    (Ok (true, data), WorkStealingQueue.Make l,
     logged w (budget w) [EvLock mu_; EvUnlock mu_]).
Proof.
  assert (empty (l ++ [data]) = false) as He by (by destruct l).
  unfold WorkStealingQueue.TrySteal, back, pop_back. munfold.
  cbn [WorkStealingQueue.q_]. rewrite He, last_snoc, removelast_last.
  by mcompute.
Qed.

Lemma WorkStealingQueue_empty_eq value (steal : bool) w :
  (if steal then WorkStealingQueue.TrySteal value else WorkStealingQueue.TryPop value)
    (WorkStealingQueue.Make []) w =
    (Ok (false, value), WorkStealingQueue.Make (R:=R) [],
     logged w (budget w) [EvLock mu_; EvUnlock mu_]).
Proof.
  destruct steal; unfold WorkStealingQueue.TrySteal, WorkStealingQueue.TryPop;
    by mcompute.
Qed.

(** C4. After the owner has pushed A, B, C in that order on a new
    [WorkStealingQueue], three [TryPop] calls yield C, then B, then A; a
    [TrySteal] made instead, before any pop, yields A. *)
Theorem owner_lifo_thief_fifo A B C value b :
  let pushed_ABC : M (WorkStealingQueue.t R) unit :=
    WorkStealingQueue.Push A;; WorkStealingQueue.Push B;; WorkStealingQueue.Push C in
  result (run (pushed_ABC;; times 3 (WorkStealingQueue.TryPop value))
              WorkStealingQueue.WorkStealingQueue b)
    = Ok [(true, C); (true, B); (true, A)] ∧
  result (run (pushed_ABC;; WorkStealingQueue.TrySteal value)
              WorkStealingQueue.WorkStealingQueue b)
    = Ok (true, A).
Proof. done. Qed.
End Deque.

(** ** More of the queues *)

Section MoreQueues.
Context {T : Type}.
Implicit Types (vs : list T) (cs : list (call T)) (w : env).

(** X1. Given the memory for its pushes, each of [LockedQueue],
    [ThreadSafeQueue] and [SimpleLockedQueue] answers every history of
    calls, call by call, as a plain sequence does that is pushed at the back
    and popped at the front: the same values, [false] or a null pointer from
    a [TryPop] on the empty queue, a [WaitAndPop] that parks exactly where
    the sequence is empty.  So the three classes cannot be told apart by
    their answers. *)
Theorem queues_answer_as_the_sequence cs b :
  2 * length cs < b →
  replies (LockedQueue.t T) cs b = (fifo_play cs []).1 ∧
  replies (ThreadSafeQueue.t T) cs b = (fifo_play cs []).1 ∧
  replies (SimpleLockedQueue.t T) cs b = (fifo_play cs []).1.
Proof.
  intros Hb. split_and!.
  - by apply LockedQueue_replies.
  - by apply ThreadSafeQueue_replies.
  - by apply SimpleLockedQueue_replies.
Qed.

Ltac legacy_tracks_tac :=
  intros c [q] [b tr] vs Hrep; simpl in Hrep; subst q;
  destruct c; destruct vs as [|v0 vs]; try destruct b as [|b];
  cbn; unfold alloc; munfold; cbn;
  (eexists _, _, _; split; [reflexivity|]; split; [done|];
   unfold push_back; cbn; done).

Lemma ThreadSafeQueue1_tracks : tracks (Legacy.holds_TSQ1 (T:=T)).
Proof. unfold tracks, Legacy.holds_TSQ1. legacy_tracks_tac. Qed.

Lemma SimpleLockedQueue1_tracks : tracks (Legacy.holds_SLQ1 (T:=T)).
Proof. unfold tracks, Legacy.holds_SLQ1. legacy_tracks_tac. Qed.

Lemma ThreadSafeQueue1_constructed b (q : ThreadSafeQueue1.t T) w :
  Abstract.construct Abstract.raw (Env b []) = (Ok tt, q, w) → Legacy.holds_TSQ1 q [].
Proof. by intros [= <- _]. Qed.

Lemma SimpleLockedQueue1_constructed b (q : SimpleLockedQueue1.t T) w :
  Abstract.construct Abstract.raw (Env b []) = (Ok tt, q, w) → Legacy.holds_SLQ1 q [].
Proof. by intros [= <- _]. Qed.

(** X2. The first designs, [ThreadSafeQueue1] and [SimpleLockedQueue1]:
    whatever memory is left, no call of any history crashes and the queue
    holds the values pushed less the values delivered, in order; but on a
    non-empty queue the value-returning pops throw [std::bad_alloc] when no
    memory is left, with the mutex released and the queue as it was, while
    the pops through a [T*] deliver the front value all the same, and with
    memory the value-returning pops deliver it too. *)
Theorem legacy_pops_throw_and_keep_the_value cs b :
  (∃ q, reached (ThreadSafeQueue1.t T) cs b = Some q ∧
     ThreadSafeQueue1.queue_ q = logical [] cs (replies (ThreadSafeQueue1.t T) cs b) ∧
     (Fault ∉ replies (ThreadSafeQueue1.t T) cs b) ∧
     ∀ v l value, ThreadSafeQueue1.queue_ q = v :: l →
       run ThreadSafeQueue1.WaitAndPop q 0 = (Throw, q, Env 0 [EvLock mu_; EvUnlock mu_]) ∧
       run ThreadSafeQueue1.TryPop q 0 = (Throw, q, Env 0 [EvLock mu_; EvUnlock mu_]) ∧
       result (run (ThreadSafeQueue1.WaitAndPop_to value) q 0) = Ok v ∧
       result (run (ThreadSafeQueue1.TryPop_to value) q 0) = Ok (true, v) ∧
       ∀ b', result (run ThreadSafeQueue1.WaitAndPop q (S b')) = Ok (Some v) ∧
             result (run ThreadSafeQueue1.TryPop q (S b')) = Ok (Some v)) ∧
  (∃ q, reached (SimpleLockedQueue1.t T) cs b = Some q ∧
     SimpleLockedQueue1.queue_ q = logical [] cs (replies (SimpleLockedQueue1.t T) cs b) ∧
     (Fault ∉ replies (SimpleLockedQueue1.t T) cs b) ∧
     ∀ v l value, SimpleLockedQueue1.queue_ q = v :: l →
       run SimpleLockedQueue1.WaitAndPop q 0 = (Throw, q, Env 0 [EvLock mu_; EvUnlock mu_]) ∧
       run SimpleLockedQueue1.TryPop q 0 = (Throw, q, Env 0 [EvLock mu_; EvUnlock mu_]) ∧
       result (run (SimpleLockedQueue1.WaitAndPop_to value) q 0) = Ok v ∧
       result (run (SimpleLockedQueue1.TryPop_to value) q 0) = Ok (true, v) ∧
       ∀ b', result (run SimpleLockedQueue1.WaitAndPop q (S b')) = Ok (Some v) ∧
             result (run SimpleLockedQueue1.TryPop q (S b')) = Ok (Some v)).
Proof.
  split.
  - assert (∃ q, reached (ThreadSafeQueue1.t T) cs b = Some q) as [q Hq] by (by eexists).
    exists q. split; [done |].
    destruct (reached_logical Legacy.holds_TSQ1 ThreadSafeQueue1_tracks
                ThreadSafeQueue1_constructed cs b q Hq) as (Hrep & Hf & _).
    split_and!; [done | done |].
    intros v l value Hl. destruct q as [l0]. simpl in Hl. subst l0. by split_and!.
  - assert (∃ q, reached (SimpleLockedQueue1.t T) cs b = Some q) as [q Hq] by (by eexists).
    exists q. split; [done |].
    destruct (reached_logical Legacy.holds_SLQ1 SimpleLockedQueue1_tracks
                SimpleLockedQueue1_constructed cs b q Hq) as (Hrep & Hf & _).
    split_and!; [done | done |].
    intros v l value Hl. destruct q as [l0]. simpl in Hl. subst l0. by split_and!.
Qed.

Lemma reached_represents cs b (q : LockedQueue.t T) :
  reached (LockedQueue.t T) cs b = Some q → ∃ vs, Chain.represents q vs.
Proof.
  intros Hq.
  destruct (reached_logical Chain.represents LockedQueue_tracks
              LockedQueue_constructed cs b q Hq) as (Hrep & _ & _).
  eauto.
Qed.


(** *** The nodes of a [LockedQueue] *)

Lemma represents_size (q : LockedQueue.t T) vs :
  Chain.represents q vs → size (LockedQueue.nodes q) = S (length vs).
Proof.
  intros (a & bs & _ & _ & Hnd & Hl & Hdom).
  rewrite <- size_dom, Hdom, size_list_to_set by done.
  cbn. f_equal. symmetry. by eapply ChainFacts.linked_length.
Qed.

Lemma delete_chain_linked (h : gmap nat (LockedQueue.Node T)) vs : ∀ a bs fuel,
  Chain.linked h a vs bs → length (a :: bs) ≤ fuel →
  LockedQueue.delete_chain fuel h (Some a) = foldr delete h (a :: bs).
Proof.
  induction vs as [|v vs IH]; intros a [|b bs] fuel Hl Hf; cbn in Hl; try done.
  - destruct fuel as [|fuel]; [cbn in Hf; lia |]. cbn. rewrite Hl. cbn.
    by destruct fuel.
  - destruct Hl as [Ha Hl]. destruct fuel as [|fuel]; [cbn in Hf; lia |].
    cbn [LockedQueue.delete_chain]. rewrite Ha. cbn [LockedQueue.next_].
    rewrite (IH b bs fuel Hl) by (cbn in *; lia). done.
Qed.

Lemma dom_foldr_delete (h : gmap nat (LockedQueue.Node T)) (l : list nat) :
  dom (foldr delete h l) = dom h ∖ list_to_set l.
Proof.
  induction l as [|a l IH]; cbn; [set_solver |].
  rewrite dom_delete_L, IH. set_solver.
Qed.

(** X4. A [LockedQueue] owns exactly its chain: after any history it has
    one node more than values queued (the dummy), and destroying [head_], as
    the destructor of the queue does, deletes them all. *)
Theorem LockedQueue_owns_its_nodes cs b (q : LockedQueue.t T) :
  reached (LockedQueue.t T) cs b = Some q →
  size (LockedQueue.nodes q) =
    S (length (logical [] cs (replies (LockedQueue.t T) cs b))) ∧
  let r := run (LockedQueue.destroy (LockedQueue.head_ q)) q 0 in
  result r = Ok tt ∧ LockedQueue.nodes (final r) = ∅.
Proof.
  intros Hq.
  destruct (reached_logical Chain.represents LockedQueue_tracks
              LockedQueue_constructed cs b q Hq) as (Hrep & _ & _).
  split; [by apply represents_size |].
  pose proof (represents_size _ _ Hrep) as Hsz.
  destruct Hrep as (a & bs & Hh & _ & Hnd & Hl & Hdom).
  assert (is_Some (LockedQueue.nodes q !! a)) as [n Hn].
  { apply elem_of_dom. rewrite Hdom. set_solver. }
  unfold run, result, final, LockedQueue.destroy, LockedQueue.load. rewrite Hh.
  munfold. cbn. rewrite Hn. cbn. split; [done |].
  rewrite (delete_chain_linked _ _ a bs _ Hl).
  - apply dom_empty_iff_L. rewrite dom_foldr_delete, Hdom. set_solver.
  - rewrite Hsz. cbn. erewrite <- ChainFacts.linked_length by done. lia.
Qed.

(** *** Lock discipline *)

Ltac simple_held_tac q c vs b' Hrep :=
  destruct q as [l]; cbn in Hrep; subst l;
  destruct c; destruct vs as [|v0 vs]; destruct b' as [|b'];
  reflexivity.

(** X5. Whatever a call on a queue does, it leaves with no mutex held: it
    returns, throws or parks with every mutex it locked released again, the
    last one locked first; it never locks a mutex twice and never asks for
    [head_mu_] while it holds [tail_mu_]; the wait on the condition variable
    is made with the one mutex it releases.  For the five queue classes, on
    every state a history leads to, with any memory. *)
Theorem no_call_leaves_with_a_mutex (c : call T) cs b b' :
  (∀ q, reached (LockedQueue.t T) cs b = Some q →
     held [] (events (run (perform c) q b')) = Some []) ∧
  (∀ q, reached (ThreadSafeQueue.t T) cs b = Some q →
     held [] (events (run (perform c) q b')) = Some []) ∧
  (∀ q, reached (SimpleLockedQueue.t T) cs b = Some q →
     held [] (events (run (perform c) q b')) = Some []) ∧
  (∀ q, reached (ThreadSafeQueue1.t T) cs b = Some q →
     held [] (events (run (perform c) q b')) = Some []) ∧
  (∀ q, reached (SimpleLockedQueue1.t T) cs b = Some q →
     held [] (events (run (perform c) q b')) = Some []).
Proof.
  split_and!; intros q Hq.
  - destruct (reached_represents _ _ _ Hq) as [vs Hrep].
    pose proof (ChainFacts.represents_empty_iff _ _ Hrep) as Hemp.
    unfold run, events.
    destruct c; cbn -[LockedQueue.Push LockedQueue.TryPop LockedQueue.TryPop_to
      LockedQueue.WaitAndPop LockedQueue.WaitAndPop_to LockedQueue.Empty];
      unfold mbind, M_bind, bind.
    + destruct (decide (b' < 2)) as [Hb | Hb].
      * destruct (LockedQueueFacts.Push_throw q (Env b' []) v Hb) as (es & -> & [-> | ->]);
          reflexivity.
      * destruct b' as [|[|b'']]; [lia | lia |].
        destruct (LockedQueueFacts.Push_ok q (Env (S (S b'')) []) vs v b'' Hrep eq_refl)
          as (q' & -> & _). reflexivity.
    + destruct vs as [|v0 vs].
      * rewrite LockedQueueFacts.WaitAndPop_to_empty by (by apply Hemp). reflexivity.
      * destruct (LockedQueueFacts.WaitAndPop_to_nonempty q (Env b' []) v0 vs value Hrep)
          as (q' & -> & _). reflexivity.
    + destruct vs as [|v0 vs].
      * rewrite LockedQueueFacts.WaitAndPop_empty by (by apply Hemp). reflexivity.
      * destruct (LockedQueueFacts.WaitAndPop_nonempty q (Env b' []) v0 vs Hrep)
          as (q' & -> & _). reflexivity.
    + destruct vs as [|v0 vs].
      * rewrite LockedQueueFacts.TryPop_to_empty by (by apply Hemp). reflexivity.
      * destruct (LockedQueueFacts.TryPop_to_nonempty q (Env b' []) v0 vs value Hrep)
          as (q' & -> & _). reflexivity.
    + destruct vs as [|v0 vs].
      * rewrite LockedQueueFacts.TryPop_empty by (by apply Hemp). reflexivity.
      * destruct (LockedQueueFacts.TryPop_nonempty q (Env b' []) v0 vs Hrep)
          as (q' & -> & _). reflexivity.
    + rewrite LockedQueueFacts.Empty_eq. reflexivity.
  - destruct (reached_logical holds_TSQ ThreadSafeQueue_tracks
                ThreadSafeQueue_constructed cs b q Hq) as (Hrep & _ & _).
    set (vs := logical [] cs (replies (ThreadSafeQueue.t T) cs b)) in Hrep. clearbody vs.
    unfold holds_TSQ in Hrep. simple_held_tac q c vs b' Hrep.
  - destruct (reached_logical holds_SLQ SimpleLockedQueue_tracks
                SimpleLockedQueue_constructed cs b q Hq) as (Hrep & _ & _).
    set (vs := logical [] cs (replies (SimpleLockedQueue.t T) cs b)) in Hrep. clearbody vs.
    unfold holds_SLQ in Hrep. simple_held_tac q c vs b' Hrep.
  - destruct (reached_logical Legacy.holds_TSQ1 ThreadSafeQueue1_tracks
                ThreadSafeQueue1_constructed cs b q Hq) as (Hrep & _ & _).
    set (vs := logical [] cs (replies (ThreadSafeQueue1.t T) cs b)) in Hrep. clearbody vs.
    unfold Legacy.holds_TSQ1 in Hrep. simple_held_tac q c vs b' Hrep.
  - destruct (reached_logical Legacy.holds_SLQ1 SimpleLockedQueue1_tracks
                SimpleLockedQueue1_constructed cs b q Hq) as (Hrep & _ & _).
    set (vs := logical [] cs (replies (SimpleLockedQueue1.t T) cs b)) in Hrep. clearbody vs.
    unfold Legacy.holds_SLQ1 in Hrep. simple_held_tac q c vs b' Hrep.
Qed.
End MoreQueues.

Lemma queues_answer_as_the_sequence_witness :
  2 * length [Push 1; TryPop; TryPop; @WaitAndPop nat] < 9 ∧
  replies (LockedQueue.t nat) [Push 1; TryPop; TryPop; WaitAndPop] 9 =
    [Ok Done; Ok (Pointer (Some 1)); Ok (Pointer None); Blocks].
Proof.
  split; [simpl; lia |].
  destruct (queues_answer_as_the_sequence (T:=nat) [Push 1; TryPop; TryPop; WaitAndPop] 9)
    as [H _]; [simpl; lia |].
  exact H.
Defined.


Lemma LockedQueue_owns_its_nodes_witness :
  ∃ q, reached (LockedQueue.t nat) [Push 1; Push 2; TryPop; Push 3] 7 = Some q ∧
       size (LockedQueue.nodes q) = 3 ∧
       LockedQueue.nodes (final (run (LockedQueue.destroy (LockedQueue.head_ q)) q 0)) = ∅.
Proof.
  eexists. split; [vm_compute; reflexivity |].
  destruct (LockedQueue_owns_its_nodes (T:=nat) [Push 1; Push 2; TryPop; Push 3] 7 _ eq_refl)
    as (Hsz & _ & Hnodes).
  split; [exact Hsz | exact Hnodes].
Defined.

(** ** More of the deque *)

Section MoreDeque.
Context {R : Type}.
Implicit Types (l d m : list (FunctionWrapper.t R)) (value x y : FunctionWrapper.t R).
Implicit Types (w : env).

Lemma each_Push l : ∀ d w,
  ∃ w', each l WorkStealingQueue.Push (WorkStealingQueue.Make d) w =
          (Ok tt, WorkStealingQueue.Make (rev l ++ d), w').
Proof.
  induction l as [|x l IH]; intros d w; [by eexists |].
  cbn [each]. unfold mbind, M_bind, bind. rewrite WorkStealingQueue_Push_eq.
  destruct (IH (x :: d) (logged w (budget w) [EvLock mu_; EvUnlock mu_])) as [w' ->].
  exists w'. cbn. by rewrite <- app_assoc.
Qed.

Lemma times_TryPop value l : ∀ d w,
  ∃ w', times (length l) (WorkStealingQueue.TryPop value) (WorkStealingQueue.Make (l ++ d)) w =
          (Ok (map (pair true) l), WorkStealingQueue.Make d, w').
Proof.
  induction l as [|x l IH]; intros d w; [by eexists |].
  cbn [length times app]. unfold mbind, M_bind, bind.
  rewrite WorkStealingQueue_TryPop_eq.
  destruct (IH d (logged w (budget w) [EvLock mu_; EvUnlock mu_])) as [w' ->].
  by exists w'.
Qed.

Lemma times_TrySteal value l : ∀ d w,
  ∃ w', times (length l) (WorkStealingQueue.TrySteal value) (WorkStealingQueue.Make (d ++ l)) w =
          (Ok (map (pair true) (rev l)), WorkStealingQueue.Make d, w').
Proof.
  induction l as [|x l IH] using rev_ind; intros d w.
  - rewrite app_nil_r. by eexists.
  - rewrite length_app, Nat.add_comm. cbn [length Nat.add times].
    unfold mbind, M_bind, bind. rewrite app_assoc, WorkStealingQueue_TrySteal_eq.
    destruct (IH d (logged w (budget w) [EvLock mu_; EvUnlock mu_])) as [w' ->].
    exists w'. by rewrite rev_unit.
Qed.

(** X6. The deque in general.  After the owner has pushed the wrappers [l],
    in that order, on a deque that held [d], as many [TryPop] calls hand
    them back latest first and leave [d] as it was; [TrySteal] calls instead
    take the oldest wrapper of the deque first: those of [d] from its back,
    then those of [l] in the order they were pushed, until the deque is
    empty. *)
Theorem deque_owner_lifo_thieves_fifo l d value b :
  let pushed := each l WorkStealingQueue.Push in
  let q := WorkStealingQueue.Make d in
  (let r := run (pushed;; times (length l) (WorkStealingQueue.TryPop value)) q b in
   result r = Ok (map (pair true) (rev l)) ∧ final r = q) ∧
  (let r := run (pushed;; times (length (l ++ d)) (WorkStealingQueue.TrySteal value)) q b in
   result r = Ok (map (pair true) (rev d ++ l)) ∧ final r = WorkStealingQueue.Make []).
Proof.
  intros pushed q. unfold pushed, q, run, result, final. split.
  - unfold mbind, M_bind, bind.
    destruct (each_Push l d (Env b [])) as [w1 ->].
    rewrite <- (length_rev l).
    destruct (times_TryPop value (rev l) d w1) as [w2 ->]. done.
  - unfold mbind, M_bind, bind.
    destruct (each_Push l d (Env b [])) as [w1 ->].
    replace (length (l ++ d)) with (length (rev l ++ d))
      by (rewrite !length_app, length_rev; done).
    destruct (times_TrySteal value (rev l ++ d) [] w1) as [w2 Hw2].
    cbn [app] in Hw2. rewrite Hw2. cbn. by rewrite rev_app_distr, rev_involutive.
Qed.

(** X7. The owner and a thief work at opposite ends.  On a deque of two or
    more wrappers a [TryPop] and a [TrySteal] get the same two wrappers and
    leave the same deque whichever comes first; on a deque of one, the one
    that comes first gets it and the other is told the deque is empty. *)
Theorem deque_ends_do_not_meet x m y value b :
  let pop := WorkStealingQueue.TryPop value in
  let steal := WorkStealingQueue.TrySteal value in
  let q := WorkStealingQueue.Make (x :: m ++ [y]) in
  let q1 := WorkStealingQueue.Make [x] in
  let r12 := run (p ← pop; s ← steal; ret (p, s)) q b in
  let r21 := run (s ← steal; p ← pop; ret (p, s)) q b in
  result r12 = Ok ((true, x), (true, y)) ∧ result r21 = result r12 ∧
  final r12 = WorkStealingQueue.Make m ∧ final r21 = final r12 ∧
  result (run (p ← pop; s ← steal; ret (p, s)) q1 b) = Ok ((true, x), (false, value)) ∧
  result (run (s ← steal; p ← pop; ret (p, s)) q1 b) = Ok ((false, value), (true, x)).
Proof.
  intros pop steal q q1 r12 r21.
  assert (H12 : r12.1 = (Ok ((true, x), (true, y)), WorkStealingQueue.Make m)).
  { unfold r12, q, pop, steal, run. unfold mbind, M_bind, bind.
    rewrite WorkStealingQueue_TryPop_eq, WorkStealingQueue_TrySteal_eq. done. }
  assert (H21 : r21.1 = (Ok ((true, x), (true, y)), WorkStealingQueue.Make m)).
  { unfold r21, q, pop, steal, run. unfold mbind, M_bind, bind.
    rewrite (app_comm_cons m [y] x), WorkStealingQueue_TrySteal_eq.
    rewrite WorkStealingQueue_TryPop_eq. done. }
  unfold result, final. rewrite H12, H21. by split_and!.
Qed.
End MoreDeque.

(** ** More of [LockedQueue], statement by statement *)

Module FineGrainedAccessFacts.
Import LockedQueue FineGrained FineGrainedInv FineGrainedFacts FineGrainedAccess.
Section Facts.
Context {T : Type}.
Variable programs : list (list (call T)).
Implicit Types (s : sys T) (c : pc T) (th : thread T) (q : LockedQueue.t T).

(** *** Who can name what *)







(** *** Who waits for whom *)

Lemma waits_for t s th :
  threads s !! t = Some th → step t s = Waits →
  (at_ th = Idle ∧ remaining th = []) ∨
  (∃ d p, at_ th = Push1 d p ∧ is_Some (tail_owner s)) ∨
  (∃ k, at_ th = Pop1 k ∧ is_Some (head_owner s)) ∨
  (∃ k, at_ th = Pop2 k ∧ is_Some (tail_owner s)).
Proof.
  intros Hth. unfold step. rewrite Hth.
  destruct (at_ th) eqn:Hat; repeat case_match; try discriminate; intros _; eauto 10.
Qed.

(** The holder of a mutex is one of the threads. *)
Lemma step_owners t s :
  (∀ o, head_owner s = Some o ∨ tail_owner s = Some o → o < length (threads s)) →
  match step t s with
  | Steps s' =>
      ∀ o, head_owner s' = Some o ∨ tail_owner s' = Some o → o < length (threads s')
  | _ => True
  end.
Proof.
  intros Hown. unfold step.
  destruct (threads s !! t) as [th |] eqn:Hth; [| done].
  pose proof (lookup_lt_Some _ _ _ Hth) as Ht.
  destruct (at_ th); repeat case_match; try done; simplify_eq;
    unfold goto, returns, with_queue, with_head_owner, with_tail_owner,
      with_pushed, with_popped; cbn;
    intros o; rewrite ?length_insert; intros [Ho | Ho];
    first [ by injection Ho as <- | discriminate Ho | apply Hown; by auto ].
Qed.

Lemma run_owners schedule : ∀ s s',
  (∀ o, head_owner s = Some o ∨ tail_owner s = Some o → o < length (threads s)) →
  run schedule s = Some s' →
  ∀ o, head_owner s' = Some o ∨ tail_owner s' = Some o → o < length (threads s').
Proof.
  induction schedule as [| t rest IH]; intros s s' Hown Hrun; cbn in Hrun.
  - by injection Hrun as <-.
  - pose proof (step_owners t s Hown) as Hstep.
    destruct (step t s) as [s1 | |]; [by eapply IH | by eapply IH | done].
Qed.

Lemma Inv_progress s :
  Inv programs s →
  (∀ o, head_owner s = Some o ∨ tail_owner s = Some o → o < length (threads s)) →
  (∀ t, tail_owner s = Some t → runnable s t) ∧
  (∀ t, head_owner s = Some t →
        runnable s t ∨ ∃ t', t' ≠ t ∧ tail_owner s = Some t') ∧
  (∀ t th, threads s !! t = Some th →
     runnable s t ∨ finished s t ∨
     ∃ t', t' ≠ t ∧ (head_owner s = Some t' ∨ tail_owner s = Some t')).
Proof.
  intros HI Hown.
  assert (Hcases : ∀ t th, threads s !! t = Some th →
            runnable s t ∨ step t s = Waits).
  { intros t th Hth. pose proof (step_inv programs t s HI) as Hs.
    destruct (step t s) as [s' | |] eqn:E; [left; by exists s' | by right | done]. }
  destruct HI as (hd & vs & bs & tn & I).
  assert (Hok : ∀ t th, threads s !! t = Some th →
            (holds_head (at_ th) = true ↔ head_owner s = Some t) ∧
            (holds_tail (at_ th) = true ↔ tail_owner s = Some t)).
  { intros t th Hth. pose proof (inv_threads _ _ _ _ _ _ I t th Hth) as O.
    split; apply O. }
  split_and!.
  - intros t Ht.
    destruct (lookup_lt_is_Some_2 (threads s) t) as [th Hth]; [apply Hown; auto |].
    destruct (Hcases t th Hth) as [? | Hw]; [done |].
    destruct (Hok t th Hth) as [_ Htl]. apply Htl in Ht.
    destruct (waits_for t s th Hth Hw)
      as [[Hat _] | [(d & p & Hat & _) | [(k & Hat & _) | (k & Hat & _)]]];
      by rewrite Hat in Ht.
  - intros t Ht.
    destruct (lookup_lt_is_Some_2 (threads s) t) as [th Hth]; [apply Hown; auto |].
    destruct (Hcases t th Hth) as [? | Hw]; [by left |].
    destruct (Hok t th Hth) as [Hhd Htl]. apply Hhd in Ht.
    destruct (waits_for t s th Hth Hw)
      as [[Hat _] | [(d & p & Hat & _) | [(k & Hat & _) | (k & Hat & [t' Ht'])]]];
      try by rewrite Hat in Ht.
    right. exists t'. split; [| done]. intros ->.
    apply Htl in Ht'. by rewrite Hat in Ht'.
  - intros t th Hth.
    destruct (Hcases t th Hth) as [? | Hw]; [by left |]. right.
    destruct (Hok t th Hth) as [Hhd Htl].
    destruct (waits_for t s th Hth Hw)
      as [[Hat Hrem] | [(d & p & Hat & [t' Ht']) | [(k & Hat & [t' Ht'])
          | (k & Hat & [t' Ht'])]]].
    + left. by exists th.
    + right. exists t'. split; [| by right]. intros ->.
      apply Htl in Ht'. by rewrite Hat in Ht'.
    + right. exists t'. split; [| by left]. intros ->.
      apply Hhd in Ht'. by rewrite Hat in Ht'.
    + right. exists t'. split; [| by right]. intros ->.
      apply Htl in Ht'. by rewrite Hat in Ht'.
Qed.
End Facts.


(** X17. [LockedQueue] cannot deadlock.  Whatever calls the threads make,
    under any schedule: the thread that holds [tail_mu_] can always run its
    next statement; the thread that holds [head_mu_] can run its next
    statement or waits for [tail_mu_], which another thread holds; and every
    thread can run its next statement, has returned from its last call, or
    waits for a mutex that another thread holds.  So whoever waits for a
    mutex, waits for a thread that can go on, at one remove at most.  (A
    thread parked in [cv_.wait] counts as able to go on: it may wake at any
    time.) *)
Theorem LockedQueue_cannot_deadlock {T} (programs : list (list (call T))) schedule :
  ∃ s, run schedule (start programs) = Some s ∧
    (∀ t, tail_owner s = Some t → runnable s t) ∧
    (∀ t, head_owner s = Some t →
          runnable s t ∨ ∃ t', t' ≠ t ∧ tail_owner s = Some t') ∧
    (∀ t th, threads s !! t = Some th →
       runnable s t ∨ finished s t ∨
       ∃ t', t' ≠ t ∧ (head_owner s = Some t' ∨ tail_owner s = Some t')).
Proof.
  destruct (run_inv _ schedule _ (start_inv programs)) as (s & Hrun & I).
  exists s. split; [done |]. apply Inv_progress with programs; [done |].
  apply (run_owners schedule (start programs)); [| done].
  intros o [Ho | Ho]; discriminate Ho.
Qed.
End FineGrainedAccessFacts.

Module FineGrainedWakeups.
Import LockedQueue FineGrained FineGrainedInv FineGrainedFacts FineGrainedAccess.

(** X19. [WaitAndPop] can miss the notification of a [Push].  One thread
    pushes [v] on a new queue, another calls [WaitAndPop]: there is a
    schedule in which the consumer has found the queue empty, holding
    [head_mu_], but is not yet waiting when the producer, which needs only
    [tail_mu_], links [v] in and comes to [cv_.notify_one()].  The
    notification finds no thread waiting; after it the consumer parks in
    [cv_.wait] on the outcome of its comparison with the old [tail_], and
    stays parked, though the queue holds [v], both mutexes are free and no
    call of [Push] is under way, until a wake-up comes that is spurious or
    belongs to a later [Push]. *)
Theorem WaitAndPop_can_miss_the_notification {T} (v : T) :
  let programs := [[CPush v]; [CPop KWaitAndPop]] in
  ∃ before s1 s2,
    run before (start programs) = Some s1 ∧
    at_ <$> threads s1 = [Push6 v; Pop5 KWaitAndPop (tail_ (queue (start programs)))] ∧
    head_owner s1 = Some 1 ∧ pushed s1 = [(0, v)] ∧
    run [0; 1] s1 = Some s2 ∧
    at_ <$> threads s2 = [Idle; Parked] ∧
    remaining <$> threads s2 = [[]; []] ∧
    head_owner s2 = None ∧ tail_owner s2 = None ∧
    pushed s2 = [(0, v)] ∧ popped s2 = [] ∧
    head_ (queue s2) ≠ tail_ (queue s2).
Proof.
  intros programs. exists [1; 1; 1; 1; 1; 0; 0; 0; 0; 0; 0].
  eexists _, _. split; [vm_compute; reflexivity |].
  split; [vm_compute; reflexivity |]. split; [vm_compute; reflexivity |].
  split; [vm_compute; reflexivity |]. split; [vm_compute; reflexivity |].
  vm_compute. by split_and!.
Qed.
End FineGrainedWakeups.

(** ** The tests on the single-lock queues *)

Module InterleavedFacts.
Import History Refinement HistoryFacts Interleaved.
Section Facts.
Context {T Q : Type} `{!Abstract.ThreadSafeQueue Q T}.
Variable rep : Q → list T → Prop.
Variable cost : nat.
Hypothesis Hsim : simulates rep cost.
Hypothesis Hfree : ∀ (c : call T) q w vs, rep q vs → is_push c = false →
  budget (perform c q w).2 = budget w.
Implicit Types (s : sys T Q) (vs : list T).

(** The test after [k] pushes and [j] pops. *)
Lemma step_test vs n t s k j :
  j ≤ k → k ≤ length vs → j ≤ n →
  rep (queue s) (drop j (take k vs)) →
  cost * (length vs - k) ≤ memory s →
  threads s = [Thread (Push <$> drop k vs) (replicate k Done);
               Thread (replicate (n - j) WaitAndPop)
                      ((λ v, Pointer (Some v)) <$> take j vs)] →
  match step t s with
  | Steps s' =>
      ∃ k' j', k' + j' = S (k + j) ∧
        j' ≤ k' ∧ k' ≤ length vs ∧ j' ≤ n ∧
        rep (queue s') (drop j' (take k' vs)) ∧
        cost * (length vs - k') ≤ memory s' ∧
        threads s' = [Thread (Push <$> drop k' vs) (replicate k' Done);
                      Thread (replicate (n - j') WaitAndPop)
                             ((λ v, Pointer (Some v)) <$> take j' vs)]
  | Parks s' =>
      t = 1 ∧ j = k ∧ j < n ∧
      rep (queue s') (drop j (take k vs)) ∧
      cost * (length vs - k) ≤ memory s' ∧ threads s' = threads s
  | Waits => (t = 0 → k = length vs) ∧ (t = 1 → j = n)
  | Dies => False
  end.
Proof.
  intros Hjk Hk Hj Hrep Hmem Hths. unfold step. rewrite Hths.
  destruct t as [| [| t]]; cbn [lookup list_lookup remaining got]; [| | by split].
  - destruct (drop k vs) as [| v rest] eqn:Hdrop; cbn [fmap list_fmap].
    { split; [| done]. intros _.
      assert (length (drop k vs) = 0) as Hl by (by rewrite Hdrop).
      rewrite length_drop in Hl. lia. }
    assert (Hkv : vs !! k = Some v).
    { rewrite <- (Nat.add_0_r k), <- lookup_drop, Hdrop. done. }
    pose proof (lookup_lt_Some _ _ _ Hkv) as Hklt.
    destruct (Hsim (Push v) (queue s) (Env (memory s) []) _ Hrep)
      as (q' & w' & Hp & Hrep' & Hb').
    { intros _. cbn. nia. }
    rewrite Hp. cbn [fifo fst snd] in *.
    exists (S k), j. split_and!; [lia | lia | lia | lia | | |].
    + rewrite (take_S_r _ _ _ Hkv), drop_app_le by (rewrite length_take; lia). done.
    + cbn in Hb' |- *.
      replace (length vs - k) with (S (length vs - S k)) in Hmem by lia.
      rewrite Nat.mul_succ_r in Hmem. lia.
    + cbn. f_equal. f_equal.
      * f_equal. rewrite (drop_S _ _ _ Hkv) in Hdrop. by injection Hdrop as <-.
      * by rewrite <- replicate_S_end.
  - destruct (n - j) as [| m] eqn:Hm; cbn [replicate].
    { split; [done |]. intros _. lia. }
    destruct (Hsim WaitAndPop (queue s) (Env (memory s) []) _ Hrep)
      as (q' & w' & Hp & Hrep' & Hb'); [done |].
    pose proof (Hfree WaitAndPop (queue s) (Env (memory s) []) _ Hrep eq_refl) as Hfr.
    rewrite Hp in Hfr. cbn in Hfr.
    rewrite Hp. destruct (drop j (take k vs)) as [| v rest] eqn:Hdrop;
      cbn [fifo fst snd] in *.
    + assert (length (drop j (take k vs)) = 0) as Hl by (by rewrite Hdrop).
      rewrite length_drop, length_take in Hl.
      split_and!; [done | lia | lia | done | cbn; lia | done].
    + assert (Hjv : take k vs !! j = Some v).
      { rewrite <- (Nat.add_0_r j), <- lookup_drop, Hdrop. done. }
      pose proof (lookup_lt_Some _ _ _ Hjv) as Hjlt. rewrite length_take in Hjlt.
      assert (Hjv' : vs !! j = Some v) by (rewrite lookup_take_lt in Hjv; [done | lia]).
      exists k, (S j). split_and!; [lia | lia | lia | lia | | cbn; lia |].
      * rewrite (drop_S _ _ _ Hjv) in Hdrop. by injection Hdrop as <-.
      * cbn. replace (n - S j) with m by lia.
        by rewrite (take_S_r _ _ _ Hjv'), fmap_app.
Qed.

Lemma run_test vs n schedule : ∀ s k j,
  j ≤ k → k ≤ length vs → j ≤ n →
  rep (queue s) (drop j (take k vs)) →
  cost * (length vs - k) ≤ memory s →
  threads s = [Thread (Push <$> drop k vs) (replicate k Done);
               Thread (replicate (n - j) WaitAndPop)
                      ((λ v, Pointer (Some v)) <$> take j vs)] →
  ∃ s' k' j',
    run schedule s = Some s' ∧
    j' ≤ k' ∧ k' ≤ length vs ∧ j' ≤ n ∧
    rep (queue s') (drop j' (take k' vs)) ∧
    cost * (length vs - k') ≤ memory s' ∧
    threads s' = [Thread (Push <$> drop k' vs) (replicate k' Done);
                  Thread (replicate (n - j') WaitAndPop)
                         ((λ v, Pointer (Some v)) <$> take j' vs)].
Proof.
  induction schedule as [| t rest IH]; intros s k j Hjk Hk Hj Hrep Hmem Hths.
  - exists s, k, j. by split_and!.
  - cbn [run]. pose proof (step_test vs n t s k j Hjk Hk Hj Hrep Hmem Hths) as Hstep.
    destruct (step t s) as [s1 | s1 | |].
    + destruct Hstep as (k' & j' & _ & H1 & H2 & H3 & H4 & H5 & H6).
      exact (IH s1 k' j' H1 H2 H3 H4 H5 H6).
    + destruct Hstep as (_ & _ & _ & Hrep1 & Hmem1 & Hths1).
      apply (IH s1 k j); try done. by rewrite Hths1.
    + exact (IH s k j Hjk Hk Hj Hrep Hmem Hths).
    + done.
Qed.

(** While the test is not over, a thread can complete a call. *)
Lemma test_goes_on vs n s k j :
  n ≤ length vs →
  j ≤ k → k ≤ length vs → j ≤ n →
  rep (queue s) (drop j (take k vs)) →
  cost * (length vs - k) ≤ memory s →
  threads s = [Thread (Push <$> drop k vs) (replicate k Done);
               Thread (replicate (n - j) WaitAndPop)
                      ((λ v, Pointer (Some v)) <$> take j vs)] →
  all_done s ∨ ∃ t s', step t s = Steps s'.
Proof.
  intros Hn Hjk Hk Hj Hrep Hmem Hths.
  destruct (decide (k < length vs)) as [Hlt | Hge].
  - right. exists 0.
    pose proof (step_test vs n 0 s k j Hjk Hk Hj Hrep Hmem Hths) as Hstep.
    destruct (step 0 s) as [s1 | s1 | |]; [by exists s1 | | | done].
    + by destruct Hstep as [? _].
    + destruct Hstep as [Hw _]. specialize (Hw eq_refl). lia.
  - destruct (decide (j < n)) as [Hjn | Hjn].
    + right. exists 1.
      pose proof (step_test vs n 1 s k j Hjk Hk Hj Hrep Hmem Hths) as Hstep.
      destruct (step 1 s) as [s1 | s1 | |]; [by exists s1 | | | done].
      * destruct Hstep as (_ & ? & _). lia.
      * destruct Hstep as [_ Hw]. specialize (Hw eq_refl). lia.
    + left. unfold all_done. rewrite Hths.
      replace (n - j) with 0 by lia. rewrite drop_ge by lia.
      by repeat constructor.
Qed.

(** The test on a queue the sequence stands for. *)
Lemma test_passes vs n schedule s :
  rep (queue s) [] → cost * length vs ≤ memory s →
  threads s = map (λ cs, Thread cs []) (one_producer_one_consumer vs n) →
  ∃ s' producer consumer,
    run schedule s = Some s' ∧ threads s' = [producer; consumer] ∧
    got consumer = (λ v, Pointer (Some v)) <$> take (length (got consumer)) vs ∧
    (n ≤ length vs → all_done s' ∨ ∃ t s'', step t s' = Steps s'').
Proof.
  intros Hrep Hmem Hths.
  destruct (run_test vs n schedule s 0 0)
    as (s' & k & j & Hrun & Hjk & Hk & Hj & Hrep' & Hmem' & Hths');
    [lia | lia | lia | done | rewrite Nat.sub_0_r; lia | |].
  { rewrite Hths. cbn. by rewrite Nat.sub_0_r. }
  eexists s', _, _. split_and!; [done | done | |].
  - cbn. rewrite length_fmap, length_take.
    assert (j ≤ length vs) by lia.
    by rewrite Nat.min_l by lia.
  - intros Hn. by apply (test_goes_on vs n s' k j).
Qed.
End Facts.

Ltac frugal_tac :=
  intros c [q] [b tr] vs Hrep Hc; simpl in Hrep; subst q;
  destruct c; try discriminate Hc; destruct vs; reflexivity.

Lemma ThreadSafeQueue_frugal {T} (c : call T) q w vs :
  holds_TSQ q vs → is_push c = false → budget (perform c q w).2 = budget w.
Proof. revert c q w vs. unfold holds_TSQ. frugal_tac. Qed.

Lemma SimpleLockedQueue_frugal {T} (c : call T) q w vs :
  holds_SLQ q vs → is_push c = false → budget (perform c q w).2 = budget w.
Proof. revert c q w vs. unfold holds_SLQ. frugal_tac. Qed.

(** X21. The tests [OneProduceOneConsumer] pass on the single-lock queues,
    whatever the scheduler does.  One thread pushes [vs] on a new
    [ThreadSafeQueue] (or [SimpleLockedQueue]), another calls [WaitAndPop]
    [n] times, a [WaitAndPop] on the empty queue waiting for its turn to come
    again: given the memory for the pushes no call throws or crashes, and the
    calls of the consumer that have returned have returned the first values
    of [vs], in order.  With no more pops than pushes the test cannot hang:
    until both threads are done, one of them can complete a call. *)
Theorem single_lock_tests_pass {T} (vs : list T) n schedule b :
  length vs ≤ b →
  (∃ s producer consumer,
     start (Q:=ThreadSafeQueue.t T) (one_producer_one_consumer vs n) b
       ≫= run schedule = Some s ∧
     threads s = [producer; consumer] ∧
     got consumer = (λ v, Pointer (Some v)) <$> take (length (got consumer)) vs ∧
     (n ≤ length vs → all_done s ∨ ∃ t s', step t s = Steps s')) ∧
  (∃ s producer consumer,
     start (Q:=SimpleLockedQueue.t T) (one_producer_one_consumer vs n) b
       ≫= run schedule = Some s ∧
     threads s = [producer; consumer] ∧
     got consumer = (λ v, Pointer (Some v)) <$> take (length (got consumer)) vs ∧
     (n ≤ length vs → all_done s ∨ ∃ t s', step t s = Steps s')).
Proof.
  intros Hb. split.
  - apply (test_passes holds_TSQ 1 ThreadSafeQueue_simulates ThreadSafeQueue_frugal);
      cbn; [done | lia | done].
  - apply (test_passes holds_SLQ 1 SimpleLockedQueue_simulates SimpleLockedQueue_frugal);
      cbn; [done | lia | done].
Qed.

Lemma single_lock_tests_pass_witness :
  length [0; 1; 2; 3; 4] ≤ 5 ∧
  ∃ s producer consumer,
    start (Q:=ThreadSafeQueue.t nat) (one_producer_one_consumer [0; 1; 2; 3; 4] 5) 5
      ≫= run [1; 0; 1; 1; 0; 0; 1] = Some s ∧
    threads s = [producer; consumer] ∧
    got consumer =
      (λ v, Pointer (Some v)) <$> take (length (got consumer)) [0; 1; 2; 3; 4].
Proof.
  split; [cbn; lia |].
  destruct (single_lock_tests_pass [0; 1; 2; 3; 4] 5 [1; 0; 1; 1; 0; 0; 1] 5)
    as [(s & p & c & Hrun & Hths & Hgot & _) _]; [cbn; lia |].
  by exists s, p, c.
Defined.
End InterleavedFacts.

(** ** The pool *)

Import ThreadPool Pool.

Section PoolFacts.
Context {R : Type}.
Implicit Types (p : ThreadPool.t R) (task : FunctionWrapper.t R) (w : env).


Lemma set_locals_id p : set_locals (local_task_queues_ p) p = p.
Proof. by destruct p. Qed.

Lemma within_local_eq {A} i (m : M (WorkStealingQueue.t R) A) p w q :
  local_task_queues_ p !! i = Some q →
  within_local i m p w =
    (let '(r, q', w') := m q (Env (budget w) []) in
     (r, set_locals (<[i := q']> (local_task_queues_ p)) p,
      Env (budget w') (trace w ++ map (EvIn (Local i)) (trace w')))).
Proof.
  intros Hq. unfold within_local, within. munfold. rewrite Hq. done.
Qed.

(** A visit to an empty deque, by its owner or by a thief. *)
Lemma visit_empty_deque i task p w (steal : bool) :
  local_task_queues_ p !! i = Some (WorkStealingQueue.Make []) →
  within_local i (if steal then WorkStealingQueue.TrySteal task
                  else WorkStealingQueue.TryPop task) p w =
    (Ok (false, task), p, logged w (budget w) (visit (Local i) mu_)).
Proof.
  intros Hq. rewrite (within_local_eq _ _ _ _ _ Hq).
  rewrite WorkStealingQueue_empty_eq. cbn.
  rewrite list_insert_id by done. by rewrite set_locals_id.
Qed.

Lemma visit_deque_front i task t l p w :
  local_task_queues_ p !! i = Some (WorkStealingQueue.Make (t :: l)) →
  within_local i (WorkStealingQueue.TryPop task) p w =
    (Ok (true, t),
     set_locals (<[i := WorkStealingQueue.Make l]> (local_task_queues_ p)) p,
     logged w (budget w) (visit (Local i) mu_)).
Proof.
  intros Hq. rewrite (within_local_eq _ _ _ _ _ Hq).
  by rewrite WorkStealingQueue_TryPop_eq.
Qed.

Lemma visit_deque_back i task t l p w :
  local_task_queues_ p !! i = Some (WorkStealingQueue.Make (l ++ [t])) →
  within_local i (WorkStealingQueue.TrySteal task) p w =
    (Ok (true, t),
     set_locals (<[i := WorkStealingQueue.Make l]> (local_task_queues_ p)) p,
     logged w (budget w) (visit (Local i) mu_)).
Proof.
  intros Hq. rewrite (within_local_eq _ _ _ _ _ Hq).
  by rewrite WorkStealingQueue_TrySteal_eq.
Qed.


Lemma visit_empty_global task p w :
  Chain.represents (global_task_queue_ p) [] →
  PopTaskFromGlobalQueue task p w =
    (Ok (false, task), p, logged w (budget w) global_visit).
Proof.
  intros Hrep. unfold PopTaskFromGlobalQueue, within_global, within.
  rewrite LockedQueueFacts.TryPop_to_empty
    by (by apply (ChainFacts.represents_empty_iff _ [])).
  cbn. by destruct p.
Qed.

Lemma visit_global task t ts p w :
  Chain.represents (global_task_queue_ p) (t :: ts) →
  ∃ g, PopTaskFromGlobalQueue task p w =
         (Ok (true, t), set_global g p, logged w (budget w) global_visit) ∧
       Chain.represents g ts.
Proof.
  intros Hrep. unfold PopTaskFromGlobalQueue, within_global, within.
  destruct (LockedQueueFacts.TryPop_to_nonempty _ (Env (budget w) []) t ts task Hrep)
    as (g & -> & Hg).
  exists g. split; [done|done].
Qed.


Lemma logged_logged w b1 es1 b2 es2 :
  logged (logged w b1 es1) b2 es2 = logged w b2 (es1 ++ es2).
Proof. unfold logged. cbn. by rewrite app_assoc. Qed.

Lemma logged_nil w : logged w (budget w) [] = w.
Proof. unfold logged. rewrite app_nil_r. by destruct w. Qed.

Lemma steal_loop_empty me ix task p w :
  (∀ i, i ∈ ix → source_empty p (Local (target me (length (local_task_queues_ p)) i))) →
  steal_loop me ix task p w =
    (Ok (false, task), p,
     logged w (budget w) (steal_visits me (length (local_task_queues_ p)) ix)).
Proof.
  revert w. induction ix as [|i ix IH]; intros w Hall.
  - cbn. by rewrite logged_nil.
  - cbn [steal_loop]. unfold mbind, M_bind, bind, get.
    fold (target me (length (local_task_queues_ p)) i).
    rewrite (visit_empty_deque _ _ _ _ true) by (apply Hall; left).
    cbn [fst snd]. rewrite IH by (intros j Hj; apply Hall; by right).
    by rewrite logged_logged.
Qed.

Lemma steal_loop_found me pre i post task t l p w :
  let n := length (local_task_queues_ p) in
  (∀ j, j ∈ pre → source_empty p (Local (target me n j))) →
  local_task_queues_ p !! target me n i = Some (WorkStealingQueue.Make (l ++ [t])) →
  steal_loop me (pre ++ i :: post) task p w =
    (Ok (true, t),
     set_locals (<[target me n i := WorkStealingQueue.Make l]> (local_task_queues_ p)) p,
     logged w (budget w) (steal_visits me n (pre ++ [i]))).
Proof.
  intros n. revert w. induction pre as [|j pre IH]; intros w Hall Hi.
  - cbn [app steal_loop]. unfold mbind, M_bind, bind, get.
    fold (target me (length (local_task_queues_ p)) i). fold n.
    rewrite (visit_deque_back _ _ _ _ _ _ Hi). cbn.
    unfold steal_visits. cbn. done.
  - cbn [app steal_loop]. unfold mbind, M_bind, bind, get.
    fold (target me (length (local_task_queues_ p)) j). fold n.
    rewrite (visit_empty_deque _ _ _ _ true) by (apply Hall; left).
    cbn [fst snd]. rewrite IH; [|intros j' Hj'; apply Hall; by right|done].
    by rewrite logged_logged.
Qed.

Lemma target_worker k n i :
  k < n → i < n → (N.of_nat n <= 2147483648)%N →
  target (worker k) n i = (k + 1 + i) mod n.
Proof.
  intros Hk Hi Hn. unfold target, steal_index, worker. cbn [my_index_].
  change (2 ^ 32)%N with 4294967296%N.
  rewrite (N.mod_small (N.of_nat k + 1 + N.of_nat i)) by lia.
  replace (N.of_nat k + 1 + N.of_nat i)%N with (N.of_nat (k + 1 + i)) by lia.
  rewrite <- Nat2N.inj_mod. apply Nat2N.id.
Qed.

Lemma targets_worker k n :
  k < n → (N.of_nat n <= 2147483648)%N →
  map (target (worker k) n) (seq 0 n) = steal_order k n.
Proof.
  intros Hk Hn. unfold steal_order. apply map_ext_in. intros i Hi.
  apply in_seq in Hi. apply target_worker; [done|lia|done].
Qed.

Lemma PopTaskFromOtherThreadQueue_eq me task p w :
  PopTaskFromOtherThreadQueue me task p w =
    steal_loop me (seq 0 (length (local_task_queues_ p))) task p w.
Proof. done. Qed.

Lemma PopTaskFromLocalQueue_eq k task p w :
  PopTaskFromLocalQueue (worker k) task p w =
    within_local k (WorkStealingQueue.TryPop task) p w.
Proof. done. Qed.


Lemma call_eq task pt p w :
  FunctionWrapper.impl_ task = Some pt →
  call task p w = (Ok tt, ran pt p, logged w (budget w) [EvCall (FunctionWrapper.state_ pt)]).
Proof. intros Hpt. unfold call. rewrite Hpt. by mcompute. Qed.

Ltac run_tac :=
  unfold RunPendingTask; unfold mbind, M_bind, bind.

Lemma run_local k t l pt p w :
  local_task_queues_ p !! k = Some (WorkStealingQueue.Make (t :: l)) →
  FunctionWrapper.impl_ t = Some pt →
  RunPendingTask (worker k) p w =
    (Ok tt,
     ran pt (set_locals (<[k := WorkStealingQueue.Make l]> (local_task_queues_ p)) p),
     logged w (budget w) (visit (Local k) mu_ ++ [EvCall (FunctionWrapper.state_ pt)])).
Proof.
  intros Hq Hpt. run_tac. rewrite PopTaskFromLocalQueue_eq.
  rewrite (visit_deque_front _ _ _ _ _ _ Hq). cbn -[call].
  rewrite (call_eq _ _ _ _ Hpt). by rewrite logged_logged.
Qed.

Lemma run_global k t ts pt p w :
  source_empty p (Local k) →
  Chain.represents (global_task_queue_ p) (t :: ts) →
  FunctionWrapper.impl_ t = Some pt →
  ∃ g, RunPendingTask (worker k) p w =
         (Ok tt, ran pt (set_global g p),
          logged w (budget w)
            (visit (Local k) mu_ ++ global_visit ++ [EvCall (FunctionWrapper.state_ pt)])) ∧
       Chain.represents g ts.
Proof.
  intros Hk Hrep Hpt. run_tac. rewrite PopTaskFromLocalQueue_eq.
  rewrite (visit_empty_deque _ _ _ _ false) by done. cbn -[call PopTaskFromGlobalQueue].
  destruct (visit_global FunctionWrapper.FunctionWrapper t ts p
              (logged w (budget w) (visit (Local k) mu_)) Hrep) as (g & -> & Hg).
  exists g. split; [|done]. cbn -[call].
  rewrite (call_eq _ _ _ _ Hpt). by rewrite !logged_logged.
Qed.

Lemma run_steal k pre i post t l pt p w :
  let n := length (local_task_queues_ p) in
  let me := worker k in
  source_empty p (Local k) →
  source_empty p Global →
  seq 0 n = pre ++ i :: post →
  (∀ j, j ∈ pre → source_empty p (Local (target me n j))) →
  local_task_queues_ p !! target me n i = Some (WorkStealingQueue.Make (l ++ [t])) →
  FunctionWrapper.impl_ t = Some pt →
  RunPendingTask me p w =
    (Ok tt,
     ran pt (set_locals (<[target me n i := WorkStealingQueue.Make l]>
                            (local_task_queues_ p)) p),
     logged w (budget w)
       (visit (Local k) mu_ ++ global_visit ++ steal_visits me n (pre ++ [i]) ++
        [EvCall (FunctionWrapper.state_ pt)])).
Proof.
  intros n me Hk Hg Hseq Hpre Hi Hpt. unfold me in *. run_tac. rewrite PopTaskFromLocalQueue_eq.
  rewrite (visit_empty_deque _ _ _ _ false) by done.
  cbn -[call PopTaskFromGlobalQueue PopTaskFromOtherThreadQueue].
  rewrite visit_empty_global by done.
  cbn -[call PopTaskFromOtherThreadQueue].
  rewrite PopTaskFromOtherThreadQueue_eq. fold n. rewrite Hseq.
  rewrite (steal_loop_found _ _ _ _ _ t l) by done.
  cbn -[call]. rewrite (call_eq _ _ _ _ Hpt). by rewrite !logged_logged.
Qed.

Lemma run_idle k p w :
  let n := length (local_task_queues_ p) in
  let me := worker k in
  source_empty p (Local k) →
  source_empty p Global →
  (∀ j, j ∈ seq 0 n → source_empty p (Local (target me n j))) →
  RunPendingTask me p w =
    (Ok tt, p,
     logged w (budget w)
       (visit (Local k) mu_ ++ global_visit ++ steal_visits me n (seq 0 n) ++ [EvYield])).
Proof.
  intros n me Hk Hg Hall. unfold me in *. run_tac. rewrite PopTaskFromLocalQueue_eq.
  rewrite (visit_empty_deque _ _ _ _ false) by done.
  cbn -[PopTaskFromGlobalQueue PopTaskFromOtherThreadQueue].
  rewrite visit_empty_global by done.
  cbn -[PopTaskFromOtherThreadQueue].
  rewrite PopTaskFromOtherThreadQueue_eq. rewrite steal_loop_empty by done.
  cbn. unfold emit. cbn. unfold logged. cbn.
  by rewrite <- !app_assoc.
Qed.

(** *** What the events show *)

Lemma attempts_app es1 es2 : attempts (es1 ++ es2) = attempts es1 ++ attempts es2.
Proof. apply omap_app. Qed.
Lemma calls_app es1 es2 : calls (es1 ++ es2) = calls es1 ++ calls es2.
Proof. apply omap_app. Qed.
Lemma yields_app es1 es2 : yields (es1 ++ es2) = yields es1 + yields es2.
Proof. unfold yields. by rewrite omap_app, length_app. Qed.
Lemma polls_app es1 es2 : polls (es1 ++ es2) = polls es1 ++ polls es2.
Proof. apply omap_app. Qed.

Lemma steal_visits_app me n ix1 ix2 :
  steal_visits me n (ix1 ++ ix2) = steal_visits me n ix1 ++ steal_visits me n ix2.
Proof. apply flat_map_app. Qed.

Lemma steal_visits_shows me n ix :
  attempts (steal_visits me n ix) = map (λ i, Local (target me n i)) ix ∧
  calls (steal_visits me n ix) = [] ∧ yields (steal_visits me n ix) = 0 ∧
  forallb (λ e, negb (parks e)) (steal_visits me n ix) = true.
Proof.
  induction ix as [|i ix (IH1 & IH2 & IH3 & IH4)]; [done|].
  change (steal_visits me n (i :: ix))
    with (visit (Local (target me n i)) mu_ ++ steal_visits me n ix).
  rewrite attempts_app, calls_app, yields_app, forallb_app, IH1, IH2, IH3, IH4.
  done.
Qed.

Lemma steal_visits_polls me n ix : polls (steal_visits me n ix) = [].
Proof.
  induction ix as [|i ix IH]; [done|].
  change (steal_visits me n (i :: ix))
    with (visit (Local (target me n i)) mu_ ++ steal_visits me n ix).
  by rewrite polls_app, IH.
Qed.

Lemma inv_loaded_local p i l t :
  inv p → local_task_queues_ p !! i = Some (WorkStealingQueue.Make l) → t ∈ l →
  ∃ pt, FunctionWrapper.impl_ t = Some pt.
Proof.
  intros [_ Hl] Hi Ht. rewrite Forall_forall in Hl.
  specialize (Hl _ (list_elem_of_lookup_2 _ _ _ Hi)). cbn in Hl.
  rewrite Forall_forall in Hl. by apply Hl.
Qed.

Lemma linked_inj (h : gmap nat (LockedQueue.Node (FunctionWrapper.t R))) a vs vs' bs bs' :
  Chain.linked h a vs bs → Chain.linked h a vs' bs' → vs = vs'.
Proof.
  revert a vs' bs bs'. induction vs as [|v vs IH]; intros a [|v' vs'] [|b bs] [|b' bs'];
    cbn; try done; try (intros H1 [H2 _]; congruence); try (intros [H1 _] H2; congruence).
  intros [H1 Hl] [H2 Hl']. rewrite H1 in H2. injection H2 as <- <-.
  f_equal. by eapply IH.
Qed.

Lemma represents_inj (g : LockedQueue.t (FunctionWrapper.t R)) vs vs' :
  Chain.represents g vs → Chain.represents g vs' → vs = vs'.
Proof.
  intros (a & bs & Hh & _ & _ & Hl & _) (a' & bs' & Hh' & _ & _ & Hl' & _).
  rewrite Hh in Hh'. injection Hh' as <-. by eapply linked_inj.
Qed.

Lemma inv_loaded_global p t ts :
  inv p → Chain.represents (global_task_queue_ p) (t :: ts) →
  ∃ pt, FunctionWrapper.impl_ t = Some pt.
Proof.
  intros [(ts' & Hrep & Hall) _] Hrep'.
  rewrite (represents_inj _ _ _ Hrep Hrep') in Hall.
  by apply Forall_cons in Hall as [Ht _].
Qed.

(** C5, as the code has it: a call of [RunPendingTask] by worker [k] goes
    to (1) its own deque, (2) the global queue, (3) every deque of the pool
    in round-robin order from index [k + 1], which are the siblings in that
    order and, last, the caller's own deque once more.  It stops at the first
    queue that has a task and runs that one task; when none has one it
    yields once and runs nothing. *)
Theorem run_pending_task_order p k b :
  let n := length (local_task_queues_ p) in
  let r := run (RunPendingTask (worker k)) p b in
  inv p → k < n → (N.of_nat n <= 2147483648)%N →
  ((∀ o, o ∈ visit_order k n → source_empty p o) →
     result r = Ok tt ∧ attempts (events r) = visit_order k n ∧
     calls (events r) = [] ∧ yields (events r) = 1 ∧ final r = p) ∧
  (∀ pre o post task,
     visit_order k n = pre ++ o :: post →
     (∀ o', o' ∈ pre → source_empty p o') →
     takes p o (negb (empty pre)) task →
     ∃ pt, FunctionWrapper.impl_ task = Some pt ∧
       result r = Ok tt ∧ attempts (events r) = pre ++ [o] ∧
       calls (events r) = [FunctionWrapper.state_ pt] ∧ yields (events r) = 0 ∧
       shared_states (final r) !! FunctionWrapper.state_ pt =
         Some (Some (FunctionWrapper.f_ pt tt))).
Proof.
  intros n r Hinv Hk Hn. unfold r, run, result, events, final. split.
  - intros Hall.
    assert (Hsteal : ∀ j, j ∈ seq 0 n → source_empty p (Local (target (worker k) n j))).
    { intros j Hj. apply Hall. unfold visit_order. do 2 right.
      apply list_elem_of_In, in_map. rewrite <- targets_worker by done.
      apply in_map. by apply list_elem_of_In. }
    rewrite run_idle; [|apply Hall; left|apply Hall; right; left|done].
    cbn [fst snd trace logged]. rewrite app_nil_l.
    destruct (steal_visits_shows (worker k) n (seq 0 n)) as (Ha & Hc & Hy & _).
    rewrite !attempts_app, !calls_app, !yields_app. fold n. rewrite Ha, Hc, Hy.
    split_and!; try done.
    cbn. rewrite app_nil_r. unfold visit_order.
    by rewrite <- targets_worker, map_map.
  - intros pre o post task Hsplit Hpre Htakes. unfold visit_order in Hsplit.
    destruct pre as [|o1 [|o2 pre']]; cbn in Hsplit.
    + injection Hsplit as <- _. destruct Htakes as [l Hl]. cbn in Hl.
      destruct (inv_loaded_local p k _ task Hinv Hl) as [pt Hpt]; [left|].
      exists pt. rewrite (run_local _ _ _ _ _ _ Hl Hpt).
      cbn [fst snd trace logged]. rewrite app_nil_l.
      split_and!; try done. cbn. apply lookup_insert_eq.
    + injection Hsplit as <- <- _. destruct Htakes as [ts Hts].
      destruct (inv_loaded_global p task ts Hinv Hts) as [pt Hpt].
      exists pt.
      destruct (run_global k task ts pt p (Env b []) (Hpre _ ltac:(left)) Hts Hpt)
        as (g & -> & _).
      cbn [fst snd trace logged]. rewrite app_nil_l.
      split_and!; try done. cbn. apply lookup_insert_eq.
    + injection Hsplit as <- <- Hsplit.
      apply map_eq_app in Hsplit as (js1 & js2' & Hjs & <- & Hjs2).
      destruct js2' as [|j js2]; [done|]. cbn in Hjs2. injection Hjs2 as <- _.
      rewrite <- targets_worker in Hjs by done.
      apply map_eq_app in Hjs as (ix1 & ix2' & Hix & <- & Hix2).
      destruct ix2' as [|i ix2]; [done|]. cbn in Hix2. injection Hix2 as <- _.
      destruct Htakes as [l Hl]. cbn in Hl.
      destruct (inv_loaded_local p _ _ task Hinv Hl) as [pt Hpt].
      { apply elem_of_app. right. left. }
      exists pt.
      rewrite (run_steal k ix1 i ix2 task l pt); try done.
      * cbn [fst snd trace logged]. rewrite app_nil_l.
        destruct (steal_visits_shows (worker k) n (ix1 ++ [i])) as (Ha & Hc & Hy & _).
        rewrite !attempts_app, !calls_app, !yields_app. fold n. rewrite Ha, Hc, Hy.
        split_and!; try done.
        -- cbn. rewrite app_nil_r, map_app, !map_map. done.
        -- cbn. apply lookup_insert_eq.
      * apply Hpre. left.
      * apply Hpre. right. left.
      * intros j Hj. apply Hpre. do 2 right.
        apply list_elem_of_In, in_map, in_map. by apply list_elem_of_In.
Qed.

(** *** [RunPendingTask] on any pool *)

Lemma target_lt me n i : 0 < n → target me n i < n.
Proof.
  intros Hn. unfold target, steal_index.
  pose proof (N.mod_lt ((my_index_ me + 1 + N.of_nat i) mod 2 ^ 32) (N.of_nat n)).
  lia.
Qed.

Lemma inv_ran pt p : inv p → inv (ran pt p).
Proof. by intros [? ?]. Qed.

Lemma inv_set_local p i l l' :
  inv p → local_task_queues_ p !! i = Some (WorkStealingQueue.Make l) →
  (∀ t, t ∈ l' → t ∈ l) →
  inv (set_locals (<[i := WorkStealingQueue.Make l']> (local_task_queues_ p)) p).
Proof.
  intros [Hg Hl] Hi Hsub. split; [done|]. cbn.
  apply Forall_insert; [done|]. cbn.
  rewrite Forall_forall in Hl. specialize (Hl _ (list_elem_of_lookup_2 _ _ _ Hi)).
  cbn in Hl. rewrite Forall_forall in Hl |- *. auto.
Qed.

Lemma inv_set_global p g t ts :
  inv p → Chain.represents (global_task_queue_ p) (t :: ts) → Chain.represents g ts →
  inv (set_global g p).
Proof.
  intros [(ts' & Hrep & Hall) Hl] Hrep' Hg. split; [|done]. cbn.
  rewrite (represents_inj _ _ _ Hrep Hrep') in Hall.
  apply Forall_cons in Hall as [_ Hall]. eauto.
Qed.

Lemma steal_loop_total me ix task p w :
  inv p → 0 < length (local_task_queues_ p) →
  ∃ found t p' es,
    steal_loop me ix task p w = (Ok (found, t), p', logged w (budget w) es) ∧
    forallb (λ e, negb (parks e)) es = true ∧ calls es = [] ∧ yields es = 0 ∧
    polls es = [] ∧
    inv p' ∧ same_frame p p' ∧ shared_states p' = shared_states p ∧
    (if found then loaded t else p' = p).
Proof.
  intros Hinv Hn. set (n := length (local_task_queues_ p)) in *.
  revert w. induction ix as [|i ix IH]; intros w.
  - exists false, task, p, []. cbn. rewrite logged_nil. by split_and!.
  - destruct (lookup_lt_is_Some_2 (local_task_queues_ p) (target me n i))
      as [[l] Hl]; [by apply target_lt|].
    destruct (decide (l = [])) as [->|Hne].
    + destruct (IH (logged w (budget w) (visit (Local (target me n i)) mu_)))
        as (found & t & p' & es & Heq & Hp & Hc & Hy & Hpo & Hinv' & Hfr & Hsh & Hf).
      exists found, t, p', (visit (Local (target me n i)) mu_ ++ es).
      split.
      { cbn [steal_loop]. unfold mbind, M_bind, bind, get.
        fold (target me (length (local_task_queues_ p)) i). fold n.
        rewrite (visit_empty_deque _ _ _ _ true) by done.
        cbn [fst snd]. rewrite Heq. by rewrite logged_logged. }
      rewrite forallb_app, calls_app, yields_app, polls_app, Hp, Hc, Hy, Hpo.
      by split_and!.
    + destruct (exists_last Hne) as (l' & t & ->).
      exists true, t,
        (set_locals (<[target me n i := WorkStealingQueue.Make l']> (local_task_queues_ p)) p),
        (visit (Local (target me n i)) mu_).
      split.
      { pose proof (steal_loop_found me [] i ix task t l' p w) as H.
        cbn in H. apply H; [|exact Hl].
        intros j Hj. by apply elem_of_nil in Hj. }
      split_and!; try done.
      * eapply inv_set_local; [done..|]. intros t' Ht'. apply elem_of_app. by left.
      * split_and!; try done. cbn. by rewrite length_insert.
      * destruct (inv_loaded_local p _ _ t Hinv Hl) as [pt Hpt]; [|by exists pt].
        apply elem_of_app. right. left.
Qed.

(** Whatever the queues hold, a worker's [RunPendingTask] returns: it
    parks nowhere, runs one task or yields once, keeps the invariant and
    leaves the flag, the threads and the number of deques alone. *)
Lemma RunPendingTask_total p k w :
  inv p → k < length (local_task_queues_ p) →
  ∃ es p',
    RunPendingTask (worker k) p w = (Ok tt, p', logged w (budget w) es) ∧
    forallb (λ e, negb (parks e)) es = true ∧
    length (calls es) + yields es = 1 ∧ polls es = [] ∧
    inv p' ∧ same_frame p p'.
Proof.
  intros Hinv Hk.
  destruct (lookup_lt_is_Some_2 (local_task_queues_ p) k Hk) as [[l] Hl].
  destruct l as [|t l].
  2:{ destruct (inv_loaded_local p k _ t Hinv Hl) as [pt Hpt]; [left|].
      eexists _, _. split; [by apply (run_local k t l pt)|].
      split_and!; try done.
      - apply inv_ran. eapply inv_set_local; [done..|]. intros t' Ht'. by right.
      - split_and!; try done. cbn. by rewrite length_insert. }
  destruct Hinv as [(ts & Hrep & Hall) Hloc].
  assert (Hinv : inv p) by (split; eauto).
  destruct ts as [|t ts].
  2:{ destruct (inv_loaded_global p t ts Hinv Hrep) as [pt Hpt].
      destruct (run_global k t ts pt p w Hl Hrep Hpt) as (g & Heq & Hg).
      eexists _, _. split; [exact Heq|].
      split_and!; try done.
      apply inv_ran. by eapply inv_set_global. }
  destruct (steal_loop_total (worker k) (seq 0 (length (local_task_queues_ p)))
              FunctionWrapper.FunctionWrapper p
              (logged w (budget w) (visit (Local k) mu_ ++ global_visit)) Hinv)
    as (found & t & p' & es & Heq & Hp & Hc & Hy & Hpo & Hinv' & Hfr & Hsh & Hf); [lia|].
  unfold RunPendingTask. unfold mbind, M_bind, bind. rewrite PopTaskFromLocalQueue_eq.
  rewrite (visit_empty_deque _ _ _ _ false) by done.
  cbn -[call PopTaskFromGlobalQueue PopTaskFromOtherThreadQueue].
  rewrite visit_empty_global by done.
  cbn -[call PopTaskFromOtherThreadQueue].
  rewrite PopTaskFromOtherThreadQueue_eq, logged_logged.
  change (budget (logged w (budget w) (visit (Local k) mu_ ++ global_visit)))
    with (budget w) in Heq.
  rewrite logged_logged in Heq.
  unfold global_visit, pop_events in Heq. cbn [map] in Heq.
  rewrite Heq. cbn -[call]. destruct found.
  - destruct Hf as [pt Hpt]. rewrite (call_eq _ _ _ _ Hpt), !logged_logged.
    exists (((visit (Local k) mu_ ++ global_visit) ++ es) ++
              [EvCall (FunctionWrapper.state_ pt)]), (ran pt p').
    split; [reflexivity|].
    rewrite !forallb_app, !calls_app, !yields_app, !polls_app, Hp, Hc, Hy, Hpo.
    split_and!; try done.
  - subst p'.
    exists (((visit (Local k) mu_ ++ global_visit) ++ es) ++ [EvYield]), p.
    split; [unfold emit, logged; cbn; by rewrite <- app_assoc|].
    rewrite !forallb_app, !calls_app, !yields_app, !polls_app, Hp, Hc, Hy, Hpo.
    by split_and!.
Qed.
End PoolFacts.

(** ** The pool: construction, submission, shutdown *)

Section PoolLife.
Context {R : Type}.
Implicit Types (p : ThreadPool.t R) (task : FunctionWrapper.t R) (w : env).
Implicit Types (g : LockedQueue.t (FunctionWrapper.t R)).

Lemma alloc_ok {St} (s : St) w b :
  budget w = S b → alloc s w = (Ok tt, s, logged w b [EvAlloc]).
Proof. intros Hb. unfold alloc. by rewrite Hb. Qed.


Lemma make_deques_ok ix p w :
  length ix ≤ budget w →
  for_each ix (λ _,
    alloc;;
    modify (λ p, set_locals
      (push_back WorkStealingQueue.WorkStealingQueue (local_task_queues_ p)) p)) p w =
  (Ok tt, set_locals (local_task_queues_ p ++ new_deques (length ix)) p,
   logged w (budget w - length ix) (replicate (length ix) EvAlloc)).
Proof.
  revert p w. induction ix as [|i ix IH]; intros p w Hb.
  - cbn. rewrite app_nil_r, set_locals_id, Nat.sub_0_r. by rewrite logged_nil.
  - cbn in Hb. cbn [for_each]. unfold mbind, M_bind, bind.
    destruct (budget w) as [|b] eqn:Hbw; [lia|].
    rewrite (alloc_ok _ _ b Hbw). cbn [modify]. rewrite IH by (cbn; lia).
    cbn. unfold push_back, logged. cbn. by rewrite <- !app_assoc.
Qed.

Lemma start_threads_ok ix p w :
  length ix ≤ budget w →
  for_each ix (λ i,
    alloc;;
    emit (EvSpawn i);;
    modify (λ p, set_threads (push_back (Thread i false true) (threads_ p)) p)) p w =
  (Ok tt, set_threads (threads_ p ++ new_threads ix) p,
   logged w (budget w - length ix) (spawn_events ix)).
Proof.
  revert p w. induction ix as [|i ix IH]; intros p w Hb.
  - cbn. rewrite app_nil_r, Nat.sub_0_r, logged_nil. by destruct p.
  - cbn in Hb. cbn [for_each]. unfold mbind, M_bind, bind.
    destruct (budget w) as [|b] eqn:Hbw; [lia|].
    rewrite (alloc_ok _ _ b Hbw). cbn [emit modify]. rewrite IH by (cbn; lia).
    cbn. unfold push_back, logged. cbn. by rewrite <- !app_assoc.
Qed.


Lemma ThreadPool_ok (hardware_concurrency : N) b :
  let n := N.to_nat hardware_concurrency in
  1 + 2 * n ≤ b →
  ∃ g, ThreadPool (R:=R) hardware_concurrency raw (Env b []) =
         (Ok tt, fresh_pool g n,
          Env (b - 1 - 2 * n)
            (EvIn Global EvAlloc :: replicate n EvAlloc ++ spawn_events (seq 0 n))) ∧
       Chain.represents g [].
Proof.
  intros n Hb. destruct b as [|b]; [lia|].
  destruct (LockedQueueFacts.LockedQueue_ok (T:=FunctionWrapper.t R) (Env (S b) []) b eq_refl)
    as (g & Hg & Hrep).
  exists g. split; [|done].
  unfold ThreadPool, within_global, within, catch_rethrow.
  unfold mbind, M_bind, bind. cbn [modify set_done raw done_ global_task_queue_ budget].
  rewrite Hg. cbn [logged budget trace set_global done_ local_task_queues_ threads_ shared_states app map].
  fold n. rewrite make_deques_ok by (rewrite length_seq; cbn; lia).
  rewrite start_threads_ok by (rewrite length_seq; cbn; lia).
  rewrite !length_seq. cbn. unfold fresh_pool, logged. cbn.
  replace (b - 0 - (n + (n + 0))) with (b - n - n) by lia. done.
Qed.

Lemma fresh_pool_inv g n : Chain.represents g [] → inv (fresh_pool g n).
Proof.
  intros Hg. split; [by exists []|]. cbn. unfold new_deques.
  apply Forall_forall. intros q Hq. apply elem_of_replicate in Hq as [-> _].
  by cbn.
Qed.

Lemma fresh_pool_empty g n o :
  Chain.represents g [] → o ∈ Global :: map Local (seq 0 n) →
  source_empty (fresh_pool g n) o.
Proof.
  intros Hg Ho. apply elem_of_cons in Ho as [->|Ho]; [done|].
  apply list_elem_of_In, in_map_iff in Ho as (i & <- & Hi). apply in_seq in Hi.
  cbn. unfold new_deques. apply lookup_replicate_2. lia.
Qed.

(** *** [Submit] *)


Lemma Submit_local me p i l f b :
  local_task_queue_ me = Some i →
  local_task_queues_ p !! i = Some (WorkStealingQueue.Make l) →
  Submit me f p (Env b []) =
    match b with
    | 0 => (Throw, p, Env 0 [])
    | 1 => (Throw, set_shared_states (<[new_state p := None]> (shared_states p)) p,
            Env 0 [EvAlloc])
    | S (S b') =>
        (Ok (new_state p),
         set_locals (<[i := WorkStealingQueue.Make (boxed p f :: l)]> (local_task_queues_ p))
           (set_shared_states (<[new_state p := None]> (shared_states p)) p),
         Env b' ([EvAlloc; EvAlloc] ++ visit (Local i) mu_))
    end.
Proof.
  intros Hme Hl. unfold Submit. rewrite Hme.
  unfold FunctionWrapper.FunctionWrapper_from, within_local, within.
  unfold WorkStealingQueue.Push. munfold. unfold alloc.
  destruct b as [|[|b]]; cbn; [done|done|]. rewrite Hl. done.
Qed.

Lemma Submit_global_ok me p ts f b :
  local_task_queue_ me = None →
  Chain.represents (global_task_queue_ p) ts →
  ∃ g, Submit me f p (Env (4 + b) []) =
         (Ok (new_state p),
          set_global g (set_shared_states (<[new_state p := None]> (shared_states p)) p),
          Env b ([EvAlloc; EvAlloc] ++ map (EvIn Global) push_events)) ∧
       Chain.represents g (ts ++ [boxed p f]).
Proof.
  intros Hme Hrep. unfold Submit. rewrite Hme.
  unfold FunctionWrapper.FunctionWrapper_from, within_global, within.
  unfold mbind, M_bind, bind, alloc, get, modify, ret. cbn -[LockedQueue.Push].
  destruct (LockedQueueFacts.Push_ok (global_task_queue_ p) (Env (S (S b)) []) ts
              (boxed p f) b Hrep eq_refl) as (g & Hg & Hrep').
  unfold boxed, new_state in Hg. rewrite Hg. exists g. split; [|done]. done.
Qed.




Lemma Submit_inv p me f b :
  inv p →
  (∀ i, local_task_queue_ me = Some i → i < length (local_task_queues_ p)) →
  inv (final (run (Submit me f) p b)) ∧
  same_frame p (final (run (Submit me f) p b)).
Proof.
  intros Hinv Hme. unfold run, final.
  destruct (local_task_queue_ me) as [i|] eqn:Hloc.
  - destruct (lookup_lt_is_Some_2 (local_task_queues_ p) i (Hme i eq_refl)) as [[l] Hl].
    rewrite (Submit_local me p i l f b Hloc Hl).
    destruct Hinv as [Hg Hlocals].
    destruct b as [|[|b]]; cbn [fst snd]; [done|done|].
    split; [split; [done|]|].
    + cbn. apply Forall_insert; [done|]. cbn. apply Forall_cons. split; [by eexists|].
      rewrite Forall_forall in Hlocals.
      apply (Hlocals _ (list_elem_of_lookup_2 _ _ _ Hl)).
    + split_and!; try done. cbn. by rewrite length_insert.
  - destruct Hinv as [(ts & Hrep & Hall) Hlocals].
    destruct (decide (b < 4)) as [Hlt|Hge].
    + unfold Submit. rewrite Hloc.
      unfold FunctionWrapper.FunctionWrapper_from, within_global, within.
      unfold mbind, M_bind, bind, alloc, get, modify, ret.
      destruct b as [|[|b]]; cbn -[LockedQueue.Push]; [by split; [split; eauto|]..|].
      destruct (LockedQueueFacts.Push_throw (global_task_queue_ p) (Env b [])
                  (FunctionWrapper.Make (Some (FunctionWrapper.Task
                     (fresh (dom (shared_states p))) f)))) as (es & -> & _);
        [cbn; lia|].
      cbn. split; [split; [|done]|done]. cbn. exists ts. by destruct (global_task_queue_ p).
    + replace b with (4 + (b - 4)) by lia.
      destruct (Submit_global_ok me p ts f (b - 4) Hloc Hrep) as (g & -> & Hg).
      cbn [fst snd]. split; [split; [|done]|done]. cbn.
      exists (ts ++ [boxed p f]). split; [done|].
      apply Forall_app. split; [done|]. apply Forall_singleton. by eexists.
Qed.
End PoolLife.

Section Shutdown.
Context {R : Type}.
Implicit Types (p : ThreadPool.t R) (w : env) (ts : list thread).

(** *** [~JoinThreads] *)

Lemma join_loop_spec ts2 : ∀ ts1 w,
  ∃ out ts' js,
    for_each (seq (length ts1) (length ts2)) join_body (ts1 ++ ts2) w =
      (out, ts1 ++ ts', logged w (budget w) (map EvJoin js)) ∧
    (out = Ok tt ∨ out = Blocks) ∧
    (Forall (λ th, joinable th = true → finished th = true) ts2 →
       out = Ok tt ∧ js = joins (length ts1) ts2 ∧ ts' = map joined ts2).
Proof.
  induction ts2 as [|th ts2 IH]; intros ts1 w.
  - exists (Ok tt), [], []. cbn. rewrite logged_nil. by split_and!; auto.
  - cbn [length seq for_each]. unfold mbind, M_bind, bind.
    unfold join_body at 1. munfold. rewrite list_lookup_middle by done.
    assert (Hnext : ∀ th', (ts1 ++ [th']) ++ ts2 = ts1 ++ th' :: ts2)
      by (intros; by rewrite <- app_assoc).
    assert (Hlen : ∀ th', length (ts1 ++ [th']) = S (length ts1))
      by (intros; rewrite length_app; cbn; lia).
    destruct (joinable th) eqn:Hj.
    + unfold JoinThreads.join. munfold. rewrite list_lookup_middle by done.
      destruct (finished th) eqn:Hf.
      * cbn. rewrite insert_app_r_alt by lia. rewrite Nat.sub_diag. cbn.
        destruct (IH (ts1 ++ [Thread (index th) true false])
                     (logged w (budget w) [EvJoin (length ts1)]))
          as (out & ts' & js & Heq & Hout & Hall).
        rewrite Hnext, Hlen in Heq. unfold logged in Heq. cbn in Heq. rewrite Heq.
        exists out, (Thread (index th) true false :: ts'), (length ts1 :: js).
        split.
        { unfold logged. cbn. by rewrite <- !app_assoc. }
        split; [done|]. intros Hfin. apply Forall_cons in Hfin as [_ Hfin].
        destruct (Hall Hfin) as (-> & -> & ->). rewrite Hlen.
        unfold joined at 2. by rewrite Hj.
      * cbn. exists Blocks, (th :: ts2), []. cbn. rewrite logged_nil.
        split_and!; auto. intros Hfin. apply Forall_cons in Hfin as [Hth _].
        specialize (Hth Hj). congruence.
    + cbn. destruct (IH (ts1 ++ [th]) w) as (out & ts' & js & Heq & Hout & Hall).
      rewrite Hnext, Hlen in Heq. rewrite Heq.
      exists out, (th :: ts'), js. split.
      { by rewrite <- app_assoc. }
      split; [done|]. intros Hfin. apply Forall_cons in Hfin as [_ Hfin].
      destruct (Hall Hfin) as (-> & -> & ->). rewrite Hlen.
      unfold joined at 2. by rewrite Hj.
Qed.

Lemma destructor_spec p w :
  ∃ out ts' js,
    destructor p w =
      (out, set_threads ts' (set_done true p),
       logged w (budget w) (EvStoreDone true :: map EvJoin js)) ∧
    (out = Ok tt ∨ out = Blocks) ∧
    (Forall (λ th, joinable th = true → finished th = true) (threads_ p) →
       out = Ok tt ∧ js = joins 0 (threads_ p) ∧ ts' = map joined (threads_ p)).
Proof.
  destruct (join_loop_spec (threads_ p) [] (logged w (budget w) [EvStoreDone true]))
    as (out & ts' & js & Heq & Hout & Hall).
  exists out, ts', js. split; [|done].
  unfold destructor, zoom, JoinThreads.destructor.
  unfold mbind, M_bind, bind, emit, modify, get. cbn -[for_each].
  cbn in Heq. unfold join_body in Heq. unfold mbind, M_bind, bind, get in Heq.
  unfold logged in Heq. cbn in Heq. rewrite Heq.
  unfold logged. cbn. by rewrite <- app_assoc.
Qed.

(** *** The worker loop *)

Lemma Worker_iteration_exit k p w :
  done_ p = true →
  Worker_iteration (worker k) p w = (Ok false, p, logged w (budget w) [EvLoadDone true]).
Proof. intros Hd. unfold Worker_iteration. munfold. by rewrite Hd. Qed.

Lemma Worker_iteration_turn k p w :
  done_ p = false → inv p → k < length (local_task_queues_ p) →
  ∃ es p',
    Worker_iteration (worker k) p w =
      (Ok true, p', logged w (budget w) (EvLoadDone false :: es)) ∧
    forallb (λ e, negb (parks e)) es = true ∧
    length (calls es) + yields es = 1 ∧ polls es = [] ∧
    inv p' ∧ same_frame p p'.
Proof.
  intros Hd Hinv Hk.
  destruct (RunPendingTask_total p k (logged w (budget w) [EvLoadDone false]) Hinv Hk)
    as (es & p' & Heq & Hrest).
  exists es, p'. split; [|done].
  unfold Worker_iteration. unfold mbind, M_bind, bind, get, emit. rewrite Hd.
  fold (logged w (budget w) [EvLoadDone false]). rewrite Heq.
  cbn. unfold logged. cbn. by rewrite <- app_assoc.
Qed.

Lemma Worker_loop_exit fuel k p w :
  done_ p = true →
  Worker_loop (S fuel) (worker k) p w =
    (Ok true, p, logged w (budget w) [EvLoadDone true]).
Proof.
  intros Hd. cbn [Worker_loop]. unfold mbind, M_bind, bind.
  by rewrite Worker_iteration_exit.
Qed.

Lemma Worker_loop_turns fuel k : ∀ p w,
  done_ p = false → inv p → k < length (local_task_queues_ p) →
  ∃ es p',
    Worker_loop fuel (worker k) p w = (Ok false, p', logged w (budget w) es) ∧
    forallb (λ e, negb (parks e)) es = true ∧
    length (calls es) + yields es = fuel ∧ polls es = replicate fuel false ∧
    inv p' ∧ same_frame p p'.
Proof.
  induction fuel as [|fuel IH]; intros p w Hd Hinv Hk.
  - exists [], p. cbn. rewrite logged_nil. by split_and!.
  - destruct (Worker_iteration_turn k p w Hd Hinv Hk)
      as (es1 & p1 & Heq1 & Hp1 & Hc1 & Hpo1 & Hinv1 & Hd1 & Ht1 & Hn1).
    destruct (IH p1 (logged w (budget w) (EvLoadDone false :: es1)))
      as (es2 & p2 & Heq2 & Hp2 & Hc2 & Hpo2 & Hinv2 & Hd2 & Ht2 & Hn2);
      [congruence|done|lia|].
    exists ((EvLoadDone false :: es1) ++ es2), p2. split.
    { cbn [Worker_loop]. unfold mbind, M_bind, bind. rewrite Heq1, Heq2.
      by rewrite logged_logged. }
    rewrite forallb_app, calls_app, yields_app, polls_app, length_app.
    change (forallb (λ e, negb (parks e)) (EvLoadDone false :: es1))
      with (forallb (λ e, negb (parks e)) es1).
    change (calls (EvLoadDone false :: es1)) with (calls es1).
    change (yields (EvLoadDone false :: es1)) with (yields es1).
    change (polls (EvLoadDone false :: es1)) with (false :: polls es1).
    rewrite Hp1, Hp2, Hpo1, Hpo2. split_and!; try done; try lia; try congruence.
    split_and!; congruence.
Qed.

Lemma Worker_eq fuel k p w :
  k < length (local_task_queues_ p) →
  Worker fuel (N.of_nat k) p w = Worker_loop fuel (worker k) p w.
Proof.
  intros Hk. unfold Worker, Worker_enter. unfold mbind, M_bind, bind, get.
  rewrite Nat2N.id.
  destruct (lookup_lt_is_Some_2 (local_task_queues_ p) k Hk) as [q ->]. done.
Qed.

(** C7. The destructor stores true into the shutdown flag and after that
    joins the worker threads, all of them once the workers have finished.
    Each turn of the loop of [Worker] reads the flag exactly once; while it
    is unset, [fuel] turns read it [fuel] times, each turn runs one task or
    yields once, and none parks (the pops it makes are [TryPop] and
    [TrySteal] only); once the flag is set the next read ends the loop
    without touching a queue. *)
Theorem shutdown_protocol p k b fuel :
  inv p → k < length (local_task_queues_ p) →
  (let r := run destructor p b in
   done_ (final r) = true ∧
   (∃ js, events r = EvStoreDone true :: map EvJoin js) ∧
   (result r = Ok tt ∨ result r = Blocks) ∧
   (Forall (λ th, joinable th = true → finished th = true) (threads_ p) →
      result r = Ok tt ∧
      events r = EvStoreDone true :: map EvJoin (joins 0 (threads_ p)) ∧
      Forall (λ th, joinable th = false) (threads_ (final r)))) ∧
  (done_ p = false →
   let r := run (Worker fuel (N.of_nat k)) p b in
   result r = Ok false ∧ polls (events r) = replicate fuel false ∧
   length (calls (events r)) + yields (events r) = fuel ∧
   forallb (λ e, negb (parks e)) (events r) = true ∧
   done_ (final r) = false ∧
   let r' := run (Worker_loop (S fuel) (worker k)) (set_done true (final r)) b in
   result r' = Ok true ∧ events r' = [EvLoadDone true]) ∧
  (done_ p = true →
   let r := run (Worker (S fuel) (N.of_nat k)) p b in
   result r = Ok true ∧ events r = [EvLoadDone true] ∧ final r = p).
Proof.
  intros Hinv Hk. split_and!.
  - unfold run, result, events, final.
    destruct (destructor_spec p (Env b [])) as (out & ts' & js & -> & Hout & Hall).
    cbn [fst snd trace logged app]. split_and!; eauto.
    intros Hfin. destruct (Hall Hfin) as (-> & -> & ->). split_and!; try done.
    cbn. apply Forall_forall. intros th Hth.
    apply list_elem_of_In, in_map_iff in Hth as (th0 & <- & _).
    unfold joined. by destruct (joinable th0) eqn:Hj.
  - intros Hd. unfold run, result, events, final.
    rewrite (Worker_eq fuel k p) by done.
    destruct (Worker_loop_turns fuel k p (Env b []) Hd Hinv Hk)
      as (es & p' & -> & Hp & Hc & Hpo & Hinv' & Hd' & _).
    cbn [fst snd trace logged app]. split_and!; try done; try congruence.
    all: by rewrite Worker_loop_exit.
  - intros Hd. unfold run, result, events, final.
    rewrite (Worker_eq (S fuel) k p) by done. by rewrite Worker_loop_exit.
Qed.

(** *** The constructor *)

Lemma ThreadPool_constructed (hardware_concurrency : N) b :
  let n := N.to_nat hardware_concurrency in
  let r := run (ThreadPool (R:=R) hardware_concurrency) raw b in
  1 + 2 * n ≤ b →
  result r = Ok tt ∧
  threads_ (final r) = new_threads (seq 0 n) ∧
  length (threads_ (final r)) = n ∧
  length (local_task_queues_ (final r)) = n ∧
  done_ (final r) = false ∧
  inv (final r) ∧
  (∀ o, o ∈ Global :: map Local (seq 0 n) → source_empty (final r) o).
Proof.
  intros n r Hb. unfold r, run, result, final.
  destruct (ThreadPool_ok (R:=R) hardware_concurrency b Hb) as (g & -> & Hg).
  cbn [fst snd]. fold n. split_and!; try done.
  - unfold fresh_pool, new_threads. cbn. by rewrite length_map, length_seq.
  - unfold fresh_pool, new_deques. cbn. by rewrite length_replicate.
  - by apply fresh_pool_inv.
  - intros o Ho. by apply fresh_pool_empty.
Qed.

(** C8, as the code has it: the constructor takes no argument; given the
    memory for its queues and threads it makes exactly as many workers, and
    as many deques, as the host reports hardware threads, worker [i] on
    deque [i], with the shutdown flag unset and every queue empty. *)
Theorem constructor_worker_count (hardware_concurrency : N) b :
  let n := N.to_nat hardware_concurrency in
  let r := run (ThreadPool (R:=R) hardware_concurrency) raw b in
  1 + 2 * n ≤ b →
  result r = Ok tt ∧
  threads_ (final r) = new_threads (seq 0 n) ∧
  length (threads_ (final r)) = n ∧
  length (local_task_queues_ (final r)) = n ∧
  done_ (final r) = false ∧
  inv (final r) ∧
  (∀ o, o ∈ Global :: map Local (seq 0 n) → source_empty (final r) o).
Proof. apply ThreadPool_constructed. Qed.
End Shutdown.

Lemma demo_pool_facts :
  inv demo_pool ∧ length (local_task_queues_ demo_pool) = 2 ∧
  done_ demo_pool = false ∧
  (∀ o, o ∈ Global :: map Local (seq 0 2) → source_empty demo_pool o).
Proof.
  destruct (ThreadPool_constructed (R:=nat) 2 5) as (_ & _ & _ & Hn & Hd & Hinv & He);
    [cbn; lia|].
  by split_and!.
Qed.


(** C5 as the specification words it, with the siblings only in step (3),
    fails on the idle two-worker pool: worker 0 goes to its own deque a
    second time, as a thief, after deque 1. *)
Lemma steals_from_own_deque_too :
  attempts (events (run (RunPendingTask (worker 0)) demo_pool 0))
    = [Local 0; Global; Local 1; Local 0] ∧
  attempts (events (run (RunPendingTask (worker 0)) demo_pool 0))
    ≠ Local 0 :: Global :: map Local (siblings 0 2).
Proof. split; [vm_compute; reflexivity|]. vm_compute. discriminate. Qed.

Lemma run_pending_task_order_witness :
  inv demo_pool ∧ 0 < length (local_task_queues_ demo_pool) ∧
  (N.of_nat (length (local_task_queues_ demo_pool)) <= 2147483648)%N ∧
  attempts (events (run (RunPendingTask (worker 0)) demo_pool 0)) = visit_order 0 2 ∧
  yields (events (run (RunPendingTask (worker 0)) demo_pool 0)) = 1.
Proof.
  destruct demo_pool_facts as (Hinv & Hn & Hd & He).
  split; [exact Hinv|]. split; [rewrite Hn; lia|]. split; [rewrite Hn; lia|].
  destruct (run_pending_task_order demo_pool 0 0 Hinv) as [Hidle _];
    [rewrite Hn; lia | rewrite Hn; lia |].
  rewrite Hn in Hidle. destruct Hidle as (_ & Ha & _ & Hy & _); [|by split].
  intros o Ho. apply He. vm_compute in Ho |- *.
  repeat (apply elem_of_cons in Ho as [->|Ho]; [set_solver|]).
  by apply elem_of_nil in Ho.
Defined.


Lemma shutdown_protocol_witness :
  inv demo_pool ∧ 0 < length (local_task_queues_ demo_pool) ∧
  done_ demo_pool = false ∧
  polls (events (run (Worker 3 0) demo_pool 0)) = [false; false; false] ∧
  result (run (Worker_loop 4 (worker 0))
              (set_done true (final (run (Worker 3 0) demo_pool 0))) 0)
    = Ok true.
Proof.
  destruct demo_pool_facts as (Hinv & Hn & Hd & He).
  split; [exact Hinv|]. split; [rewrite Hn; lia|]. split; [exact Hd|].
  destruct (shutdown_protocol demo_pool 0 0 3 Hinv) as (_ & Hloop & _);
    [rewrite Hn; lia|].
  destruct (Hloop Hd) as (_ & Hpolls & _ & _ & _ & Hexit & _). by split.
Defined.

Lemma constructor_worker_count_witness :
  1 + 2 * N.to_nat 2 ≤ 5 ∧
  result (run (ThreadPool (R:=nat) 2) raw 5) = Ok tt ∧
  length (threads_ (final (run (ThreadPool (R:=nat) 2) raw 5))) = 2.
Proof.
  split; [vm_compute; lia|].
  destruct (constructor_worker_count (R:=nat) 2 5) as (Hr & _ & Hlen & _);
    [vm_compute; lia|].
  by split.
Defined.

(** C8 as the specification words it, with an override of the worker
    count, fails: on a host with four hardware threads no run of the
    constructor, the only one there is, makes a pool of two workers. *)
Lemma no_worker_count_override :
  ¬ ∃ b, result (run (ThreadPool (R:=nat) 4) raw b) = Ok tt ∧
         length (threads_ (final (run (ThreadPool (R:=nat) 4) raw b))) = 2.
Proof.
  intros (b & Hres & Hlen).
  destruct (decide (9 ≤ b)) as [Hb|Hb].
  - destruct (ThreadPool_constructed (R:=nat) 4 b) as (_ & _ & Hn & _); [cbn; lia|].
    rewrite Hn in Hlen. discriminate Hlen.
  - do 9 (destruct b as [|b]; [vm_compute in Hres; discriminate Hres|]). lia.
Qed.

(** ** Every state of a pool keeps the invariant *)

Section Reachable.
Context {R : Type}.
Implicit Types (p : ThreadPool.t R).

Lemma act_inv (a : PoolHistory.action R) p b :
  inv p → PoolHistory.caller_ok (length (local_task_queues_ p)) a →
  inv (final (run (PoolHistory.act a) p b)) ∧
  length (local_task_queues_ (final (run (PoolHistory.act a) p b))) =
    length (local_task_queues_ p).
Proof.
  intros Hinv Hok. destruct a as [me f|me|k|]; cbn in Hok.
  - destruct (Submit_inv p me f b Hinv Hok) as (Hinv' & _ & _ & Hlen).
    unfold run, final in *. cbn [PoolHistory.act]. unfold mbind, M_bind, bind.
    by destruct (Submit me f p (Env b [])) as [[[]]].
  - destruct Hok as (k & -> & Hk).
    destruct (RunPendingTask_total p k (Env b []) Hinv Hk)
      as (es & p' & Heq & _ & _ & _ & Hinv' & _ & _ & Hlen).
    unfold run, final. cbn [PoolHistory.act]. by rewrite Heq.
  - unfold run, final. cbn [PoolHistory.act]. unfold mbind, M_bind, bind.
    destruct (done_ p) eqn:Hd.
    + by rewrite Worker_iteration_exit.
    + destruct (Worker_iteration_turn k p (Env b []) Hd Hinv Hok)
        as (es & p' & -> & _ & _ & _ & Hinv' & _ & _ & Hlen).
      done.
  - by destruct Hinv.
Qed.

(** Whatever the threads have done to a pool since its construction, the
    invariant holds. *)
Lemma reachable_inv (hardware_concurrency : N) (l : list (PoolHistory.action R)) b :
  let n := N.to_nat hardware_concurrency in
  1 + 2 * n ≤ b →
  Forall (PoolHistory.caller_ok n) l →
  let p0 := final (run (ThreadPool hardware_concurrency) raw b) in
  inv (PoolHistory.play l p0 b).1 ∧
  length (local_task_queues_ (PoolHistory.play l p0 b).1) = n.
Proof.
  intros n Hb Hl p0.
  destruct (ThreadPool_constructed (R:=R) hardware_concurrency b Hb)
    as (_ & _ & _ & Hn & _ & Hinv & _).
  fold p0 in Hn, Hinv. fold n in Hn. clearbody p0. clear Hb.
  revert b p0 Hn Hinv.
  induction l as [|a l IH]; intros b' p0 Hn Hinv; [done|].
  apply Forall_cons in Hl as [Ha Hl]. cbn [PoolHistory.play].
  destruct (act_inv a p0 b' Hinv) as [Hinv' Hlen]; [by rewrite Hn|].
  apply IH; [done|congruence|done].
Qed.

(** A thread from outside that calls [RunPendingTask] has no deque of its
    own and [my_index_] 0: it goes to the global queue and then to the deques
    1, ..., n - 1, 0, and so reaches a task that waits on deque 0. *)
Lemma outside_caller_reaches_deque_0 :
  let p := final (run (Submit (worker 0) (λ _, 7)) demo_pool 4) in
  let r := run (RunPendingTask external) p 0 in
  attempts (events r) = [Global; Local 1; Local 0] ∧
  calls (events r) = [new_state demo_pool] ∧
  shared_states (final r) !! new_state demo_pool = Some (Some 7).
Proof. vm_compute. done. Qed.
End Reachable.

(** ** More of the pool *)

Import PoolCases Ledger.

Section MorePool.
Context {R : Type}.
Implicit Types (p : ThreadPool.t R) (task t : FunctionWrapper.t R) (w : env).
Implicit Types (pt : FunctionWrapper.packaged_task R).

(** The first deque on the thief's round that is not empty, if there is one. *)
Lemma first_loaded_deque me p (ix : list nat) :
  0 < length (local_task_queues_ p) →
  let n := length (local_task_queues_ p) in
  (∀ i, i ∈ ix → source_empty p (Local (target me n i))) ∨
  ∃ pre i post l t,
    ix = pre ++ i :: post ∧
    (∀ j, j ∈ pre → source_empty p (Local (target me n j))) ∧
    local_task_queues_ p !! target me n i = Some (WorkStealingQueue.Make (l ++ [t])).
Proof.
  intros Hn n. induction ix as [|i ix IH].
  - left. intros i Hi. by apply elem_of_nil in Hi.
  - destruct (lookup_lt_is_Some_2 (local_task_queues_ p) (target me n i))
      as [[l] Hl]; [by apply target_lt |].
    destruct (decide (l = [])) as [-> | Hne].
    + destruct IH as [Hall | (pre & j & post & l & t & -> & Hpre & Hj)].
      * left. intros j Hj. apply elem_of_cons in Hj as [-> | Hj]; [done | auto].
      * right. exists (i :: pre), j, post, l, t. split_and!; [done | | done].
        intros j' Hj'. apply elem_of_cons in Hj' as [-> | Hj']; [done | auto].
    + right. destruct (exists_last Hne) as (l' & t & ->).
      exists [], i, ix, l', t. split_and!; [done | | done].
      intros j Hj. by apply elem_of_nil in Hj.
Qed.

Lemma RunPendingTask_cases p k w :
  inv p → k < length (local_task_queues_ p) → run_case p k w.
Proof.
  intros Hinv Hk.
  destruct (lookup_lt_is_Some_2 (local_task_queues_ p) k Hk) as [[l] Hl].
  destruct l as [|t l].
  2:{ destruct (inv_loaded_local p k _ t Hinv Hl) as [pt Hpt]; [left |].
      apply (run_case_local p k w t l pt Hl Hpt). by apply (run_local k t l pt). }
  destruct Hinv as [(ts & Hrep & Hall) Hloc].
  assert (Hinv : inv p) by (split; eauto).
  destruct ts as [|t ts].
  2:{ destruct (inv_loaded_global p t ts Hinv Hrep) as [pt Hpt].
      destruct (run_global k t ts pt p w Hl Hrep Hpt) as (g & Heq & Hg).
      by apply (run_case_global p k w t ts pt g). }
  destruct (first_loaded_deque (worker k) p (seq 0 (length (local_task_queues_ p))))
    as [Hall' | (pre & i & post & l & t & Hseq & Hpre & Hi)]; [lia | |].
  - apply run_case_idle.
    + intros o Ho. apply elem_of_cons in Ho as [-> | Ho]; [done |].
      apply elem_of_cons in Ho as [-> | Ho]; [done |].
      apply list_elem_of_fmap in Ho as (i & -> & Hi). by apply Hall'.
    + by apply run_idle.
  - destruct (inv_loaded_local p _ _ t Hinv Hi) as [pt Hpt].
    { apply elem_of_app. right. by left. }
    apply (run_case_steal p k w pre i post t l pt); try done. by apply (run_steal k pre i post t l pt).
Qed.
(** The round of a thief reaches every deque. *)
Lemma target_onto k n j :
  k < n → j < n → (N.of_nat n <= 2147483648)%N →
  ∃ i, i < n ∧ target (worker k) n i = j.
Proof.
  intros Hk Hj Hn. exists ((j + n - (k + 1)) mod n).
  assert (Hi : (j + n - (k + 1)) mod n < n) by (apply Nat.mod_upper_bound; lia).
  split; [done |]. rewrite target_worker by done.
  rewrite Nat.Div0.add_mod_idemp_r.
  replace (k + 1 + (j + n - (k + 1))) with (j + 1 * n) by lia.
  rewrite Nat.Div0.mod_add. by apply Nat.mod_small.
Qed.

(** The queues a worker that finds nothing has looked at are all the
    queues of the pool. *)
Lemma visited_all_empty p k :
  let n := length (local_task_queues_ p) in
  k < n → (N.of_nat n <= 2147483648)%N →
  (∀ o, o ∈ Local k :: Global :: map (λ i, Local (target (worker k) n i)) (seq 0 n) →
     source_empty p o) →
  Chain.represents (global_task_queue_ p) [] ∧
  Forall (λ q, WorkStealingQueue.q_ q = []) (local_task_queues_ p).
Proof.
  intros n Hk Hn Hall.
  split; [apply (Hall Global); set_solver |].
  apply Forall_lookup. intros j [l] Hj.
  destruct (target_onto k n j Hk (lookup_lt_Some _ _ _ Hj) Hn) as (i & Hi & Ht).
  assert (Hs : source_empty p (Local (target (worker k) n i))).
  { apply Hall. do 2 right. apply list_elem_of_In, in_map_iff. exists i.
    split; [done |]. apply in_seq. lia. }
  cbn in Hs. rewrite Ht, Hj in Hs. by injection Hs as ->.
Qed.

End MorePool.

Section OutsideCases.
Context {R : Type}.
Implicit Types (p : ThreadPool.t R) (task t : FunctionWrapper.t R) (w : env).
Implicit Types (pt : FunctionWrapper.packaged_task R).

Lemma run_outside_global t ts pt p w :
  Chain.represents (global_task_queue_ p) (t :: ts) →
  FunctionWrapper.impl_ t = Some pt →
  ∃ g, RunPendingTask external p w =
         (Ok tt, ran pt (set_global g p),
          logged w (budget w) (global_visit ++ [EvCall (FunctionWrapper.state_ pt)])) ∧
       Chain.represents g ts.
Proof.
  intros Hrep Hpt. unfold RunPendingTask; unfold mbind, M_bind, bind. cbn -[call PopTaskFromGlobalQueue].
  destruct (visit_global FunctionWrapper.FunctionWrapper t ts p w Hrep) as (g & -> & Hg).
  exists g. split; [| done]. cbn -[call].
  rewrite (call_eq _ _ _ _ Hpt). by rewrite !logged_logged.
Qed.

Lemma run_outside_steal pre i post t l pt p w :
  let n := length (local_task_queues_ p) in
  source_empty p Global →
  seq 0 n = pre ++ i :: post →
  (∀ j, j ∈ pre → source_empty p (Local (target external n j))) →
  local_task_queues_ p !! target external n i = Some (WorkStealingQueue.Make (l ++ [t])) →
  FunctionWrapper.impl_ t = Some pt →
  RunPendingTask external p w =
    (Ok tt,
     ran pt (set_locals (<[target external n i := WorkStealingQueue.Make l]>
                            (local_task_queues_ p)) p),
     logged w (budget w)
       (global_visit ++ steal_visits external n (pre ++ [i]) ++
        [EvCall (FunctionWrapper.state_ pt)])).
Proof.
  intros n Hg Hseq Hpre Hi Hpt. unfold RunPendingTask; unfold mbind, M_bind, bind.
  cbn -[call PopTaskFromGlobalQueue PopTaskFromOtherThreadQueue].
  rewrite visit_empty_global by done.
  cbn -[call PopTaskFromOtherThreadQueue].
  rewrite PopTaskFromOtherThreadQueue_eq. fold n. rewrite Hseq.
  rewrite (steal_loop_found external pre i post _ t l) by done.
  cbn -[call]. rewrite (call_eq _ _ _ _ Hpt). by rewrite !logged_logged.
Qed.

Lemma run_outside_idle p w :
  let n := length (local_task_queues_ p) in
  source_empty p Global →
  (∀ j, j ∈ seq 0 n → source_empty p (Local (target external n j))) →
  RunPendingTask external p w =
    (Ok tt, p,
     logged w (budget w) (global_visit ++ steal_visits external n (seq 0 n) ++ [EvYield])).
Proof.
  intros n Hg Hall. unfold RunPendingTask; unfold mbind, M_bind, bind.
  cbn -[PopTaskFromGlobalQueue PopTaskFromOtherThreadQueue].
  rewrite visit_empty_global by done.
  cbn -[PopTaskFromOtherThreadQueue].
  rewrite PopTaskFromOtherThreadQueue_eq. rewrite steal_loop_empty by done.
  cbn. unfold emit. cbn. unfold logged. cbn.
  by rewrite <- !app_assoc.
Qed.

(** What a call of [RunPendingTask] by a thread from outside does, by the
    queue it finds a task in. *)
Lemma RunPendingTask_outside_cases p w :
  inv p →
  let n := length (local_task_queues_ p) in
  (source_empty p Global ∧
   (∀ j, j ∈ seq 0 n → source_empty p (Local (target external n j))) ∧
   RunPendingTask external p w =
     (Ok tt, p,
      logged w (budget w) (global_visit ++ steal_visits external n (seq 0 n) ++ [EvYield])))
  ∨ (∃ t ts pt g,
       Chain.represents (global_task_queue_ p) (t :: ts) ∧
       FunctionWrapper.impl_ t = Some pt ∧ Chain.represents g ts ∧
       RunPendingTask external p w =
         (Ok tt, ran pt (set_global g p),
          logged w (budget w) (global_visit ++ [EvCall (FunctionWrapper.state_ pt)])))
  ∨ (∃ pre i post t l pt,
       source_empty p Global ∧ seq 0 n = pre ++ i :: post ∧
       (∀ j, j ∈ pre → source_empty p (Local (target external n j))) ∧
       local_task_queues_ p !! target external n i =
         Some (WorkStealingQueue.Make (l ++ [t])) ∧
       FunctionWrapper.impl_ t = Some pt ∧
       RunPendingTask external p w =
         (Ok tt,
          ran pt (set_locals (<[target external n i := WorkStealingQueue.Make l]>
                                 (local_task_queues_ p)) p),
          logged w (budget w)
            (global_visit ++ steal_visits external n (pre ++ [i]) ++
             [EvCall (FunctionWrapper.state_ pt)]))).
Proof.
  intros Hinv n.
  pose proof Hinv as [(ts & Hrep & Hall) Hloc].
  destruct ts as [|t ts].
  2:{ destruct (inv_loaded_global p t ts Hinv Hrep) as [pt Hpt].
      destruct (run_outside_global t ts pt p w Hrep Hpt) as (g & Heq & Hg).
      right. left. by exists t, ts, pt, g. }
  assert (Hcase :
    (∀ i, i ∈ seq 0 n → source_empty p (Local (target external n i))) ∨
    ∃ pre i post l t,
      seq 0 n = pre ++ i :: post ∧
      (∀ j, j ∈ pre → source_empty p (Local (target external n j))) ∧
      local_task_queues_ p !! target external n i = Some (WorkStealingQueue.Make (l ++ [t]))).
  { destruct (decide (0 < n)) as [Hpos | Hzero].
    - by apply first_loaded_deque.
    - left. replace n with 0 by lia. by intros i ?%elem_of_nil. }
  destruct Hcase as [Hall' | (pre & i & post & l & t & Hseq & Hpre & Hi)].
  - left. split_and!; [done | done |]. by apply run_outside_idle.
  - destruct (inv_loaded_local p _ _ t Hinv Hi) as [pt Hpt].
    { apply elem_of_app. right. by left. }
    do 2 right. exists pre, i, post, t, l, pt. split_and!; try done.
    by apply (run_outside_steal pre i post t l pt).
Qed.
End OutsideCases.

Section LedgerFacts.
Context {R : Type}.
Implicit Types (p : ThreadPool.t R) (l : list (PoolHistory.action R)).
Implicit Types (pt : FunctionWrapper.packaged_task R) (t : FunctionWrapper.t R).
Implicit Types (W : list (FunctionWrapper.packaged_task R)) (S : gmap nat (option R)).
Implicit Types (H : list (nat * (unit → R))) (C : list nat).





(** *** The queues of the pool *)






(** *** One action *)



Lemma Submit_global_throw_state me p f b :
  local_task_queue_ me = None → b < 4 →
  ∃ p', Submit me f p (Env b []) =
          (Throw, p',
           Env 0 (replicate (Nat.min b 2) EvAlloc ++
                  replicate (b - 2) (EvIn Global EvAlloc))) ∧
    (p' = p ∨
     p' = set_shared_states (<[new_state p := None]> (shared_states p)) p).
Proof.
  intros Hme Hb. unfold Submit. rewrite Hme.
  unfold FunctionWrapper.FunctionWrapper_from, within_global, within.
  unfold mbind, M_bind, bind, alloc, get, modify, ret.
  destruct b as [|[|b]]; cbn -[LockedQueue.Push]; [by eexists; eauto.. |].
  destruct (LockedQueueFacts.Push_throw (global_task_queue_ p) (Env b [])
              (FunctionWrapper.Make (Some (FunctionWrapper.Task
                 (fresh (dom (shared_states p))) f)))) as (es & Heq & Hes);
    [cbn; lia |].
  rewrite Heq. cbn. eexists. split; [| right; by destruct p].
  destruct b as [|[|b]]; [| | lia].
  - destruct Hes as [-> | ->]; [done |].
    exfalso. unfold LockedQueue.Push, LockedQueue.new_Node, alloc in Heq.
    revert Heq. munfold. cbn. unfold logged. cbn. congruence.
  - destruct Hes as [-> | ->]; [| done].
    exfalso. unfold LockedQueue.Push, LockedQueue.new_Node, alloc in Heq.
    revert Heq. munfold. cbn. unfold logged. cbn. congruence.
Qed.





Lemma caller_any_ok n (a : PoolHistory.action R) :
  caller_any n a →
  PoolHistory.caller_ok n a ∨ a = PoolHistory.Runs external.
Proof.
  destruct a as [me f | me | k |]; cbn; auto.
  intros [-> | Hk]; auto.
Qed.





(** *** Draining the queues *)






End LedgerFacts.



(** ** The pool: who runs what, and when *)

Section WorkConservation.
Context {R : Type}.
Implicit Types (p : ThreadPool.t R) (task t : FunctionWrapper.t R) (w : env).
Implicit Types (pt : FunctionWrapper.packaged_task R).

(** X12. A worker that calls [RunPendingTask] yields only when every queue
    of the pool is empty, and then changes nothing; while a task waits in
    any queue, in its own deque, the global queue or the deque of any other
    worker, the call runs exactly one task, whose future is ready when the
    call returns, and does not yield. *)
Theorem worker_yields_only_when_all_empty p k b :
  let n := length (local_task_queues_ p) in
  let r := run (RunPendingTask (worker k)) p b in
  let all_empty :=
    Chain.represents (global_task_queue_ p) [] ∧
    Forall (λ q, WorkStealingQueue.q_ q = []) (local_task_queues_ p) in
  inv p → k < n → (N.of_nat n <= 2147483648)%N →
  result r = Ok tt ∧
  (all_empty → final r = p ∧ calls (events r) = [] ∧ yields (events r) = 1) ∧
  (¬ all_empty →
     ∃ sid v, calls (events r) = [sid] ∧ yields (events r) = 0 ∧
              shared_states (final r) !! sid = Some (Some v)).
Proof.
  intros n r all_empty Hinv Hk Hn. unfold r, run, result, events, final.
  assert (Hlocal : ∀ i l, all_empty →
            local_task_queues_ p !! i = Some (WorkStealingQueue.Make l) → l = []).
  { intros i l [_ Hall] Hi. rewrite Forall_lookup in Hall. exact (Hall i _ Hi). }
  destruct (RunPendingTask_cases p k (Env b []) Hinv Hk)
    as [n' Hall Heq | t l pt Hl Hpt Heq | t ts pt g Hk0 Hrep' Hpt Hg Heq
        | pre i post t l pt n' Hk0 Hg Hseq Hpre Hi Hpt Heq]; rewrite Heq;
    try subst n'; cbn [fst snd logged trace app]; (split; [done |]).
  - assert (Hempty : all_empty) by (by apply (visited_all_empty p k)).
    split; [| done]. intros _.
    rewrite !calls_app, !yields_app.
    destruct (steal_visits_shows (worker k) n (seq 0 n)) as (_ & Hc & Hy & _).
    unfold n in Hc, Hy. rewrite Hc, Hy. done.
  - split.
    + intros He. by specialize (Hlocal k _ He Hl).
    + intros _. exists (FunctionWrapper.state_ pt), (FunctionWrapper.f_ pt tt).
      split_and!; [done | done |]. cbn. apply lookup_insert_eq.
  - split.
    + intros [He _]. by specialize (represents_inj _ _ _ He Hrep').
    + intros _. exists (FunctionWrapper.state_ pt), (FunctionWrapper.f_ pt tt).
      split_and!; [done | done |]. cbn. apply lookup_insert_eq.
  - split.
    + intros He. specialize (Hlocal _ _ He Hi). by destruct l.
    + intros _. exists (FunctionWrapper.state_ pt), (FunctionWrapper.f_ pt tt).
      rewrite !calls_app, !yields_app.
      destruct (steal_visits_shows (worker k) n (pre ++ [i])) as (_ & Hc & Hy & _).
      unfold n in Hc, Hy. rewrite Hc, Hy.
      split_and!; [done | done |]. cbn. apply lookup_insert_eq.
Qed.
End WorkConservation.

Lemma worker_yields_only_when_all_empty_witness :
  inv demo_pool ∧ 0 < length (local_task_queues_ demo_pool) ∧
  (N.of_nat (length (local_task_queues_ demo_pool)) <= 2147483648)%N ∧
  result (run (RunPendingTask (worker 0)) demo_pool 0) = Ok tt.
Proof.
  destruct demo_pool_facts as (Hinv & Hn & Hd & He).
  split; [exact Hinv |]. split; [rewrite Hn; lia |]. split; [rewrite Hn; lia |].
  destruct (worker_yields_only_when_all_empty demo_pool 0 0 Hinv) as [Hr _];
    [rewrite Hn; lia | rewrite Hn; lia |].
  exact Hr.
Defined.

Section OutsideCaller.
Context {R : Type}.
Implicit Types (p : ThreadPool.t R) (task t : FunctionWrapper.t R) (w : env).
Implicit Types (pt : FunctionWrapper.packaged_task R).

(** X9. A thread that is not a worker of the pool and calls
    [RunPendingTask] never crashes and goes to the global queue first: it
    runs the oldest task of that queue when there is one; else it steals from
    the back of the first deque that is not empty, on the round
    [1, ..., n - 1, 0]; it yields only when every queue of the pool is
    empty.  The task it runs is run once and its future is ready when the
    call returns. *)
Theorem outside_caller_helps p b :
  let n := length (local_task_queues_ p) in
  let r := run (RunPendingTask external) p b in
  let all_empty :=
    Chain.represents (global_task_queue_ p) [] ∧
    Forall (λ q, WorkStealingQueue.q_ q = []) (local_task_queues_ p) in
  inv p → (N.of_nat n <= 2147483648)%N →
  result r = Ok tt ∧
  head (attempts (events r)) = Some Global ∧
  (∀ t ts, Chain.represents (global_task_queue_ p) (t :: ts) →
     ∃ pt, FunctionWrapper.impl_ t = Some pt ∧
           attempts (events r) = [Global] ∧
           calls (events r) = [FunctionWrapper.state_ pt] ∧
           Chain.represents (global_task_queue_ (final r)) ts ∧
           local_task_queues_ (final r) = local_task_queues_ p) ∧
  (∀ pre i post t l,
     Chain.represents (global_task_queue_ p) [] →
     steal_order 0 n = pre ++ i :: post →
     (∀ j, j ∈ pre → source_empty p (Local j)) →
     local_task_queues_ p !! i = Some (WorkStealingQueue.Make (l ++ [t])) →
     ∃ pt, FunctionWrapper.impl_ t = Some pt ∧
           attempts (events r) = Global :: map Local (pre ++ [i]) ∧
           calls (events r) = [FunctionWrapper.state_ pt] ∧
           local_task_queues_ (final r) =
             <[i := WorkStealingQueue.Make l]> (local_task_queues_ p) ∧
           global_task_queue_ (final r) = global_task_queue_ p) ∧
  (all_empty →
     final r = p ∧ calls (events r) = [] ∧ yields (events r) = 1 ∧
     attempts (events r) = Global :: map Local (steal_order 0 n)) ∧
  (¬ all_empty →
     ∃ sid v, calls (events r) = [sid] ∧ yields (events r) = 0 ∧
              shared_states (final r) !! sid = Some (Some v)).
Proof.
  intros n r all_empty Hinv Hn. unfold r, run, result, events, final.
  assert (Hlocal : ∀ i l, all_empty →
            local_task_queues_ p !! i = Some (WorkStealingQueue.Make l) → l = []).
  { intros i l [_ Hall] Hi. rewrite Forall_lookup in Hall. exact (Hall i _ Hi). }
  assert (Hext : ∀ i, target external n i = target (worker 0) n i) by done.
  assert (Hsteal : ∀ pre i post t l,
     Chain.represents (global_task_queue_ p) [] →
     steal_order 0 n = pre ++ i :: post →
     (∀ j, j ∈ pre → source_empty p (Local j)) →
     local_task_queues_ p !! i = Some (WorkStealingQueue.Make (l ++ [t])) →
     ∃ pt, FunctionWrapper.impl_ t = Some pt ∧
           attempts (trace (RunPendingTask external p (Env b [])).2) =
             Global :: map Local (pre ++ [i]) ∧
           calls (trace (RunPendingTask external p (Env b [])).2) =
             [FunctionWrapper.state_ pt] ∧
           local_task_queues_ (RunPendingTask external p (Env b [])).1.2 =
             <[i := WorkStealingQueue.Make l]> (local_task_queues_ p) ∧
           global_task_queue_ (RunPendingTask external p (Env b [])).1.2 =
             global_task_queue_ p).
  { intros pre i post t l Hg Hsplit Hpre Hi.
    assert (Hpos : 0 < n).
    { destruct (decide (0 < n)) as [? | Hz]; [done |]. exfalso.
      replace n with 0 in Hsplit by lia. by destruct pre. }
    rewrite <- (targets_worker 0 n) in Hsplit by done.
    apply map_eq_app in Hsplit as (ix1 & ix2' & Hix & <- & Hix2).
    destruct ix2' as [| i0 ix2]; [done |]. cbn in Hix2. injection Hix2 as <- _.
    destruct (inv_loaded_local p _ _ t Hinv Hi) as [pt Hpt].
    { apply elem_of_app. right. by left. }
    exists pt.
    rewrite (run_outside_steal ix1 i0 ix2 t l pt); try done.
    - cbn [fst snd logged trace app].
      pose proof (steal_visits_shows external n (ix1 ++ [i0])) as (Ha & Hc & Hy & _).
      rewrite !attempts_app, !calls_app. unfold n in Ha, Hc. rewrite Ha, Hc. fold n.
      split_and!; try done. cbn. rewrite app_nil_r. f_equal.
      by rewrite !map_app, !map_map.
    - intros j Hj. apply Hpre. apply list_elem_of_In, in_map. by apply list_elem_of_In. }
  destruct (RunPendingTask_outside_cases p (Env b []) Hinv)
    as [(Hg & Hall' & ->) | [(t & ts & pt & g & Hrep & Hpt & Hg & ->)
        | (pre & i & post & t & l & pt & Hg & Hseq & Hpre & Hi & Hpt & ->)]];
    cbn [fst snd logged trace app].
  - pose proof (steal_visits_shows external n (seq 0 n)) as (Ha & Hc & Hy & _).
    rewrite !attempts_app, !calls_app, !yields_app. unfold n in Ha, Hc, Hy.
    rewrite Ha, Hc, Hy. fold n.
    assert (Hempty : all_empty).
    { split; [done |]. apply Forall_lookup. intros j [l] Hj.
      pose proof (lookup_lt_Some _ _ _ Hj) as Hjn. fold n in Hjn.
      destruct (target_onto 0 n j ltac:(lia) Hjn Hn) as (i & Hi & Ht).
      assert (Hs : source_empty p (Local (target external n i))).
      { apply Hall'. apply list_elem_of_In, in_seq. lia. }
      rewrite Hext in Hs. cbn in Hs. rewrite Ht, Hj in Hs. by injection Hs as ->. }
    split_and!; [done | done | | | | done].
    + intros t ts Hrep'. by specialize (represents_inj _ _ _ Hg Hrep').
    + intros pre i post t l Hg' Hsplit Hpre Hi. exfalso.
      assert (Hin : i ∈ steal_order 0 n) by (rewrite Hsplit; set_solver).
      destruct (decide (0 < n)) as [Hpos | Hz];
        [| replace n with 0 in Hin by lia; by apply elem_of_nil in Hin].
      rewrite <- (targets_worker 0 n) in Hin by done.
      apply list_elem_of_In, in_map_iff in Hin as (i0 & <- & Hi0).
      specialize (Hall' i0 ltac:(by apply list_elem_of_In)).
      rewrite Hext in Hall'. cbn in Hall'. rewrite Hall' in Hi.
      injection Hi as Hi. by destruct l.
    + intros _. split_and!; [done | done | done |]. cbn. f_equal.
      rewrite app_nil_r.
      destruct (decide (0 < n)) as [Hpos | Hzero].
      * rewrite <- (targets_worker 0 n) by done. by rewrite map_map.
      * by replace n with 0 by lia.
  - split_and!; [done | done | | | |].
    + intros t' ts' Hrep'.
      pose proof (represents_inj _ _ _ Hrep Hrep') as [= <- <-].
      exists pt. by split_and!.
    + intros pre i post t' l Hg' _ _ _. by specialize (represents_inj _ _ _ Hg' Hrep).
    + intros [He _]. by specialize (represents_inj _ _ _ He Hrep).
    + intros _. exists (FunctionWrapper.state_ pt), (FunctionWrapper.f_ pt tt).
      split_and!; [done | done |]. cbn. apply lookup_insert_eq.
  - pose proof (steal_visits_shows external n (pre ++ [i])) as (Ha & Hc & Hy & _).
    rewrite !attempts_app, !calls_app, !yields_app. unfold n in Ha, Hc, Hy.
    rewrite Ha, Hc, Hy. fold n.
    split_and!; [done | done | | | |].
    + intros t' ts Hrep'. by specialize (represents_inj _ _ _ Hg Hrep').
    + intros pre' i' post' t' l' Hg' Hsplit' Hpre' Hi'.
      pose proof (Hsteal pre' i' post' t' l' Hg' Hsplit' Hpre' Hi') as Hs.
      rewrite (run_outside_steal pre i post t l pt) in Hs by done.
      cbn [fst snd logged trace app] in Hs.
      rewrite !attempts_app, !calls_app in Hs. unfold n in Hs. rewrite Ha, Hc in Hs.
      exact Hs.
    + intros He. specialize (Hlocal _ _ He Hi). by destruct l.
    + intros _. exists (FunctionWrapper.state_ pt), (FunctionWrapper.f_ pt tt).
      split_and!; [done | done |]. cbn. apply lookup_insert_eq.
Qed.
End OutsideCaller.

Lemma outside_caller_helps_witness :
  inv demo_pool ∧
  (N.of_nat (length (local_task_queues_ demo_pool)) <= 2147483648)%N ∧
  head (attempts (events (run (RunPendingTask external) demo_pool 0))) = Some Global.
Proof.
  destruct demo_pool_facts as (Hinv & Hn & Hd & He).
  split; [exact Hinv |]. split; [rewrite Hn; lia |].
  destruct (outside_caller_helps demo_pool 0 Hinv) as (_ & Hhead & _);
    [rewrite Hn; lia |].
  exact Hhead.
Defined.

Section RoundTrip.
Context {R : Type}.
Implicit Types (p : ThreadPool.t R) (w : env).

End RoundTrip.


(** ** The pool: failure and shutdown *)

Section ConstructorFails.
Context {R : Type}.
Implicit Types (p : ThreadPool.t R) (w : env).



End ConstructorFails.


Section Abandoned.
Context {R : Type}.
Implicit Types (p : ThreadPool.t R) (w : env).


End Abandoned.

Section Joining.
Implicit Types (ts : list thread) (th : thread) (w : env).

Lemma join_loop_parks th ts2 ts1 : ∀ ts0 w,
  Forall (λ th, joinable th = true → finished th = true) ts1 →
  joinable th = true → finished th = false →
  for_each (seq (length ts0) (length (ts1 ++ th :: ts2))) join_body
      (ts0 ++ ts1 ++ th :: ts2) w =
    (Blocks, ts0 ++ map joined ts1 ++ th :: ts2,
     logged w (budget w) (map EvJoin (joins (length ts0) ts1))).
Proof.
  induction ts1 as [| a ts1 IH]; intros ts0 w Hall Hj Hf.
  - cbn [app length seq for_each map joins]. unfold mbind, M_bind, bind.
    unfold join_body at 1. munfold. rewrite list_lookup_middle by done.
    rewrite Hj. unfold JoinThreads.join. munfold. rewrite list_lookup_middle by done.
    rewrite Hf. cbn. by rewrite logged_nil.
  - apply Forall_cons in Hall as [Ha Hall].
    cbn [app length seq for_each]. unfold mbind, M_bind, bind.
    unfold join_body at 1. munfold. rewrite list_lookup_middle by done.
    assert (Hnext : ∀ th', (ts0 ++ [th']) ++ ts1 ++ th :: ts2 = ts0 ++ th' :: ts1 ++ th :: ts2)
      by (intros; by rewrite <- app_assoc).
    assert (Hlen : ∀ th', length (ts0 ++ [th']) = S (length ts0))
      by (intros; rewrite length_app; cbn; lia).
    destruct (joinable a) eqn:Hja.
    + unfold JoinThreads.join. munfold. rewrite list_lookup_middle by done.
      rewrite (Ha eq_refl). cbn. rewrite insert_app_r_alt by lia.
      rewrite Nat.sub_diag. cbn.
      specialize (IH (ts0 ++ [Thread (index a) true false])
                     (logged w (budget w) [EvJoin (length ts0)]) Hall Hj Hf).
      rewrite Hnext, Hlen in IH. unfold logged in IH. cbn in IH. rewrite IH.
      unfold logged, joined. rewrite Hja. cbn. rewrite <- !app_assoc. done.
    + cbn.
      specialize (IH (ts0 ++ [a]) w Hall Hj Hf).
      rewrite Hnext, Hlen in IH. rewrite IH.
      unfold joined at 2. rewrite Hja. cbn. by rewrite <- !app_assoc.
Qed.

(** X14. [~JoinThreads] joins the threads in the order of their indices
    and waits for each.  It passes over a thread that is not joinable; at the
    first joinable thread that has not finished it parks, inside [join],
    having joined exactly the joinable threads before that one, and it has
    touched no thread after it. *)
Theorem join_parks_at_first_unfinished ts1 th ts2 b :
  Forall (λ th, joinable th = true → finished th = true) ts1 →
  joinable th = true → finished th = false →
  let r := run JoinThreads.destructor (ts1 ++ th :: ts2) b in
  result r = Blocks ∧
  events r = map EvJoin (joins 0 ts1) ∧
  final r = map joined ts1 ++ th :: ts2.
Proof.
  intros Hall Hj Hf r. unfold r, run, result, events, final.
  pose proof (join_loop_parks th ts2 ts1 [] (Env b []) Hall Hj Hf) as Heq.
  unfold JoinThreads.destructor. unfold mbind, M_bind, bind, get.
  cbn in Heq. unfold join_body in Heq. unfold mbind, M_bind, bind, get in Heq.
  unfold logged in Heq. cbn in Heq. rewrite Heq. done.
Qed.
End Joining.

Lemma join_parks_at_first_unfinished_witness :
  Forall (λ th, joinable th = true → finished th = true)
    [Thread 0 true true; Thread 1 false false] ∧
  result (run JoinThreads.destructor
            ([Thread 0 true true; Thread 1 false false] ++
             Thread 2 false true :: [Thread 3 true true]) 0) = Blocks.
Proof.
  assert (H : Forall (λ th, joinable th = true → finished th = true)
                [Thread 0 true true; Thread 1 false false]).
  { repeat constructor; cbn; congruence. }
  split; [exact H |].
  destruct (join_parks_at_first_unfinished
              [Thread 0 true true; Thread 1 false false] (Thread 2 false true)
              [Thread 3 true true] 0 H eq_refl eq_refl) as [Hr _].
  exact Hr.
Defined.

(** ** The pool: mutexes *)

Section PoolLocks.
Context {R : Type}.
Implicit Types (p : ThreadPool.t R) (w : env) (hs : list (member * mutex)).

Lemma pool_held_app es1 : ∀ hs es2,
  pool_held hs (es1 ++ es2) = pool_held hs es1 ≫= λ hs', pool_held hs' es2.
Proof.
  induction es1 as [| e es1 IH]; intros hs es2; [done |].
  destruct e as [| | | | | o e | | | | | |]; cbn [app pool_held]; try done.
  - destruct e; try done.
    + by case_bool_decide.
    + destruct hs as [| x hs]; [done |]. by case_bool_decide.
  - by case_bool_decide.
  - by case_bool_decide.
Qed.

Lemma pool_held_free es1 es2 :
  pool_held [] es1 = Some [] → pool_held [] (es1 ++ es2) = pool_held [] es2.
Proof. intros H. by rewrite pool_held_app, H. Qed.

Lemma pool_held_visit o : pool_held [] (visit o mu_) = Some [].
Proof.
  cbn. rewrite bool_decide_eq_true_2.
  - by rewrite bool_decide_eq_true_2.
  - split_and!; [done | by intros ?%elem_of_nil | by intros [? _]].
Qed.

Lemma pool_held_global_visit : pool_held [] global_visit = Some [].
Proof. by vm_compute. Qed.

Lemma pool_held_steal_visits me n ix : pool_held [] (steal_visits me n ix) = Some [].
Proof.
  induction ix as [| i ix IH]; [done |].
  change (steal_visits me n (i :: ix))
    with (visit (Local (target me n i)) mu_ ++ steal_visits me n ix).
  rewrite pool_held_free; [done | apply pool_held_visit].
Qed.

Lemma pool_held_run k p w :
  inv p → k < length (local_task_queues_ p) →
  ∃ p' es, RunPendingTask (worker k) p w = (Ok tt, p', logged w (budget w) es) ∧
           pool_held [] es = Some [].
Proof.
  intros Hinv Hk.
  destruct (RunPendingTask_cases p k w Hinv Hk)
    as [n Hall Heq | t l pt Hl Hpt Heq | t ts pt g Hk0 Hrep' Hpt Hg Heq
        | pre i post t l pt n Hk0 Hg Hseq Hpre Hi Hpt Heq];
    eexists _, _; (split; [exact Heq |]).
  all: rewrite ?pool_held_free;
    auto using pool_held_visit, pool_held_global_visit, pool_held_steal_visits.
Qed.

Lemma pool_held_submit me f p b :
  inv p →
  (∀ i, local_task_queue_ me = Some i → i < length (local_task_queues_ p)) →
  pool_held [] (events (run (Submit me f) p b)) = Some [].
Proof.
  intros [(gs & Hrep & _) _] Hme. unfold run, events.
  destruct (local_task_queue_ me) as [i|] eqn:Hloc.
  - destruct (lookup_lt_is_Some_2 (local_task_queues_ p) i (Hme i eq_refl)) as [[l] Hl].
    rewrite (Submit_local me p i l f b Hloc Hl).
    destruct b as [|[|b]]; cbn [fst snd trace]; [done | done |].
    change ([EvAlloc; EvAlloc] ++ visit (Local i) mu_)
      with (EvAlloc :: EvAlloc :: visit (Local i) mu_).
    cbn [pool_held]. apply pool_held_visit.
  - destruct (decide (b < 4)) as [Hlt | Hge].
    + destruct (Submit_global_throw_state me p f b Hloc Hlt) as (p' & -> & _).
      cbn [fst snd trace]. by destruct b as [|[|[|[|b]]]]; [.. | lia].
    + replace b with (4 + (b - 4)) by lia.
      destruct (Submit_global_ok me p gs f (b - 4) Hloc Hrep) as (g & -> & _).
      by vm_compute.
Qed.

(** X18. Inside the pool a thread holds the mutexes of one queue at a
    time, and none when a task runs.  Whatever a call of [Submit] or
    [RunPendingTask], by a worker or a thread from outside, a turn of the
    worker loop or the start of the shutdown does, each mutex it locks it
    unlocks again before it goes to another queue, calls the task or yields;
    so a task may itself call [Submit] or [RunPendingTask] on the pool, and
    a call never waits for a mutex while it holds one of another queue. *)
Theorem tasks_run_with_no_mutex_held p b (a : PoolHistory.action R) :
  inv p → caller_any (length (local_task_queues_ p)) a →
  pool_held [] (events (run (PoolHistory.act a) p b)) = Some [].
Proof.
  intros Hinv Hany. destruct (caller_any_ok _ _ Hany) as [Hok | ->].
  - destruct a as [me f | me | k |]; cbn in Hok.
    + pose proof (pool_held_submit me f p b Hinv Hok) as H. revert H.
      unfold run, events. cbn [PoolHistory.act]. unfold mbind, M_bind, bind.
      by destruct (Submit me f p (Env b [])) as [[[h | | |] p'] w'].
    + destruct Hok as (k & -> & Hk).
      destruct (pool_held_run k p (Env b []) Hinv Hk) as (p' & es & Heq & Hes).
      unfold run, events. cbn [PoolHistory.act]. by rewrite Heq.
    + unfold run, events. cbn [PoolHistory.act]. unfold mbind, M_bind, bind.
      destruct (done_ p) eqn:Hd.
      * by rewrite Worker_iteration_exit.
      * unfold Worker_iteration. unfold mbind, M_bind, bind, get, emit. rewrite Hd.
        destruct (pool_held_run k p (Env b ([] ++ [EvLoadDone false])) Hinv Hok)
          as (p' & es & Heq & Hes).
        cbn [budget trace]. rewrite Heq. by cbn.
    + done.
  - unfold run, events. cbn [PoolHistory.act].
    destruct (RunPendingTask_outside_cases p (Env b []) Hinv)
      as [(Hg & Hall' & ->) | [(t & ts & pt & g & Hrep & Hpt & Hg & ->)
          | (pre & i & post & t & l & pt & Hg & Hseq & Hpre & Hi & Hpt & ->)]];
      cbn [fst snd logged trace app].
    all: rewrite ?pool_held_free;
      auto using pool_held_visit, pool_held_global_visit, pool_held_steal_visits.
Qed.
End PoolLocks.

Lemma tasks_run_with_no_mutex_held_witness :
  inv demo_pool ∧
  caller_any (R:=nat) (length (local_task_queues_ demo_pool))
    (PoolHistory.Runs external) ∧
  pool_held [] (events (run (PoolHistory.act (PoolHistory.Runs external)) demo_pool 0))
    = Some [].
Proof.
  destruct demo_pool_facts as (Hinv & Hn & Hd & He).
  split; [exact Hinv |]. split; [by left |].
  apply (tasks_run_with_no_mutex_held demo_pool 0 (PoolHistory.Runs external) Hinv).
  by left.
Defined.
